(** * Text retrieval with BM25 (lab_2_retrieval_w_bm25/main.py)

    A shallow embedding of the scoring engine of [main.py] and the
    properties of its natural-language specification.

    Modelling conventions.
    - A Python [str] is a [string]; its characters are the 8-bit code points
      U+0000..U+00FF and the character tests follow Python's [str] methods
      on that range.
    - An [int] is a [Z].  A Python [float] is modelled twice.
      Where a property is about exact values or does not depend on the
      rounding (frequencies that add up to 1, the sign and the order of
      IDF scores, Spearman's coefficient, sums of scores), a float is a
      real number ([R]) and arithmetic is exact; the ways an operation
      fails are kept: a division by zero raises [ZeroDivisionError],
      [math.log] outside its domain raises [ValueError].
      Where a property depends on what the machine computes (the BM25
      formula on any float and any [int], the scores written to a file), a
      float is an IEEE 754 binary64 number ([Binary64.float]): every
      operation rounds to nearest, an [int] operand is converted first and
      raises [OverflowError] when it is too large, a division by [0.0] or
      [-0.0] raises [ZeroDivisionError], and infinities and NaN are values.
      The two BM25 functions are embedded in both ways: [calculate_bm25]
      over [R] and [Binary64.calculate_bm25] over binary64.
    - A [dict] with string keys is a [gmap]: the laws of Python's dict
      equality (by content, whatever the insertion order) are the laws of
      [gmap] equality, as long as no value is NaN; the comparison [==] of
      dicts of floats is [dict_eq].  The dict of [rank_documents], whose
      item order feeds the sort, is an association list in insertion
      order.
    - A [set] of strings is a [gset string]; iterating over it visits each
      element once, in the order of [elements].
    - A function that may return [None] returns an [option]; a function
      that may also raise returns an [outcome].
    - A file holds the JSON document that [json.dump] wrote, its numbers
      being the floats that were written (NaN and the infinities
      included); the text of the document is not modelled.  A file system
      says under which paths [open] can create or replace a file.
    - The [isinstance] tests of the guards hold by typing; the tests on
      emptiness, on missing optional arguments and on signs are kept. *)

From Stdlib Require Import Reals Lra Lia ZArith String Ascii List.
From Stdlib Require Import Floats.SpecFloat.
From stdpp Require Import gmap strings list fin_maps sorting.

#[local] Open Scope string_scope.
#[local] Open Scope list_scope.

(** ** Outcomes of a call *)

Inductive exception : Set :=
  | ZeroDivisionError
  | ValueError
  | OverflowError
  | FileNotFoundError.

Inductive outcome (A : Type) : Type :=
  | Returned (v : A)
  | Raised (e : exception).

Arguments Returned {A} v.
Arguments Raised {A} e.

#[global] Instance outcome_ret : MRet outcome := @Returned.

#[global] Instance outcome_bind : MBind outcome := fun A B k c =>
  match c with
  | Returned v => k v
  | Raised e => Raised e
  end.

(** [for item in items: s = body s item], stopping at the first exception. *)
Fixpoint for_each {A S : Type} (items : list A) (body : S -> A -> outcome S)
    (s : S) : outcome S :=
  match items with
  | [] => Returned s
  | item :: rest => s' ← body s item; for_each rest body s'
  end.

(** ** Numbers *)

#[global] Instance R_eq_dec : EqDecision R := Req_dec_T.
#[global] Instance Rlt_decision (x y : R) : Decision (x < y)%R := Rlt_dec x y.
#[global] Instance Rge_decision (x y : R) : Decision (x >= y)%R := Rge_dec x y.

(** [len(l)] as an [int]. *)
Definition len {A : Type} (l : list A) : Z := Z.of_nat (length l).

(** [x / y] on floats. *)
Definition fdiv (x y : R) : outcome R :=
  if decide (y = 0%R) then Raised ZeroDivisionError else Returned (x / y)%R.

(** [x / y] on ints: true division. *)
Definition int_div (x y : Z) : outcome R :=
  if decide (y = 0%Z) then Raised ZeroDivisionError
  else Returned (IZR x / IZR y)%R.

(** [math.log(x)] *)
Definition math_log (x : R) : outcome R :=
  if decide (0 < x)%R then Returned (ln x) else Raised ValueError.

(** [sum(values)]: from 0, left to right. *)
Definition sum (values : list R) : R := fold_left Rplus values 0%R.

(** ** Lists *)

(** [l.count(x)] *)
Definition count `{EqDecision A} (x : A) (l : list A) : Z :=
  len (filter (fun y => y = x) l).

(** The position of the first element of [l] equal to [x]. *)
Fixpoint first_index `{EqDecision A} (x : A) (l : list A) : option nat :=
  match l with
  | [] => None
  | y :: l' => if decide (y = x) then Some 0%nat else S <$> first_index x l'
  end.

(** [l.index(x)] *)
Definition index_of `{EqDecision A} (x : A) (l : list A) : outcome Z :=
  match first_index x l with
  | Some i => Returned (Z.of_nat i)
  | None => Raised ValueError
  end.

(** ** Characters and strings *)

Module Str.

Definition code (c : ascii) : N := N_of_ascii c.

Definition between (lo hi n : N) : bool := ((lo <=? n) && (n <=? hi))%N.

(** [symbol.isalpha()] on one character. *)
Definition isalpha (c : ascii) : bool :=
  let n := code c in
  between 65 90 n || between 97 122 n
  || (n =? 170)%N || (n =? 181)%N || (n =? 186)%N
  || between 192 214 n || between 216 246 n || between 248 255 n.

(** The whitespace of [str.split()]. *)
Definition isspace (c : ascii) : bool :=
  let n := code c in
  between 9 13 n || between 28 32 n || (n =? 133)%N || (n =? 160)%N.

Definition lower_char (c : ascii) : ascii :=
  let n := code c in
  if between 65 90 n || between 192 214 n || between 216 222 n
  then ascii_of_N (n + 32)
  else c.

Fixpoint smap (f : ascii -> ascii) (s : string) : string :=
  match s with
  | EmptyString => EmptyString
  | String c s' => String (f c) (smap f s')
  end.

Fixpoint sforall (p : ascii -> bool) (s : string) : bool :=
  match s with
  | EmptyString => true
  | String c s' => p c && sforall p s'
  end.

(** [text.lower()] *)
Definition lower (s : string) : string := smap lower_char s.

(** [text.replace(old, new)] for one-character [old] and [new]. *)
Definition replace (old new : ascii) (s : string) : string :=
  smap (fun c => if Ascii.eqb c old then new else c) s.

(** [text.split()]: the maximal runs of non-whitespace characters;
    [word] is the run being read. *)
Fixpoint split_from (word : string) (s : string) : list string :=
  match s with
  | EmptyString => if String.eqb word "" then [] else [word]
  | String c s' =>
      if isspace c
      then (if String.eqb word "" then split_from "" s'
            else word :: split_from "" s')
      else split_from (word ++ String c "") s'
  end.

Definition split (s : string) : list string := split_from "" s.

(** [token.isalpha()] on a string: non-empty and alphabetic throughout. *)
Definition str_isalpha (s : string) : bool :=
  negb (String.eqb s "") && sforall isalpha s.

End Str.

(** ** Tokenizer and stopword filter *)

Definition space : ascii := " "%char.

(** One turn of the loop of [tokenize]: [symbol] is a character of the
    text as it was given, [text] the text as rewritten so far. *)
Definition tokenize_step (text : string) (symbol : ascii) : string :=
  if Str.isalpha symbol || Ascii.eqb symbol space then text
  else Str.replace symbol space text.

Definition tokenize (text : string) : option (list string) :=
  if (String.length text <? 1)%nat then None
  else
    let text' := fold_left tokenize_step (list_ascii_of_string text) text in
    Some (Str.split (Str.lower text')).

Definition remove_stopwords (tokens stopwords : list string)
  : option (list string) :=
  if ((length tokens =? 0) || (length stopwords =? 0))%nat then None
  else Some (filter (fun x => x ∉ stopwords) tokens).

(** ** Vocabulary *)

Definition build_vocabulary (documents : list (list string))
  : option (list string) :=
  if bool_decide (documents = [])
     || negb (forallb (fun document => (1 <? length document)%nat) documents)
  then None
  else
    let vocab_set : gset string :=
      list_to_set (filter (fun word => word ≠ "") (concat documents)) in
    if decide (vocab_set = ∅) then None else Some (elements vocab_set).

(** ** Frequency statistics *)

Definition calculate_tf (vocab document_tokens : list string)
  : outcome (option (gmap string R)) :=
  if ((length vocab =? 0) || (length document_tokens =? 0))%nat
  then Returned None
  else
    let len_document := len document_tokens in
    let token_set : gset string :=
      list_to_set vocab ∪ list_to_set document_tokens in
    tf_dict ← for_each (elements token_set)
      (fun tf_dict token =>
         tf ← int_div (count token document_tokens) len_document;
         mret (<[token := tf]> tf_dict)) ∅;
    mret (Some tf_dict).

(** [sum(1 for document in documents if token in document)] *)
Definition containing (token : string) (documents : list (list string)) : Z :=
  len (filter (fun document => token ∈ document) documents).

Definition calculate_idf (vocab : list string) (documents : list (list string))
  : outcome (option (gmap string R)) :=
  if ((length vocab =? 0) || (length documents =? 0))%nat then Returned None
  else if negb (forallb Str.str_isalpha vocab) then Returned None
  else if negb (forallb (forallb Str.str_isalpha) documents)
  then Returned None
  else
    idf_dict ← for_each vocab
      (fun idf_dict token =>
         let token_count := containing token documents in
         q ← fdiv (IZR (len documents - token_count) + 0.5)
                  (IZR token_count + 0.5);
         idf ← math_log q;
         mret (<[token := idf]> idf_dict)) ∅;
    mret (Some idf_dict).

(** ** Scoring functions *)

(** One item of [tf] in the comprehension of [calculate_tf_idf]. *)
Definition tf_idf_step (idf : gmap string R) (acc : gmap string R)
    (item : string * R) : gmap string R :=
  match idf !! item.1 with
  | Some idf_token => <[item.1 := (item.2 * idf_token)%R]> acc
  | None => acc
  end.

(** The comprehension of [calculate_tf_idf], over the items of [tf]. *)
Definition tf_idf_items (tf idf : gmap string R) : gmap string R :=
  fold_left (tf_idf_step idf) (map_to_list tf) ∅.

Definition calculate_tf_idf (tf idf : gmap string R)
  : option (gmap string R) :=
  let scores := tf_idf_items tf idf in
  if decide (scores = ∅) then None else Some scores.

Definition default_k1 : R := 1.5.
Definition default_b : R := 0.75.

(** The body of the loop of [calculate_bm25]. *)
Definition bm25_step (document : list string) (idf_document : gmap string R)
    (k1 b : R) (avg_doc_len : option R) (doc_len : option Z)
    (bm25_dict : gmap string R) (token : string) : outcome (gmap string R) :=
  let token_count :=
    if decide (token ∈ document) then (0 + count token document)%Z
    else 0%Z in
  match idf_document !! token, doc_len, avg_doc_len with
  | Some idf, Some doc_len, Some avg_doc_len =>
      r ← fdiv (IZR doc_len) avg_doc_len;
      q ← fdiv (IZR token_count * (k1 + 1))
               (IZR token_count + k1 * (1 - b + b * r));
      mret (<[token := (idf * q)%R]> bm25_dict)
  | _, _, _ => mret (<[token := 0%R]> bm25_dict)
  end.

Definition calculate_bm25 (vocab document : list string)
    (idf_document : gmap string R) (k1 b : R)
    (avg_doc_len : option R) (doc_len : option Z)
  : outcome (option (gmap string R)) :=
  let bad_input :=
    ((length vocab =? 0) || (length document =? 0)
     || (size idf_document =? 0))%nat
    || negb (bool_decide (is_Some avg_doc_len))
    || negb (bool_decide (is_Some doc_len)) in
  if bad_input then Returned None
  else
    let all_token_list :=
      elements (list_to_set vocab ∪ list_to_set document : gset string) in
    bm25_dict ← for_each all_token_list
      (bm25_step document idf_document k1 b avg_doc_len doc_len) ∅;
    mret (Some bm25_dict).

(** The body of the loop of [calculate_bm25_with_cutoff]. *)
Definition cutoff_step (document : list string) (idf_document : gmap string R)
    (alpha k1 b avg_doc_len : R) (doc_len : Z)
    (bm25_with_cutoff : gmap string R) (word : string)
  : outcome (gmap string R) :=
  match idf_document !! word with
  | Some idf =>
      if decide (idf >= alpha)%R then
        let word_count := count word document in
        r ← fdiv (b * IZR doc_len) avg_doc_len;
        q ← fdiv (IZR word_count * (k1 + 1))
                 (IZR word_count + k1 * (1 - b + r));
        mret (<[word := (idf * q)%R]> bm25_with_cutoff)
      else mret bm25_with_cutoff
  | None => mret bm25_with_cutoff
  end.

Definition calculate_bm25_with_cutoff (vocab document : list string)
    (idf_document : gmap string R) (alpha k1 b : R)
    (avg_doc_len : option R) (doc_len : option Z)
  : outcome (option (gmap string R)) :=
  if ((length vocab =? 0) || (length document =? 0))%nat then Returned None
  else if (size idf_document =? 0)%nat then Returned None
  else
    match avg_doc_len, doc_len with
    | Some avg_doc_len, Some doc_len =>
        if (doc_len <? 0)%Z then Returned None
        else
          bm25_with_cutoff ← for_each vocab
            (cutoff_step document idf_document alpha k1 b avg_doc_len doc_len)
            ∅;
          mret (Some bm25_with_cutoff)
    | _, _ => Returned None
    end.

(** ** Scoring functions, in machine floats *)

Module Binary64.

(** A Python [float]: an IEEE 754 binary64 number, with 53 bits of
    mantissa, two zeros, two infinities and one NaN. *)
Definition float : Type := spec_float.

Definition prec : Z := 53.
Definition emax : Z := 1024.

(** The float nearest to [m * 2**e], ties going to the even mantissa; it
    is infinite when [m * 2**e] is beyond the largest float. *)
Definition dyadic (m e : Z) : float := binary_normalize prec emax m e false.

(** The float nearest to the [int] [z]. *)
Definition of_int (z : Z) : float := dyadic z 0.

Definition nan : float := S754_nan.
Definition infinity : float := S754_infinity false.

Definition is_zero (x : float) : bool :=
  match x with
  | S754_zero _ => true
  | _ => false
  end.

Definition is_nan (x : float) : bool :=
  match x with
  | S754_nan => true
  | _ => false
  end.

Definition is_infinite (x : float) : bool :=
  match x with
  | S754_infinity _ => true
  | _ => false
  end.

(** [z] is not too large for a float. *)
Definition fits (z : Z) : bool := negb (is_infinite (of_int z)).

(** The conversion of an [int] operand of a float operation. *)
Definition to_float (z : Z) : outcome float :=
  if fits z then Returned (of_int z) else Raised OverflowError.

(** [x + y], [x - y] and [x * y] on floats: rounded, never raising. *)
Definition add (x y : float) : float := SFadd prec emax x y.
Definition sub (x y : float) : float := SFsub prec emax x y.
Definition mul (x y : float) : float := SFmul prec emax x y.

(** The rounded quotient of two floats. *)
Definition quotient (x y : float) : float := SFdiv prec emax x y.

(** [x / y] on floats. *)
Definition div (x y : float) : outcome float :=
  if is_zero y then Raised ZeroDivisionError else Returned (quotient x y).

(** [z * x], [z + x] and [z / x] with the [int] [z] on the left, and
    [x * z] with the [int] on the right. *)
Definition rmul (z : Z) (x : float) : outcome float :=
  z' ← to_float z; mret (mul z' x).

Definition radd (z : Z) (x : float) : outcome float :=
  z' ← to_float z; mret (add z' x).

Definition rdiv (z : Z) (x : float) : outcome float :=
  z' ← to_float z; div z' x.

Definition mul_int (x : float) (z : Z) : outcome float :=
  z' ← to_float z; mret (mul x z').

(** [x >= y], [x < y] and [x == y] on floats: false when one is NaN. *)
Definition geb (x y : float) : bool := SFleb y x.
Definition ltb (x y : float) : bool := SFltb x y.
Definition eqb (x y : float) : bool := SFeqb x y.

(** The [int] [1] of the formula as a float: the conversion is exact. *)
Definition one : float := of_int 1.

(** The default [k1 = 1.5] and [b = 0.75]. *)
Definition default_k1 : float := dyadic 3 (-1).
Definition default_b : float := dyadic 3 (-2).

(** A value of the dict of [calculate_bm25]: a float, or the [int] [0]
    that a token without an IDF gets. *)
Inductive number : Type :=
  | Int (z : Z)
  | Float (x : float).

(** The body of the loop of [calculate_bm25]. *)
Definition bm25_step (document : list string)
    (idf_document : gmap string float) (k1 b : float)
    (avg_doc_len : option float) (doc_len : option Z)
    (bm25_dict : gmap string number) (token : string)
  : outcome (gmap string number) :=
  let token_count :=
    if decide (token ∈ document) then (0 + count token document)%Z
    else 0%Z in
  match idf_document !! token, doc_len, avg_doc_len with
  | Some idf, Some doc_len, Some avg_doc_len =>
      numerator ← rmul token_count (add k1 one);
      r ← rdiv doc_len avg_doc_len;
      denominator ← radd token_count (mul k1 (add (sub one b) (mul b r)));
      q ← div numerator denominator;
      mret (<[token := Float (mul idf q)]> bm25_dict)
  | _, _, _ => mret (<[token := Int 0]> bm25_dict)
  end.

Definition calculate_bm25 (vocab document : list string)
    (idf_document : gmap string float) (k1 b : float)
    (avg_doc_len : option float) (doc_len : option Z)
  : outcome (option (gmap string number)) :=
  let bad_input :=
    ((length vocab =? 0) || (length document =? 0)
     || (size idf_document =? 0))%nat
    || negb (bool_decide (is_Some avg_doc_len))
    || negb (bool_decide (is_Some doc_len)) in
  if bad_input then Returned None
  else
    let all_token_list :=
      elements (list_to_set vocab ∪ list_to_set document : gset string) in
    bm25_dict ← for_each all_token_list
      (bm25_step document idf_document k1 b avg_doc_len doc_len) ∅;
    mret (Some bm25_dict).

(** The body of the loop of [calculate_bm25_with_cutoff]. *)
Definition cutoff_step (document : list string)
    (idf_document : gmap string float) (alpha k1 b avg_doc_len : float)
    (doc_len : Z) (bm25_with_cutoff : gmap string float) (word : string)
  : outcome (gmap string float) :=
  match idf_document !! word with
  | Some idf =>
      if geb idf alpha then
        let word_count := count word document in
        numerator ← rmul word_count (add k1 one);
        scaled ← mul_int b doc_len;
        r ← div scaled avg_doc_len;
        denominator ← radd word_count (mul k1 (add (sub one b) r));
        q ← div numerator denominator;
        mret (<[word := mul idf q]> bm25_with_cutoff)
      else mret bm25_with_cutoff
  | None => mret bm25_with_cutoff
  end.

Definition calculate_bm25_with_cutoff (vocab document : list string)
    (idf_document : gmap string float) (alpha k1 b : float)
    (avg_doc_len : option float) (doc_len : option Z)
  : outcome (option (gmap string float)) :=
  if ((length vocab =? 0) || (length document =? 0))%nat then Returned None
  else if (size idf_document =? 0)%nat then Returned None
  else
    match avg_doc_len, doc_len with
    | Some avg_doc_len, Some doc_len =>
        if (doc_len <? 0)%Z then Returned None
        else
          bm25_with_cutoff ← for_each vocab
            (cutoff_step document idf_document alpha k1 b avg_doc_len doc_len)
            ∅;
          mret (Some bm25_with_cutoff)
    | _, _ => Returned None
    end.

(** The formula of the specification, operation by operation in floats,
    for a token found [f] times. *)

(** The denominator [f + k1 * (1 - b + b * (doc_len / avg_doc_len))]. *)
Definition bm25_denominator (k1 b avg_doc_len : float) (doc_len f : Z)
  : float :=
  add (of_int f)
    (mul k1 (add (sub one b)
                 (mul b (quotient (of_int doc_len) avg_doc_len)))).

(** The score [idf * ((f * (k1 + 1)) / d)], [d] the denominator. *)
Definition bm25_score (idf k1 b avg_doc_len : float) (doc_len f : Z)
  : float :=
  mul idf (quotient (mul (of_int f) (add k1 one))
                    (bm25_denominator k1 b avg_doc_len doc_len f)).

(** The formula has a value for this token: the two ints are not too
    large for a float and neither divisor is zero. *)
Definition bm25_defined (document : list string) (k1 b avg_doc_len : float)
    (doc_len : Z) (token : string) : bool :=
  fits (count token document) && fits doc_len
  && negb (is_zero avg_doc_len)
  && negb (is_zero (bm25_denominator k1 b avg_doc_len doc_len
                      (count token document))).

(** What the loop of [calculate_bm25] stores for a token. *)
Definition bm25_value (document : list string)
    (idf_document : gmap string float) (k1 b avg_doc_len : float)
    (doc_len : Z) (token : string) : number :=
  match idf_document !! token with
  | Some idf =>
      Float (bm25_score idf k1 b avg_doc_len doc_len (count token document))
  | None => Int 0
  end.

(** The denominator as [calculate_bm25_with_cutoff] brackets it:
    [f + k1 * (1 - b + (b * doc_len) / avg_doc_len)]. *)
Definition cutoff_denominator (k1 b avg_doc_len : float) (doc_len f : Z)
  : float :=
  add (of_int f)
    (mul k1 (add (sub one b)
                 (quotient (mul b (of_int doc_len)) avg_doc_len))).

(** The score [idf * ((f * (k1 + 1)) / d)], [d] that denominator. *)
Definition cutoff_score (idf k1 b avg_doc_len : float) (doc_len f : Z)
  : float :=
  mul idf (quotient (mul (of_int f) (add k1 one))
                    (cutoff_denominator k1 b avg_doc_len doc_len f)).

Definition cutoff_defined (document : list string)
    (k1 b avg_doc_len : float) (doc_len : Z) (word : string) : bool :=
  fits (count word document) && fits doc_len
  && negb (is_zero avg_doc_len)
  && negb (is_zero (cutoff_denominator k1 b avg_doc_len doc_len
                      (count word document))).

(** The word has an IDF that is [>= alpha]. *)
Definition kept (idf_document : gmap string float) (alpha : float)
    (word : string) : bool :=
  match idf_document !! word with
  | Some idf => geb idf alpha
  | None => false
  end.

(** What the loop of [calculate_bm25_with_cutoff] stores for a word, if
    anything. *)
Definition cutoff_value (document : list string)
    (idf_document : gmap string float) (alpha k1 b avg_doc_len : float)
    (doc_len : Z) (word : string) : option float :=
  match idf_document !! word with
  | Some idf =>
      if geb idf alpha
      then Some (cutoff_score idf k1 b avg_doc_len doc_len
                   (count word document))
      else None
  | None => None
  end.

(** Neither infinite nor NaN. *)
Definition is_finite (x : float) : bool :=
  negb (is_infinite x) && negb (is_nan x).

End Binary64.

#[global] Instance float_eq_dec : EqDecision Binary64.float.
Proof. solve_decision. Defined.

Declare Scope binary64_scope.
Delimit Scope binary64_scope with f64.
Infix "+" := Binary64.add : binary64_scope.
Infix "-" := Binary64.sub : binary64_scope.
Infix "*" := Binary64.mul : binary64_scope.
Infix "/" := Binary64.quotient : binary64_scope.

(** ** Ranker *)

(** [d[k] = v] on a dict kept in insertion order. *)
Fixpoint dict_set (k : Z) (v : R) (d : list (Z * R)) : list (Z * R) :=
  match d with
  | [] => [(k, v)]
  | item :: d' =>
      if decide (item.1 = k) then (k, v) :: d' else item :: dict_set k v d'
  end.

(** [sorted(l, key=lambda x: x[1], reverse=True)]: the stable sort by
    decreasing score. *)
Fixpoint insert_desc (x : Z * R) (l : list (Z * R)) : list (Z * R) :=
  match l with
  | [] => [x]
  | y :: l' => if decide (x.2 < y.2)%R then y :: insert_desc x l' else x :: l
  end.

Definition sorted_desc (l : list (Z * R)) : list (Z * R) :=
  foldr insert_desc [] l.

(** [sum(d[token] for token in query if token in d)] *)
Definition query_score (d : gmap string R) (query : list string) : R :=
  sum (omap (fun token => d !! token) query).

(** The body of the loop of [rank_documents]. *)
Definition rank_step (indexes : list (gmap string R))
    (processed_query : list string)
    (result_not_sorted : list (Z * R)) (bm25_tfidf_dict : gmap string R)
  : outcome (list (Z * R)) :=
  i ← index_of bm25_tfidf_dict indexes;
  let value_sum := query_score bm25_tfidf_dict processed_query in
  mret (dict_set i value_sum result_not_sorted).

Definition rank_documents (indexes : list (gmap string R)) (query : string)
    (stopwords : list string) : outcome (option (list (Z * R))) :=
  let bad_input :=
    bool_decide (indexes = []) || String.eqb query ""
    || bool_decide (stopwords = []) in
  if bad_input then Returned None
  else
    match tokenize query with
    | None => Returned None
    | Some tokenized_query =>
        match remove_stopwords tokenized_query stopwords with
        | None => Returned None
        | Some processed_query =>
            result_not_sorted ← for_each indexes
              (rank_step indexes processed_query) [];
            mret (Some (sorted_desc result_not_sorted))
        end
    end.

(** ** Index persistence *)

(** What a file written by [dump] holds: a JSON array of objects whose
    members are numbers, each object with its members in order. *)
Definition json_array : Type := list (list (string * Binary64.float)).

(** The files that hold an index, by the path given to [open], and what
    [open(path, 'w')] does under a path: it creates or replaces a regular
    file ([None]), or it refuses the path and raises, as it does with
    [FileNotFoundError] for a path in a missing directory. *)
Record filesystem : Type := {
  files : gmap string json_array;
  refused : string -> option exception
}.

(** [json.dump]: the members of a dict are written in its item order; a
    float is written so that it reads back as the same float, NaN as
    [NaN] and the infinities as [Infinity] and [-Infinity]. *)
Definition dump (index : list (gmap string Binary64.float)) : json_array :=
  map map_to_list index.

(** [json.load]: of two members with one name, the later one stays. *)
Definition load_object (members : list (string * Binary64.float))
  : gmap string Binary64.float :=
  fold_left (fun d member => <[member.1 := member.2]> d) members ∅.

Definition load (doc : json_array) : list (gmap string Binary64.float) :=
  map load_object doc.

(** [open(file_path, 'w')] followed by [dump]: the file is created or
    replaced, unless [open] refuses the path. *)
Definition write_file (file_path : string) (doc : json_array)
    (fs : filesystem) : outcome filesystem :=
  match refused fs file_path with
  | None => Returned {| files := <[file_path := doc]> (files fs);
                        refused := refused fs |}
  | Some e => Raised e
  end.

(** [save_index] returns [None] whenever it returns; its result here is
    the file system it leaves. *)
Definition save_index (index : list (gmap string Binary64.float))
    (file_path : string) (fs : filesystem) : outcome filesystem :=
  if (length index =? 0)%nat then Returned fs
  else if String.eqb file_path "" then Returned fs
  else write_file file_path (dump index) fs.

Definition load_index (file_path : string) (fs : filesystem)
  : outcome (option (list (gmap string Binary64.float))) :=
  if String.eqb file_path "" then Returned None
  else
    match files fs !! file_path with
    | Some doc => Returned (Some (load doc))
    | None => Raised FileNotFoundError
    end.

(** ** Evaluation metric *)

(** The body of the loop of [calculate_spearman]. *)
Definition spearman_step (rank golden_rank : list Z)
    (rank_differences : Z) (item : Z) : outcome Z :=
  if decide (item ∈ golden_rank) then
    g ← index_of item golden_rank;
    r ← index_of item rank;
    mret (rank_differences + (g - r) ^ 2)%Z
  else mret rank_differences.

Definition calculate_spearman (rank golden_rank : list Z)
  : outcome (option R) :=
  if bool_decide (rank = []) then Returned None
  else if bool_decide (golden_rank = [])
          || negb (length rank =? length golden_rank)%nat
  then Returned None
  else
    let n := len rank in
    rank_differences ← for_each rank (spearman_step rank golden_rank) 0%Z;
    q ← int_div (6 * rank_differences) (n * (n ^ 2 - 1));
    mret (Some (1 - q)%R).

(** * Vocabulary of the properties *)

(** [symbol] is rewritten by the loop: neither a letter nor a space. *)
Definition separator (symbol : ascii) : bool :=
  negb (Str.isalpha symbol || Ascii.eqb symbol space).

(** What the loop of [tokenize] does to one character when it runs over
    the symbols [l]. *)
Definition rewritten (l : list ascii) (c : ascii) : ascii :=
  if existsb (fun symbol => separator symbol && Ascii.eqb c symbol) l
  then space else c.

(** A text of spaces only. *)
Definition blank (s : string) : bool :=
  Str.sforall (fun c => Ascii.eqb c space) s.

(** A loop whose body stores [v] under the key when [g key = Some v] and
    passes otherwise. *)
Definition store {V : Type} (g : string -> option V) (d : gmap string V)
    (key : string) : gmap string V :=
  match g key with
  | Some v => <[key := v]> d
  | None => d
  end.

(** The pairs [(i, sum)] of the documents, in the order of the corpus. *)
Definition document_scores (indexes : list (gmap string R))
    (processed_query : list string) : list (Z * R) :=
  imap (fun i d => (Z.of_nat i, query_score d processed_query)) indexes.

(** [x] may stand before [y] in a ranking by decreasing score. *)
Definition score_ge (x y : Z * R) : Prop := (x.2 >= y.2)%R.

(** The pairs of [l] with the score [v], in their order. *)
Definition with_score (v : R) (l : list (Z * R)) : list (Z * R) :=
  filter (fun x => x.2 = v) l.

(** A body that raises nothing but [e]. *)
Definition raises_only {A S : Type} (e : exception)
    (body : S -> A -> outcome S) : Prop :=
  forall s item,
    (exists s', body s item = Returned s') \/ body s item = Raised e.

(** The two exceptions of float arithmetic. *)
Definition arithmetic_error (e : exception) : Prop :=
  e = ZeroDivisionError \/ e = OverflowError.

(** [d1 == d2] on dicts of floats that are not one object: as many items,
    and every key of [d1] is a key of [d2] with an equal float.  A NaN is
    equal to no float, itself included. *)
Definition dict_eq (d1 d2 : gmap string Binary64.float) : bool :=
  (size d1 =? size d2)%nat
  && forallb
       (fun item : string * Binary64.float =>
          match d2 !! item.1 with
          | Some v => Binary64.eqb item.2 v
          | None => false
          end)
       (map_to_list d1).

(** [l1 == l2] on lists of such dicts: as many dicts, equal one by one. *)
Fixpoint index_eq (l1 l2 : list (gmap string Binary64.float)) : bool :=
  match l1, l2 with
  | [], [] => true
  | d1 :: l1', d2 :: l2' => dict_eq d1 d2 && index_eq l1' l2'
  | _, _ => false
  end.

(** No score of the index is NaN. *)
Definition nan_free (index : list (gmap string Binary64.float)) : Prop :=
  forall d token score,
    d ∈ index -> d !! token = Some score -> Binary64.is_nan score = false.

(** [document_tokens.count(token) / len_document] *)
Definition frequency (document_tokens : list string) (token : string) : R :=
  (IZR (count token document_tokens) / IZR (len document_tokens))%R.

(** The score [math.log((N - n + 0.5) / (n + 0.5))] of a term found in [n]
    of [N] documents. *)
Definition idf_score (N n : Z) : R :=
  ln ((IZR (N - n) + 0.5) / (IZR n + 0.5)).

(** The denominator [f + k1 * (1 - b + b * (doc_len / avg_doc_len))]. *)
Definition bm25_denominator (k1 b avg_doc_len : R) (doc_len f : Z) : R :=
  (IZR f + k1 * (1 - b + b * (IZR doc_len / avg_doc_len)))%R.

(** The score
    [idf * (f * (k1 + 1)) / (f + k1 * (1 - b + b * (doc_len / avg_doc_len)))]
    of a token found [f] times. *)
Definition bm25_score (idf k1 b avg_doc_len : R) (doc_len f : Z) : R :=
  (idf * (IZR f * (k1 + 1)) / bm25_denominator k1 b avg_doc_len doc_len f)%R.

(** No division of the formula is by zero for this token. *)
Definition bm25_defined (document : list string) (k1 b avg_doc_len : R)
    (doc_len : Z) (token : string) : Prop :=
  avg_doc_len <> 0%R /\
  bm25_denominator k1 b avg_doc_len doc_len (count token document) <> 0%R.

#[global] Instance bm25_defined_dec (document : list string)
    (k1 b avg_doc_len : R) (doc_len : Z) (token : string) :
  Decision (bm25_defined document k1 b avg_doc_len doc_len token).
Proof. unfold bm25_defined. apply _. Defined.

(** What the loop of [calculate_bm25] stores for a token. *)
Definition bm25_value (document : list string) (idf_document : gmap string R)
    (k1 b avg_doc_len : R) (doc_len : Z) (token : string) : R :=
  match idf_document !! token with
  | Some idf => bm25_score idf k1 b avg_doc_len doc_len (count token document)
  | None => 0%R
  end.

(** What the loop of [calculate_bm25_with_cutoff] stores for a word, if
    anything. *)
Definition cutoff_value (document : list string)
    (idf_document : gmap string R) (alpha k1 b avg_doc_len : R) (doc_len : Z)
    (word : string) : option R :=
  match idf_document !! word with
  | Some idf =>
      if decide (idf >= alpha)%R
      then Some (bm25_score idf k1 b avg_doc_len doc_len
                   (count word document))
      else None
  | None => None
  end.

(** The word passes the cutoff. *)
Definition kept (idf_document : gmap string R) (alpha : R) (word : string)
  : Prop :=
  exists idf, idf_document !! word = Some idf /\ (idf >= alpha)%R.

(** ** Vocabulary of the further properties *)

(** Some word of the vocabulary that passes the cutoff and for which a
    division of the formula is by zero. *)
Definition cutoff_undefined_word (vocab document : list string)
    (idf_document : gmap string R) (alpha k1 b avg_doc_len : R) (doc_len : Z)
  : Prop :=
  exists word,
    word ∈ vocab /\ kept idf_document alpha word /\
    ~ bm25_defined document k1 b avg_doc_len doc_len word.

(** The pairs that the loop of [rank_documents] adds for the score maps
    [rest], when the score maps [seen] came before them in the corpus: a
    score map equal to an earlier one adds none. *)
Fixpoint first_scores (seen rest : list (gmap string R))
    (query : list string) : list (Z * R) :=
  match rest with
  | [] => []
  | d :: rest' =>
      (if decide (d ∈ seen) then [] else [(len seen, query_score d query)])
      ++ first_scores (seen ++ [d]) rest' query
  end.

(** What holds of the dict of the loop of [rank_documents] after the score
    maps [seen]: no key twice, the keys are positions in [seen], and a
    score map of [seen] has its pair under its first position. *)
Definition ranked (query : list string) (seen : list (gmap string R))
    (acc : list (Z * R)) : Prop :=
  NoDup acc.*1 /\
  (forall item, item ∈ acc -> (0 <= item.1 < len seen)%Z) /\
  (forall d i, first_index d seen = Some i ->
     (Z.of_nat i, query_score d query) ∈ acc).

(** The square that [calculate_spearman] adds for an item of [rank]: 0
    when [golden_rank] does not have the item. *)
Definition squared_difference (rank golden_rank : list Z) (item : Z) : Z :=
  match first_index item golden_rank, first_index item rank with
  | Some g, Some r => (Z.of_nat g - Z.of_nat r) ^ 2
  | _, _ => 0
  end.

(** The sum of the squares over the items [items] of [rank]. *)
Definition sum_of_squares (rank golden_rank items : list Z) : Z :=
  foldr (fun item total => squared_difference rank golden_rank item + total)%Z
    0%Z items.

(** * Properties *)

Example tokenize_sentence :
  tokenize "The cat, the DOG & 2 mice!" =
  Some ["the"; "cat"; "the"; "dog"; "mice"].
Proof. reflexivity. Qed.

Example tokenize_empty : tokenize "" = None.
Proof. reflexivity. Qed.

Example remove_stopwords_sentence :
  remove_stopwords ["the"; "cat"; "the"; "dog"] ["the"] = Some ["cat"; "dog"].
Proof. vm_compute. reflexivity. Qed.

Example build_vocabulary_two_documents :
  exists vocab,
    build_vocabulary [["a"; "b"]; ["b"; "c"]] = Some vocab /\
    vocab ≡ₚ ["a"; "b"; "c"].
Proof.
  exists ["c"; "a"; "b"]. split; [by vm_compute|].
  change ["c"; "a"; "b"] with (["c"] ++ ["a"; "b"]).
  by rewrite Permutation_app_comm.
Qed.

(** ** The tokenizer *)

Section Tokenizer.

Lemma smap_ext (f g : ascii -> ascii) (s : string) :
  (forall c, f c = g c) -> Str.smap f s = Str.smap g s.
Proof.
  intros E. induction s as [|c s IH]; simpl; [done|]. by rewrite E, IH.
Qed.

Lemma smap_smap (f g : ascii -> ascii) (s : string) :
  Str.smap f (Str.smap g s) = Str.smap (fun c => f (g c)) s.
Proof. induction s as [|c s IH]; simpl; [done|]. by rewrite IH. Qed.

Lemma smap_id (s : string) : Str.smap (fun c => c) s = s.
Proof. induction s as [|c s IH]; simpl; [done|]. by rewrite IH. Qed.

Lemma rewritten_space (l : list ascii) : rewritten l space = space.
Proof. unfold rewritten. by destruct (existsb _ l). Qed.

Lemma tokenize_loop (l : list ascii) (text : string) :
  fold_left tokenize_step l text = Str.smap (rewritten l) text.
Proof.
  revert text. induction l as [|symbol l IH]; intros text; simpl.
  - unfold rewritten; simpl. by rewrite smap_id.
  - rewrite IH. unfold tokenize_step.
    destruct (Str.isalpha symbol || Ascii.eqb symbol space) eqn:E.
    + apply smap_ext. intros c. unfold rewritten, separator; simpl.
      by rewrite E.
    + unfold Str.replace. rewrite smap_smap. apply smap_ext. intros c.
      destruct (Ascii.eqb c symbol) eqn:Ec.
      * rewrite rewritten_space. unfold rewritten, separator; simpl.
        by rewrite E, Ec.
      * unfold rewritten, separator; simpl.
        by rewrite E, Ec.
Qed.

Lemma smap_in_ext (f g : ascii -> ascii) (s : string) :
  (forall c, In c (list_ascii_of_string s) -> f c = g c) ->
  Str.smap f s = Str.smap g s.
Proof.
  induction s as [|c s IH]; simpl; intros E; [done|].
  rewrite E by auto. rewrite IH; [done|]. intros; apply E; auto.
Qed.

(** The loop turns every character that is neither a letter nor a space
    into a space and leaves the others. *)
Lemma tokenize_loop_text (text : string) :
  fold_left tokenize_step (list_ascii_of_string text) text =
  Str.smap (fun c => if separator c then space else c) text.
Proof.
  rewrite tokenize_loop. apply smap_in_ext. intros c Hc.
  unfold rewritten. destruct (separator c) eqn:Es.
  - assert (existsb
      (fun symbol => separator symbol && Ascii.eqb c symbol)
      (list_ascii_of_string text) = true) as ->; [|done].
    apply existsb_exists. exists c. split; [done|].
    by rewrite Es, Ascii.eqb_refl.
  - destruct (existsb _ _) eqn:Ex; [|done].
    apply existsb_exists in Ex as (x & _ & Hx).
    apply andb_prop in Hx as [Hx1 Hx2].
    apply Ascii.eqb_eq in Hx2 as ->. congruence.
Qed.

Lemma split_blank (s : string) : blank s = true -> Str.split s = [].
Proof.
  unfold Str.split. induction s as [|c s IH]; simpl; [done|].
  intros H. apply andb_prop in H as [Hc Hs]. apply Ascii.eqb_eq in Hc as ->.
  simpl. auto.
Qed.

Lemma lower_blank (s : string) : blank s = true -> blank (Str.lower s) = true.
Proof.
  unfold blank, Str.lower. induction s as [|c s IH]; simpl; [done|].
  intros H. apply andb_prop in H as [Hc Hs]. apply Ascii.eqb_eq in Hc as ->.
  rewrite (IH Hs). reflexivity.
Qed.

Lemma loop_blank (text : string) :
  Str.sforall (fun c => negb (Str.isalpha c)) text = true ->
  blank (Str.smap (fun c => if separator c then space else c) text) = true.
Proof.
  unfold blank. induction text as [|c s IH]; simpl; [done|].
  intros H. apply andb_prop in H as [Hc Hs]. rewrite (IH Hs), andb_true_r.
  unfold separator. destruct (Ascii.eqb c space) eqn:E.
  - rewrite orb_true_r. simpl. done.
  - rewrite orb_false_r. rewrite Hc. reflexivity.
Qed.

End Tokenizer.

(** C8: on a non-empty text without a single alphabetic character,
    [tokenize] returns the empty list of tokens, a result, and not [None],
    the signal of an invalid input. *)
Theorem tokenize_without_letters (text : string) :
  text <> "" ->
  Str.sforall (fun c => negb (Str.isalpha c)) text = true ->
  tokenize text = Some [].
Proof.
  intros Hne Hno. unfold tokenize.
  destruct text as [|c s]; [done|]. cbn [String.length Nat.ltb Nat.leb].
  rewrite tokenize_loop_text.
  by rewrite (split_blank _ (lower_blank _ (loop_blank _ Hno))).
Qed.

Lemma tokenize_without_letters_witness :
  tokenize "12, 7.5 (?!)" = Some [].
Proof.
  apply tokenize_without_letters; [discriminate | reflexivity].
Defined.

(** ** The stopword filter *)

(** C9: when every token is a stopword, [remove_stopwords] on non-empty
    lists returns the empty list, a result, and not [None], the signal of
    an invalid input. *)
Theorem remove_stopwords_all (tokens stopwords : list string) :
  tokens <> [] -> stopwords <> [] ->
  (forall token, token ∈ tokens -> token ∈ stopwords) ->
  remove_stopwords tokens stopwords = Some [].
Proof.
  intros Ht Hs Hall. unfold remove_stopwords.
  destruct tokens as [|t tokens]; [done|].
  destruct stopwords as [|w stopwords]; [done|]. simpl.
  f_equal. generalize (t :: tokens) Hall. clear.
  induction l as [|x l IH]; intros Hall; [done|].
  rewrite filter_cons_False.
  - apply IH. intros token Hin. apply Hall. by right.
  - intros Hx. apply Hx, Hall. by left.
Qed.

Lemma remove_stopwords_all_witness :
  remove_stopwords ["the"; "a"; "the"] ["a"; "the"] = Some [].
Proof.
  apply remove_stopwords_all; [discriminate | discriminate |].
  intros token Hin. repeat (apply elem_of_cons in Hin as [->|Hin]);
    [set_solver | set_solver | set_solver | by apply elem_of_nil in Hin].
Defined.

(** ** Loops that fill a dict *)

Section DictLoops.

Lemma for_each_returns {A S : Type} (items : list A)
    (body : S -> A -> outcome S) (step : S -> A -> S) (s : S) :
  (forall s' item, item ∈ items -> body s' item = Returned (step s' item)) ->
  for_each items body s = Returned (fold_left step items s).
Proof.
  revert s. induction items as [|item items IH]; intros s Hbody; [done|].
  simpl. rewrite Hbody by left. simpl. unfold mbind, outcome_bind.
  apply IH. intros s' item' Hin. apply Hbody. by right.
Qed.

Lemma fold_store_lookup {V : Type} (g : string -> option V)
    (keys : list string) (d : gmap string V) (key : string) :
  fold_left (store g) keys d !! key =
  match (if decide (key ∈ keys) then g key else None) with
  | Some v => Some v
  | None => d !! key
  end.
Proof.
  revert d. induction keys as [|k keys IH]; intros d; cbn [fold_left].
  - case_decide as Hin; [by apply elem_of_nil in Hin|done].
  - rewrite IH. unfold store.
    destruct (decide (key ∈ keys)) as [Hin|Hnin].
    + rewrite decide_True by (by right).
      destruct (g key) eqn:Eg; [done|].
      destruct (g k) eqn:Ek; [|done].
      rewrite lookup_insert_ne; [done|]. congruence.
    + destruct (decide (k = key)) as [->|Hne].
      * rewrite decide_True by (by left).
        destruct (g key); [by rewrite lookup_insert_eq|done].
      * rewrite decide_False by (intros [?|?]%elem_of_cons; congruence).
        destruct (g k); [|done].
        by rewrite lookup_insert_ne.
Qed.

End DictLoops.

(** ** TF-IDF *)

Section TfIdf.

Variables tf idf : gmap string R.

#[local] Abbreviation step := (tf_idf_step idf).

Lemma tf_idf_fold (items : list (string * R)) (acc : gmap string R)
    (token : string) :
  NoDup items.*1 ->
  fold_left step items acc !! token =
  match (list_to_map items : gmap string R) !! token, idf !! token with
  | Some tf_token, Some idf_token => Some (tf_token * idf_token)%R
  | _, _ => acc !! token
  end.
Proof.
  revert acc. induction items as [|[k v] items IH]; intros acc Hnd.
  - change (list_to_map [] : gmap string R) with (∅ : gmap string R).
    by rewrite lookup_empty.
  - apply NoDup_cons in Hnd as [Hk Hnd]. cbn [fold_left].
    rewrite IH by done. cbn [list_to_map foldr uncurry].
    destruct (decide (k = token)) as [->|Hne].
    + rewrite lookup_insert_eq.
      rewrite (not_elem_of_list_to_map_1 _ _ Hk).
      unfold tf_idf_step; cbn [fst snd].
      destruct (idf !! token); [by rewrite lookup_insert_eq|done].
    + rewrite lookup_insert_ne by done.
      assert (step acc (k, v) !! token = acc !! token) as ->; [|done].
      unfold tf_idf_step; cbn [fst snd].
      destruct (idf !! k); [by rewrite lookup_insert_ne|done].
Qed.

Lemma tf_idf_items_lookup (token : string) :
  tf_idf_items tf idf !! token =
  (tf_token ← tf !! token; idf_token ← idf !! token;
   Some (tf_token * idf_token)%R).
Proof.
  unfold tf_idf_items.
  rewrite tf_idf_fold by apply NoDup_fst_map_to_list.
  rewrite list_to_map_to_list, lookup_empty.
  destruct (tf !! token); [|done]. by destruct (idf !! token).
Qed.

End TfIdf.

(** C6: [calculate_tf_idf] computes the map that gives [tf[t] * idf[t]] to
    every token [t] of both maps and has no other key, so a token without
    an IDF is dropped; it returns that map, or [None] when the map is
    empty. *)
Theorem calculate_tf_idf_correct (tf idf : gmap string R) :
  exists scores : gmap string R,
    (forall token,
       scores !! token =
       (tf_token ← tf !! token; idf_token ← idf !! token;
        Some (tf_token * idf_token)%R)) /\
    calculate_tf_idf tf idf =
    (if decide (scores = ∅) then None else Some scores).
Proof.
  exists (tf_idf_items tf idf). split; [apply tf_idf_items_lookup|done].
Qed.

(** ** Sums and counts *)

Section Sums.

Lemma fold_left_Rplus (values : list R) (a : R) :
  fold_left Rplus values a = (a + sum values)%R.
Proof.
  unfold sum. revert a. induction values as [|v values IH]; intros a; simpl.
  - lra.
  - rewrite (IH (a + v)%R), (IH (0 + v)%R). lra.
Qed.

Lemma sum_nil : sum [] = 0%R.
Proof. reflexivity. Qed.

Lemma sum_cons (v : R) (values : list R) :
  sum (v :: values) = (v + sum values)%R.
Proof. unfold sum at 1. simpl. rewrite fold_left_Rplus. lra. Qed.

Lemma sum_perm (l1 l2 : list R) : l1 ≡ₚ l2 -> sum l1 = sum l2.
Proof.
  induction 1 as [|x l1 l2 _ IH|x y l|l1 l2 l3 _ IH1 _ IH2].
  - done.
  - by rewrite !sum_cons, IH.
  - rewrite !sum_cons. lra.
  - congruence.
Qed.

Lemma sum_map_plus {A : Type} (f g : A -> R) (l : list A) :
  sum (map (fun x => f x + g x)%R l) = (sum (map f l) + sum (map g l))%R.
Proof.
  induction l as [|x l IH]; simpl; rewrite ?sum_nil, ?sum_cons; [lra|].
  rewrite IH. lra.
Qed.

Lemma sum_map_div {A : Type} (f : A -> R) (c : R) (l : list A) :
  sum (map (fun x => f x / c)%R l) = (sum (map f l) / c)%R.
Proof.
  induction l as [|x l IH]; simpl; rewrite ?sum_nil, ?sum_cons.
  - unfold Rdiv. lra.
  - rewrite IH. unfold Rdiv. lra.
Qed.

Lemma count_nil `{EqDecision A} (x : A) : count x [] = 0%Z.
Proof. reflexivity. Qed.

Lemma count_cons `{EqDecision A} (x y : A) (l : list A) :
  count x (y :: l) = ((if decide (y = x) then 1 else 0) + count x l)%Z.
Proof.
  unfold count, len. rewrite filter_cons.
  destruct (decide (y = x)); simpl length; lia.
Qed.

Lemma count_absent `{EqDecision A} (x : A) (l : list A) :
  x ∉ l -> count x l = 0%Z.
Proof.
  induction l as [|y l IH]; intros Hx; [done|].
  rewrite count_cons, IH by (intros ?; apply Hx; by right).
  rewrite decide_False; [done|]. intros ->. apply Hx. by left.
Qed.

(** Among distinct keys, exactly one is equal to a given member. *)
Lemma sum_indicator (keys : list string) (x : string) :
  NoDup keys -> x ∈ keys ->
  sum (map (fun k => IZR (if decide (x = k) then 1 else 0)) keys) = 1%R.
Proof.
  induction 1 as [|k keys Hk Hnd IH]; intros Hx.
  - by apply elem_of_nil in Hx.
  - simpl. rewrite sum_cons. destruct (decide (x = k)) as [->|Hne].
    + assert (sum (map (fun k0 => IZR (if decide (k = k0) then 1 else 0)) keys)
              = 0%R) as ->; [|lra].
      clear IH Hnd Hx. induction keys as [|k' keys IH]; [done|].
      simpl. rewrite sum_cons, IH by (intros ?; apply Hk; by right).
      rewrite decide_False; [lra|]. intros ->. apply Hk. by left.
    + apply elem_of_cons in Hx as [?|Hx]; [done|]. rewrite IH by done. lra.
Qed.

(** The counts of the distinct tokens of a document add up to its
    length. *)
Lemma sum_counts (keys document : list string) :
  NoDup keys -> (forall token, token ∈ document -> token ∈ keys) ->
  sum (map (fun k => IZR (count k document)) keys) = IZR (len document).
Proof.
  intros Hnd. induction document as [|x document IH]; intros Hsub.
  - transitivity (sum (map (fun _ => 0%R) keys)).
    + done.
    + change (IZR (len (@nil string))) with 0%R. clear.
      induction keys as [|k keys IH]; simpl; rewrite ?sum_nil, ?sum_cons; lra.
  - transitivity
      (sum (map (fun k => IZR (if decide (x = k) then 1 else 0)
                          + IZR (count k document))%R keys)).
    + f_equal. apply map_ext. intros k. by rewrite count_cons, plus_IZR.
    + rewrite sum_map_plus, sum_indicator, IH.
      * unfold len. simpl length. rewrite Nat2Z.inj_succ, succ_IZR. lra.
      * intros token Hin. apply Hsub. by right.
      * done.
      * apply Hsub. by left.
Qed.

(** The sum of the values of a dict filled key by key, on distinct keys. *)
Lemma sum_fold_store (f : string -> R) (keys : list string)
    (d : gmap string R) :
  NoDup keys -> (forall k, k ∈ keys -> d !! k = None) ->
  sum (map_to_list (fold_left (store (fun k => Some (f k))) keys d)).*2 =
  (sum (map_to_list d).*2 + sum (map f keys))%R.
Proof.
  intros Hnd. revert d. induction Hnd as [|k keys Hk Hnd IH]; intros d Hd.
  - simpl. rewrite sum_nil. lra.
  - cbn [fold_left]. rewrite IH.
    + unfold store. simpl map. rewrite sum_cons.
      rewrite (sum_perm _ _ (fmap_Permutation snd _ _
                 (map_to_list_insert d k (f k) (Hd k ltac:(by left))))).
      rewrite fmap_cons, sum_cons. cbn [snd]. lra.
    + intros k' Hk'. unfold store. rewrite lookup_insert_ne.
      * apply Hd. by right.
      * intros ->. done.
Qed.

End Sums.

(** ** Term frequency *)

Lemma len_positive {A : Type} (l : list A) : l <> [] -> (0 < len l)%Z.
Proof. unfold len. destruct l; [done|]. simpl length. lia. Qed.

Lemma calculate_tf_returns (vocab document_tokens : list string) :
  vocab <> [] -> document_tokens <> [] ->
  calculate_tf vocab document_tokens =
  Returned (Some (fold_left
    (store (fun token => Some (frequency document_tokens token)))
    (elements (list_to_set vocab ∪ list_to_set document_tokens
               : gset string)) ∅)).
Proof.
  intros Hv Hd. unfold calculate_tf.
  destruct vocab as [|v vocab']; [done|].
  pose proof (len_positive _ Hd) as Hpos.
  destruct document_tokens as [|t tokens] eqn:E; [done|].
  cbn [length Nat.eqb orb]. rewrite <- E in *.
  rewrite (for_each_returns _ _
    (store (fun token => Some (frequency document_tokens token))));
    [reflexivity|].
  intros d token _. unfold int_div.
  rewrite decide_False; [reflexivity|]. lia.
Qed.

(** C10: on a non-empty vocabulary and a non-empty document,
    [calculate_tf] returns a map over the tokens of the vocabulary and of
    the document, each with its count in the document divided by the
    length of the document, so 0 for a vocabulary term the document does
    not have, and the values of the map add up to exactly 1. *)
Theorem calculate_tf_sums_to_one (vocab document_tokens : list string) :
  vocab <> [] -> document_tokens <> [] ->
  exists tf_dict : gmap string R,
    calculate_tf vocab document_tokens = Returned (Some tf_dict) /\
    (forall token,
       tf_dict !! token =
       if decide (token ∈ vocab \/ token ∈ document_tokens)
       then Some (IZR (count token document_tokens)
                  / IZR (len document_tokens))%R
       else None) /\
    (forall token, token ∈ vocab -> token ∉ document_tokens ->
       tf_dict !! token = Some 0%R) /\
    sum (map_to_list tf_dict).*2 = 1%R.
Proof.
  intros Hv Hd. eexists. split; [by apply calculate_tf_returns|].
  set (keys := elements _).
  assert (forall token,
    token ∈ keys <-> token ∈ vocab \/ token ∈ document_tokens) as Hkeys.
  { intros token. unfold keys. rewrite elem_of_elements, elem_of_union.
    by rewrite !elem_of_list_to_set. }
  assert (forall token,
    fold_left (store (fun token => Some (frequency document_tokens token)))
      keys ∅ !! token =
    if decide (token ∈ vocab \/ token ∈ document_tokens)
    then Some (frequency document_tokens token) else None) as Hlookup.
  { intros token. rewrite fold_store_lookup, lookup_empty.
    destruct (decide (token ∈ keys)) as [Hin|Hnin].
    - rewrite decide_True; [done|]. by apply Hkeys.
    - rewrite decide_False; [done|]. by rewrite <- Hkeys. }
  split; [exact Hlookup|]. split.
  - intros token Hin Hnin. rewrite Hlookup, decide_True by (by left).
    unfold frequency. rewrite count_absent by done. f_equal.
    unfold Rdiv. lra.
  - rewrite sum_fold_store.
    + rewrite map_to_list_empty. simpl. rewrite sum_nil.
      unfold frequency.
      rewrite (sum_map_div (fun k => IZR (count k document_tokens))).
      rewrite sum_counts.
      * pose proof (len_positive _ Hd) as Hpos. apply IZR_lt in Hpos.
        field. lra.
      * apply NoDup_elements.
      * intros token Hin. apply Hkeys. by right.
    + apply NoDup_elements.
    + intros k _. apply lookup_empty.
Qed.

Lemma calculate_tf_sums_to_one_witness :
  exists tf_dict : gmap string R,
    calculate_tf ["cat"; "bird"] ["cat"; "dog"; "cat"] =
    Returned (Some tf_dict) /\
    tf_dict !! "bird" = Some 0%R /\
    sum (map_to_list tf_dict).*2 = 1%R.
Proof.
  destruct (calculate_tf_sums_to_one ["cat"; "bird"] ["cat"; "dog"; "cat"])
    as (tf_dict & Hret & _ & Hzero & Hsum); [discriminate | discriminate |].
  exists tf_dict. split; [exact Hret|]. split; [|exact Hsum].
  apply Hzero; [by right; left|]. intros Hin.
  repeat (apply elem_of_cons in Hin as [?|Hin]; [discriminate|]).
  by apply elem_of_nil in Hin.
Defined.

(** ** Inverse document frequency *)

Section Idf.

Lemma ln_monotone (x y : R) : (0 < x)%R -> (x <= y)%R -> (ln x <= ln y)%R.
Proof.
  intros Hx [Hlt| ->]; [|lra]. left. by apply ln_increasing.
Qed.

Lemma div_le_div (a b c d : R) :
  (0 < b)%R -> (0 < d)%R -> (a * d <= c * b)%R -> (a / b <= c / d)%R.
Proof.
  intros Hb Hd H.
  replace (a / b)%R with (a * d * / (b * d))%R by (field; lra).
  replace (c / d)%R with (c * b * / (b * d))%R by (field; lra).
  apply Rmult_le_compat_r; [|done].
  left. apply Rinv_0_lt_compat. nra.
Qed.

Lemma div_lt_1 (a b : R) : (0 < b)%R -> (a < b)%R -> (a / b < 1)%R.
Proof.
  intros Hb H. replace 1%R with (b * / b)%R by (field; lra).
  apply Rmult_lt_compat_r; [|done]. by apply Rinv_0_lt_compat.
Qed.

Lemma containing_bounds (token : string) (documents : list (list string)) :
  (0 <= containing token documents <= len documents)%Z.
Proof.
  unfold containing, len.
  pose proof (length_filter (fun d : list string => token ∈ d) documents).
  lia.
Qed.

Lemma containing_all (token : string) (documents : list (list string)) :
  (forall d, d ∈ documents -> token ∈ d) ->
  containing token documents = len documents.
Proof.
  intros Hall. unfold containing. f_equal.
  induction documents as [|d documents IH]; [done|].
  rewrite filter_cons_True by (apply Hall; by left).
  f_equal. apply IH. intros d' Hd'. apply Hall. by right.
Qed.

Lemma containing_none (token : string) (documents : list (list string)) :
  (forall d, d ∈ documents -> token ∉ d) ->
  containing token documents = 0%Z.
Proof.
  intros Hnone. unfold containing.
  assert (filter (fun d : list string => token ∈ d) documents = []) as ->;
    [|done].
  induction documents as [|d documents IH]; [done|].
  rewrite filter_cons_False by (apply Hnone; by left).
  apply IH. intros d' Hd'. apply Hnone. by right.
Qed.

Lemma idf_quotient_positive (N n : Z) :
  (0 <= n <= N)%Z -> (0 < (IZR (N - n) + 0.5) / (IZR n + 0.5))%R.
Proof.
  intros [H0 HN]. apply IZR_le in H0.
  assert (0 <= IZR (N - n))%R by (apply IZR_le; lia).
  apply Rdiv_lt_0_compat; lra.
Qed.

(** Found in every document of a non-empty corpus: a negative score. *)
Lemma idf_score_all (N : Z) : (0 < N)%Z -> (idf_score N N < 0)%R.
Proof.
  intros HN. unfold idf_score. rewrite Z.sub_diag.
  apply IZR_lt in HN.
  apply Rlt_le_trans with (ln 1); [|rewrite ln_1; lra].
  apply ln_increasing.
  - apply Rdiv_lt_0_compat; lra.
  - apply div_lt_1; lra.
Qed.

(** Found in no document: the greatest score for that number of
    documents. *)
Lemma idf_score_max (N n : Z) :
  (0 <= n <= N)%Z -> (idf_score N n <= idf_score N 0)%R.
Proof.
  intros Hn. unfold idf_score. apply ln_monotone.
  - by apply idf_quotient_positive.
  - destruct Hn as [H0 HN]. rewrite Z.sub_0_r, minus_IZR.
    apply IZR_le in H0, HN.
    apply div_le_div; [lra|lra|nra].
Qed.

Lemma calculate_idf_returns (vocab : list string)
    (documents : list (list string)) :
  vocab <> [] -> documents <> [] ->
  forallb Str.str_isalpha vocab = true ->
  forallb (forallb Str.str_isalpha) documents = true ->
  calculate_idf vocab documents =
  Returned (Some (fold_left
    (store (fun token =>
       Some (idf_score (len documents) (containing token documents))))
    vocab ∅)).
Proof.
  intros Hv Hd Hav Had. unfold calculate_idf. rewrite Hav, Had.
  destruct vocab as [|v vocab'] eqn:Ev; [done|].
  destruct documents as [|d documents'] eqn:Ed; [done|].
  cbn [length Nat.eqb orb negb]. rewrite <- Ev, <- Ed in *.
  rewrite (for_each_returns _ _
    (store (fun token =>
       Some (idf_score (len documents) (containing token documents)))));
    [reflexivity|].
  intros idf_dict token _.
  pose proof (containing_bounds token documents) as Hb.
  pose proof (idf_quotient_positive _ _ Hb) as Hq.
  unfold fdiv. rewrite decide_False.
  - cbn [mbind outcome_bind]. unfold math_log. rewrite decide_True by done.
    reflexivity.
  - destruct Hb as [Hb _]. apply IZR_le in Hb. lra.
Qed.

End Idf.

(** C5: on a non-empty alphabetic vocabulary and a non-empty alphabetic
    corpus, [calculate_idf] returns a map whose keys are the terms of the
    vocabulary; a term found in [n] of the [N] documents has the score
    [ln((N - n + 0.5) / (n + 0.5))], as it is, with no clamping: negative
    for a term of every document, and for a term of no document the
    greatest score that [N] documents allow. *)
Theorem calculate_idf_correct (vocab : list string)
    (documents : list (list string)) :
  vocab <> [] -> documents <> [] ->
  forallb Str.str_isalpha vocab = true ->
  forallb (forallb Str.str_isalpha) documents = true ->
  exists idf_dict : gmap string R,
    calculate_idf vocab documents = Returned (Some idf_dict) /\
    (forall token,
       idf_dict !! token =
       if decide (token ∈ vocab)
       then Some (idf_score (len documents) (containing token documents))
       else None) /\
    (forall token, token ∈ vocab ->
       (forall d, d ∈ documents -> token ∈ d) ->
       exists idf, idf_dict !! token = Some idf /\ (idf < 0)%R) /\
    (forall token, token ∈ vocab ->
       (forall d, d ∈ documents -> token ∉ d) ->
       exists idf,
         idf_dict !! token = Some idf /\
         idf = ln ((IZR (len documents) + 0.5) / 0.5) /\
         (forall n, (0 <= n <= len documents)%Z ->
            (idf_score (len documents) n <= idf)%R) /\
         (forall token' idf', idf_dict !! token' = Some idf' ->
            (idf' <= idf)%R)).
Proof.
  intros Hv Hd Hav Had. eexists.
  split; [by apply calculate_idf_returns|].
  set (idf_dict := fold_left _ vocab ∅).
  assert (forall token,
    idf_dict !! token =
    if decide (token ∈ vocab)
    then Some (idf_score (len documents) (containing token documents))
    else None) as Hlookup.
  { intros token. unfold idf_dict. rewrite fold_store_lookup, lookup_empty.
    by destruct (decide (token ∈ vocab)). }
  split; [exact Hlookup|]. split.
  - intros token Hin Hall. eexists. split.
    + by rewrite Hlookup, decide_True.
    + rewrite containing_all by done. apply idf_score_all.
      by apply len_positive.
  - intros token Hin Hnone. eexists. split; [|split; [|split]].
    + by rewrite Hlookup, decide_True.
    + rewrite containing_none by done. unfold idf_score.
      by rewrite Z.sub_0_r, Rplus_0_l.
    + intros n Hn. rewrite containing_none by done.
      by apply idf_score_max.
    + intros token' idf'. rewrite Hlookup. case_decide; [|done].
      intros [= <-]. rewrite (containing_none token) by done.
      apply idf_score_max, containing_bounds.
Qed.

Lemma calculate_idf_correct_witness :
  exists idf_dict : gmap string R,
    calculate_idf ["cat"; "owl"] [["cat"; "dog"]; ["cat"]]
    = Returned (Some idf_dict) /\
    (exists idf, idf_dict !! "cat" = Some idf /\ (idf < 0)%R) /\
    idf_dict !! "owl" = Some (ln ((IZR 2 + 0.5) / 0.5)) /\
    idf_dict !! "dog" = None.
Proof.
  destruct (calculate_idf_correct ["cat"; "owl"] [["cat"; "dog"]; ["cat"]])
    as (idf_dict & Hret & Hlookup & Hneg & Hmax);
    [discriminate | discriminate | reflexivity | reflexivity |].
  exists idf_dict. split; [exact Hret|]. split; [|split].
  - apply Hneg; [by left|]. intros d Hd.
    apply elem_of_cons in Hd as [->|Hd]; [by left|].
    apply elem_of_cons in Hd as [->|Hd]; [by left|].
    by apply elem_of_nil in Hd.
  - destruct (Hmax "owl") as (idf & Hidf & -> & _); [by right; left| |done].
    intros d Hd Hin.
    apply elem_of_cons in Hd as [->|Hd].
    { repeat (apply elem_of_cons in Hin as [?|Hin]; [discriminate|]).
      by apply elem_of_nil in Hin. }
    apply elem_of_cons in Hd as [->|Hd]; [|by apply elem_of_nil in Hd].
    repeat (apply elem_of_cons in Hin as [?|Hin]; [discriminate|]).
    by apply elem_of_nil in Hin.
  - rewrite Hlookup. apply decide_False. intros Hin.
    repeat (apply elem_of_cons in Hin as [?|Hin]; [discriminate|]).
    by apply elem_of_nil in Hin.
Defined.

(** ** Loops that raise *)

Section Raising.

Context {A S : Type}.

Lemma for_each_raised (items : list A) (body : S -> A -> outcome S)
    (s : S) (e : exception) (item : A) :
  item ∈ items ->
  (forall s', body s' item = Raised e) ->
  raises_only e body ->
  for_each items body s = Raised e.
Proof.
  intros Hin Hitem Honly. revert s.
  induction items as [|x items IH]; intros s.
  - by apply elem_of_nil in Hin.
  - cbn [for_each]. apply elem_of_cons in Hin as [<-|Hin].
    + by rewrite Hitem.
    + destruct (Honly s x) as [[s' ->]| ->]; [|done]. by apply IH.
Qed.

(** A loop stops at the first exception: when the body raises for an
    item of the list, the loop raises, with an exception of the body. *)
Lemma for_each_raises (P : exception -> Prop) (items : list A)
    (body : S -> A -> outcome S) (s : S) (item : A) :
  item ∈ items ->
  (forall s', exists e, P e /\ body s' item = Raised e) ->
  (forall s' x,
     (exists s'', body s' x = Returned s'') \/
     (exists e, P e /\ body s' x = Raised e)) ->
  exists e, P e /\ for_each items body s = Raised e.
Proof.
  intros Hin Hitem Hbody. revert s.
  induction items as [|x items IH]; intros s.
  - by apply elem_of_nil in Hin.
  - cbn [for_each]. apply elem_of_cons in Hin as [<-|Hin].
    + destruct (Hitem s) as (e & He & ->). by exists e.
    + destruct (Hbody s x) as [[s' ->]|(e & He & ->)]; [|by exists e].
      by apply IH.
Qed.

End Raising.

(** ** BM25 *)

Section Bm25.

Variables (document : list string) (idf_document : gmap string R).
Variables (k1 b avg_doc_len : R) (doc_len : Z).

#[local] Abbreviation bm25_defined :=
  (bm25_defined document k1 b avg_doc_len doc_len).
#[local] Abbreviation bm25_value :=
  (bm25_value document idf_document k1 b avg_doc_len doc_len).

Lemma bm25_token_count (token : string) :
  (if decide (token ∈ document) then (0 + count token document)%Z else 0%Z)
  = count token document.
Proof. case_decide; [lia|]. by rewrite count_absent. Qed.

Lemma bm25_step_returns (bm25_dict : gmap string R) (token : string) :
  (is_Some (idf_document !! token) -> bm25_defined token) ->
  bm25_step document idf_document k1 b (Some avg_doc_len) (Some doc_len)
    bm25_dict token =
  Returned (store (fun token => Some (bm25_value token)) bm25_dict token).
Proof.
  intros Hdef. unfold bm25_step, store, bm25_value.
  rewrite bm25_token_count.
  destruct (idf_document !! token) as [idf|]; [|done].
  destruct Hdef as [Havg Hden]; [done|].
  unfold fdiv. rewrite (decide_False (P := avg_doc_len = 0%R)) by done.
  cbn [mbind outcome_bind].
  rewrite decide_False by done. cbn [mbind outcome_bind mret outcome_ret].
  do 2 f_equal. unfold bm25_score, bm25_denominator, Rdiv. ring.
Qed.

Lemma bm25_step_raises (bm25_dict : gmap string R) (token : string) :
  is_Some (idf_document !! token) -> ~ bm25_defined token ->
  bm25_step document idf_document k1 b (Some avg_doc_len) (Some doc_len)
    bm25_dict token = Raised ZeroDivisionError.
Proof.
  intros [idf Hidf] Hundef. unfold bm25_step. rewrite Hidf.
  rewrite bm25_token_count. unfold fdiv.
  destruct (decide (avg_doc_len = 0%R)) as [|Havg]; [done|].
  cbn [mbind outcome_bind].
  rewrite decide_True; [done|].
  destruct (decide (bm25_denominator k1 b avg_doc_len doc_len
                      (count token document) = 0%R)) as [|Hden]; [done|].
  exfalso. by apply Hundef.
Qed.

Lemma bm25_step_raises_only :
  raises_only ZeroDivisionError
    (bm25_step document idf_document k1 b (Some avg_doc_len) (Some doc_len)).
Proof.
  intros bm25_dict token.
  destruct (idf_document !! token) as [idf|] eqn:Hidf.
  - destruct (decide (avg_doc_len = 0%R)) as [Havg|Havg].
    { right. apply bm25_step_raises; [by rewrite Hidf|]. by intros [? _]. }
    destruct (decide (bm25_denominator k1 b avg_doc_len doc_len
                        (count token document) = 0%R)) as [Hden|Hden].
    { right. apply bm25_step_raises; [by rewrite Hidf|]. by intros [_ ?]. }
    left. eexists. by apply bm25_step_returns.
  - left. eexists. apply bm25_step_returns. rewrite Hidf. by intros [? ?].
Qed.

(** With usual parameters the denominator is positive. *)
Lemma bm25_denominator_positive (token : string) :
  (0 < k1)%R -> (0 <= b < 1)%R -> (0 < avg_doc_len)%R -> (0 <= doc_len)%Z ->
  bm25_defined token.
Proof.
  intros Hk1 Hb Havg Hlen. split; [lra|]. unfold bm25_denominator.
  assert (0 <= IZR (count token document))%R.
  { apply IZR_le. unfold count, len. lia. }
  assert (0 <= IZR doc_len / avg_doc_len)%R.
  { apply IZR_le in Hlen. apply Rmult_le_pos; [lra|].
    left. by apply Rinv_0_lt_compat. }
  assert (0 <= b * (IZR doc_len / avg_doc_len))%R
    by (apply Rmult_le_pos; lra).
  assert (0 < k1 * (1 - b + b * (IZR doc_len / avg_doc_len)))%R
    by (apply Rmult_lt_0_compat; lra).
  lra.
Qed.

End Bm25.

Section CalculateBm25.

Variables (vocab document : list string) (idf_document : gmap string R).
Variables (k1 b avg_doc_len : R) (doc_len : Z).

#[local] Abbreviation tokens :=
  (@union (gset string) _ (list_to_set vocab) (list_to_set document)).

Lemma tokens_spec (token : string) :
  token ∈ elements tokens <-> token ∈ vocab \/ token ∈ document.
Proof.
  rewrite elem_of_elements, elem_of_union.
  by rewrite !elem_of_list_to_set.
Qed.

Lemma calculate_bm25_loop :
  vocab <> [] -> document <> [] -> idf_document <> ∅ ->
  calculate_bm25 vocab document idf_document k1 b
    (Some avg_doc_len) (Some doc_len) =
  (bm25_dict ← for_each (elements tokens)
     (bm25_step document idf_document k1 b (Some avg_doc_len) (Some doc_len))
     ∅;
   mret (Some bm25_dict)).
Proof.
  intros Hv Hd Hi. unfold calculate_bm25.
  destruct vocab as [|v vocab']; [done|].
  destruct document as [|t document']; [done|].
  apply map_size_non_empty_iff in Hi.
  destruct (size idf_document) as [|n] eqn:Hsize; [done|].
  rewrite !bool_decide_eq_true_2 by done. reflexivity.
Qed.

Lemma calculate_bm25_raises (token : string) :
  vocab <> [] -> document <> [] -> idf_document <> ∅ ->
  token ∈ vocab \/ token ∈ document ->
  is_Some (idf_document !! token) ->
  ~ bm25_defined document k1 b avg_doc_len doc_len token ->
  calculate_bm25 vocab document idf_document k1 b
    (Some avg_doc_len) (Some doc_len) = Raised ZeroDivisionError.
Proof.
  intros Hv Hd Hi Hin Hidf Hundef. rewrite calculate_bm25_loop by done.
  rewrite (for_each_raised _ _ _ ZeroDivisionError token); [done| | |].
  - by apply tokens_spec.
  - intros bm25_dict. by apply bm25_step_raises.
  - apply bm25_step_raises_only.
Qed.

(** With [avg_doc_len = 0.0] the call raises as soon as a token of the
    vocabulary or of the document has an IDF. *)
Lemma calculate_bm25_zero_average (token : string) :
  vocab <> [] -> document <> [] -> idf_document <> ∅ ->
  token ∈ vocab \/ token ∈ document ->
  is_Some (idf_document !! token) ->
  avg_doc_len = 0%R ->
  calculate_bm25 vocab document idf_document k1 b
    (Some avg_doc_len) (Some doc_len) = Raised ZeroDivisionError.
Proof.
  intros Hv Hd Hi Hin Hidf Havg.
  apply (calculate_bm25_raises token); [done..|]. by intros [? _].
Qed.

End CalculateBm25.

(** ** BM25 with cutoff *)

Section Cutoff.

Variables (vocab document : list string) (idf_document : gmap string R).
Variables (alpha k1 b avg_doc_len : R) (doc_len : Z).

#[local] Abbreviation cutoff_value :=
  (cutoff_value document idf_document alpha k1 b avg_doc_len doc_len).
#[local] Abbreviation kept := (kept idf_document alpha).

Lemma cutoff_step_skips (d : gmap string R) (word : string) :
  ~ kept word ->
  cutoff_step document idf_document alpha k1 b avg_doc_len doc_len d word
  = Returned d.
Proof.
  intros Hnot. unfold cutoff_step.
  destruct (idf_document !! word) as [idf|] eqn:Hidf; [|done].
  case_decide; [|done]. exfalso. apply Hnot. by exists idf.
Qed.

Lemma cutoff_value_skips (word : string) :
  ~ kept word -> cutoff_value word = None.
Proof.
  intros Hnot. unfold cutoff_value.
  destruct (idf_document !! word) as [idf|] eqn:Hidf; [|done].
  case_decide; [|done]. exfalso. apply Hnot. by exists idf.
Qed.

Lemma cutoff_step_returns (d : gmap string R) (word : string) :
  (kept word -> bm25_defined document k1 b avg_doc_len doc_len word) ->
  cutoff_step document idf_document alpha k1 b avg_doc_len doc_len d word
  = Returned (store cutoff_value d word).
Proof.
  intros Hdef. unfold cutoff_step, store, cutoff_value.
  destruct (idf_document !! word) as [idf|] eqn:Hidf; [|done].
  case_decide as Hge; [|done].
  destruct Hdef as [Havg Hden]; [by exists idf|].
  unfold fdiv. rewrite (decide_False (P := avg_doc_len = 0%R)) by done.
  cbn [mbind outcome_bind].
  assert ((IZR (count word document)
           + k1 * (1 - b + b * IZR doc_len / avg_doc_len))%R
          = bm25_denominator k1 b avg_doc_len doc_len (count word document))
    as -> by (unfold bm25_denominator, Rdiv; ring).
  rewrite decide_False by done. cbn [mbind outcome_bind mret outcome_ret].
  do 2 f_equal. unfold bm25_score, Rdiv. ring.
Qed.

Lemma cutoff_step_raises (d : gmap string R) (word : string) :
  kept word -> ~ bm25_defined document k1 b avg_doc_len doc_len word ->
  cutoff_step document idf_document alpha k1 b avg_doc_len doc_len d word
  = Raised ZeroDivisionError.
Proof.
  intros (idf & Hidf & Hge) Hundef. unfold cutoff_step. rewrite Hidf.
  rewrite decide_True by done. unfold fdiv.
  destruct (decide (avg_doc_len = 0%R)) as [|Havg]; [done|].
  cbn [mbind outcome_bind].
  rewrite decide_True; [done|].
  destruct (decide (bm25_denominator k1 b avg_doc_len doc_len
                      (count word document) = 0%R)) as [Hden|Hden].
  - rewrite <- Hden. unfold bm25_denominator, Rdiv. ring.
  - exfalso. by apply Hundef.
Qed.

Lemma cutoff_step_raises_only :
  raises_only ZeroDivisionError
    (cutoff_step document idf_document alpha k1 b avg_doc_len doc_len).
Proof.
  intros d word.
  destruct (idf_document !! word) as [idf|] eqn:Hidf;
    [destruct (decide (idf >= alpha)%R) as [Hge|Hlt]|].
  - assert (kept word) as Hkept by (by exists idf).
    destruct (decide (avg_doc_len = 0%R)) as [Havg|Havg].
    { right. apply cutoff_step_raises; [done|]. by intros [? _]. }
    destruct (decide (bm25_denominator k1 b avg_doc_len doc_len
                        (count word document) = 0%R)) as [Hden|Hden].
    { right. apply cutoff_step_raises; [done|]. by intros [_ ?]. }
    left. eexists. by apply cutoff_step_returns.
  - left. eexists. apply cutoff_step_skips.
    intros (idf' & Hidf' & Hge). congruence.
  - left. eexists. apply cutoff_step_skips.
    intros (idf' & Hidf' & Hge). congruence.
Qed.

Lemma calculate_bm25_with_cutoff_loop :
  vocab <> [] -> document <> [] -> idf_document <> ∅ -> (0 <= doc_len)%Z ->
  calculate_bm25_with_cutoff vocab document idf_document alpha k1 b
    (Some avg_doc_len) (Some doc_len) =
  (bm25_with_cutoff ← for_each vocab
     (cutoff_step document idf_document alpha k1 b avg_doc_len doc_len) ∅;
   mret (Some bm25_with_cutoff)).
Proof.
  intros Hv Hd Hi Hlen. unfold calculate_bm25_with_cutoff.
  destruct vocab as [|v vocab']; [done|].
  destruct document as [|t document']; [done|].
  apply map_size_non_empty_iff in Hi.
  destruct (size idf_document) as [|n] eqn:Hsize; [done|].
  cbn [length Nat.eqb orb].
  destruct (Z.ltb_spec doc_len 0); [lia|]. reflexivity.
Qed.

Lemma calculate_bm25_with_cutoff_returns :
  vocab <> [] -> document <> [] -> idf_document <> ∅ -> (0 <= doc_len)%Z ->
  (forall word, word ∈ vocab -> kept word ->
     bm25_defined document k1 b avg_doc_len doc_len word) ->
  calculate_bm25_with_cutoff vocab document idf_document alpha k1 b
    (Some avg_doc_len) (Some doc_len) =
  Returned (Some (fold_left (store cutoff_value) vocab ∅)).
Proof.
  intros Hv Hd Hi Hlen Hdef.
  rewrite calculate_bm25_with_cutoff_loop by done.
  rewrite (for_each_returns _ _ (store cutoff_value)); [reflexivity|].
  intros d word Hin. apply cutoff_step_returns. by apply Hdef.
Qed.

Lemma calculate_bm25_with_cutoff_raises (word : string) :
  vocab <> [] -> document <> [] -> idf_document <> ∅ -> (0 <= doc_len)%Z ->
  word ∈ vocab -> kept word ->
  ~ bm25_defined document k1 b avg_doc_len doc_len word ->
  calculate_bm25_with_cutoff vocab document idf_document alpha k1 b
    (Some avg_doc_len) (Some doc_len) = Raised ZeroDivisionError.
Proof.
  intros Hv Hd Hi Hlen Hin Hkept Hundef.
  rewrite calculate_bm25_with_cutoff_loop by done.
  rewrite (for_each_raised _ _ _ ZeroDivisionError word); [done|done| |].
  - intros d. by apply cutoff_step_raises.
  - apply cutoff_step_raises_only.
Qed.

End Cutoff.

(** ** BM25 in machine floats *)

Section Floats.

Lemma to_float_fits (z : Z) :
  Binary64.fits z = true -> Binary64.to_float z = Returned (Binary64.of_int z).
Proof. unfold Binary64.to_float. by intros ->. Qed.

Lemma to_float_overflow (z : Z) :
  Binary64.fits z = false -> Binary64.to_float z = Raised OverflowError.
Proof. unfold Binary64.to_float. by intros ->. Qed.

Lemma div_nonzero (x y : Binary64.float) :
  Binary64.is_zero y = false -> Binary64.div x y = Returned (x / y)%f64.
Proof. unfold Binary64.div. by intros ->. Qed.

Lemma div_zero (x y : Binary64.float) :
  Binary64.is_zero y = true -> Binary64.div x y = Raised ZeroDivisionError.
Proof. unfold Binary64.div. by intros ->. Qed.

Lemma SFcompare_antisym (x y : Binary64.float) (c : comparison) :
  SFcompare x y = Some c -> SFcompare y x = Some (CompOpp c).
Proof.
  destruct x as [sx|sx| |sx mx ex], y as [sy|sy| |sy my ey];
    cbn [SFcompare]; try discriminate;
    try (destruct sx; try destruct sy; intros [= <-]; reflexivity);
    try (destruct sy; intros [= <-]; reflexivity).
  destruct sx, sy; intros [= <-]; try reflexivity.
  - rewrite (Z.compare_antisym ex ey).
    destruct (ex ?= ey)%Z; cbn [CompOpp]; try reflexivity.
    by rewrite (Pos.compare_cont_antisym mx my Eq).
  - rewrite (Z.compare_antisym ex ey).
    destruct (ex ?= ey)%Z; cbn [CompOpp]; try reflexivity.
    by rewrite (Pos.compare_cont_antisym mx my Eq).
Qed.

(** [x < y] excludes [x >= y]. *)
Lemma ltb_not_geb (x y : Binary64.float) :
  Binary64.ltb x y = true -> Binary64.geb x y = false.
Proof.
  unfold Binary64.ltb, Binary64.geb, SFltb, SFleb.
  destruct (SFcompare x y) as [[| |]|] eqn:E; try discriminate.
  intros _. by rewrite (SFcompare_antisym _ _ _ E).
Qed.

(** A float that is not NaN is equal to itself. *)
Lemma eqb_refl (x : Binary64.float) :
  Binary64.is_nan x = false -> Binary64.eqb x x = true.
Proof.
  unfold Binary64.eqb, SFeqb.
  destruct x as [s|s| |s m e]; cbn [SFcompare Binary64.is_nan];
    try done; try (by destruct s).
  intros _. rewrite Z.compare_refl, Pos.compare_cont_refl. by destruct s.
Qed.

Lemma eqb_nan (x : Binary64.float) :
  Binary64.is_nan x = true -> Binary64.eqb x x = false.
Proof. by destruct x. Qed.

End Floats.

Section FloatBm25.

Variables (document : list string) (idf_document : gmap string Binary64.float).
Variables (k1 b avg_doc_len : Binary64.float) (doc_len : Z).

#[local] Abbreviation float_step :=
  (Binary64.bm25_step document idf_document k1 b
     (Some avg_doc_len) (Some doc_len)).
#[local] Abbreviation float_defined :=
  (Binary64.bm25_defined document k1 b avg_doc_len doc_len).
#[local] Abbreviation float_value :=
  (Binary64.bm25_value document idf_document k1 b avg_doc_len doc_len).

Lemma float_bm25_step_returns (bm25_dict : gmap string Binary64.number)
    (token : string) :
  (is_Some (idf_document !! token) -> float_defined token = true) ->
  float_step bm25_dict token =
  Returned (store (fun token => Some (float_value token)) bm25_dict token).
Proof.
  intros Hdef. unfold Binary64.bm25_step, store, Binary64.bm25_value.
  rewrite bm25_token_count.
  destruct (idf_document !! token) as [idf|]; [|done].
  specialize (Hdef ltac:(by eexists)). unfold Binary64.bm25_defined in Hdef.
  apply andb_prop in Hdef as [Hdef Hden].
  apply andb_prop in Hdef as [Hdef Havg].
  apply andb_prop in Hdef as [Hf Hl].
  apply negb_true_iff in Havg, Hden.
  unfold Binary64.rmul, Binary64.rdiv, Binary64.radd.
  rewrite (to_float_fits _ Hf), (to_float_fits _ Hl).
  cbn [mbind outcome_bind mret outcome_ret].
  rewrite (div_nonzero _ _ Havg). cbn [mbind outcome_bind].
  unfold Binary64.bm25_denominator in Hden.
  rewrite (div_nonzero _ _ Hden). reflexivity.
Qed.

Lemma float_bm25_step_raises (bm25_dict : gmap string Binary64.number)
    (token : string) :
  is_Some (idf_document !! token) -> float_defined token = false ->
  exists e, arithmetic_error e /\ float_step bm25_dict token = Raised e.
Proof.
  intros [idf Hidf] Hundef. unfold Binary64.bm25_step.
  rewrite Hidf, bm25_token_count.
  unfold Binary64.bm25_defined, Binary64.bm25_denominator in Hundef.
  unfold Binary64.rmul, Binary64.rdiv, Binary64.radd.
  destruct (Binary64.fits (count token document)) eqn:Hf.
  2: { rewrite (to_float_overflow _ Hf). exists OverflowError.
       split; [by right|done]. }
  rewrite (to_float_fits _ Hf). cbn [mbind outcome_bind mret outcome_ret].
  destruct (Binary64.fits doc_len) eqn:Hl.
  2: { rewrite (to_float_overflow _ Hl). exists OverflowError.
       split; [by right|done]. }
  rewrite (to_float_fits _ Hl). cbn [mbind outcome_bind].
  destruct (Binary64.is_zero avg_doc_len) eqn:Havg.
  { rewrite (div_zero _ _ Havg). exists ZeroDivisionError.
    split; [by left|done]. }
  rewrite (div_nonzero _ _ Havg). cbn [mbind outcome_bind].
  cbn [andb negb] in Hundef. apply negb_false_iff in Hundef.
  rewrite (div_zero _ _ Hundef). exists ZeroDivisionError.
  split; [by left|done].
Qed.

Lemma float_bm25_step_cases (bm25_dict : gmap string Binary64.number)
    (token : string) :
  (exists bm25_dict', float_step bm25_dict token = Returned bm25_dict') \/
  (exists e, arithmetic_error e /\ float_step bm25_dict token = Raised e).
Proof.
  destruct (idf_document !! token) as [idf|] eqn:Hidf.
  - destruct (float_defined token) eqn:Hdef.
    + left. eexists. by apply float_bm25_step_returns.
    + right. apply float_bm25_step_raises; [|done]. by rewrite Hidf.
  - left. eexists. apply float_bm25_step_returns. rewrite Hidf. by intros [].
Qed.

End FloatBm25.

Section FloatCalculateBm25.

Variables (vocab document : list string).
Variables (idf_document : gmap string Binary64.float).
Variables (k1 b avg_doc_len : Binary64.float) (doc_len : Z).

#[local] Abbreviation float_tokens :=
  (@union (gset string) _ (list_to_set vocab) (list_to_set document)).
#[local] Abbreviation float_call :=
  (Binary64.calculate_bm25 vocab document idf_document k1 b
     (Some avg_doc_len) (Some doc_len)).
#[local] Abbreviation float_scores :=
  (fold_left
     (store (fun token =>
        Some (Binary64.bm25_value document idf_document k1 b avg_doc_len
                doc_len token)))
     (elements float_tokens) ∅).

Lemma float_calculate_bm25_loop :
  vocab <> [] -> document <> [] -> idf_document <> ∅ ->
  float_call =
  (bm25_dict ← for_each (elements float_tokens)
     (Binary64.bm25_step document idf_document k1 b
        (Some avg_doc_len) (Some doc_len)) ∅;
   mret (Some bm25_dict)).
Proof.
  intros Hv Hd Hi. unfold Binary64.calculate_bm25.
  destruct vocab as [|v vocab']; [done|].
  destruct document as [|t document']; [done|].
  apply map_size_non_empty_iff in Hi.
  destruct (size idf_document) as [|n] eqn:Hsize; [done|].
  rewrite !bool_decide_eq_true_2 by done. reflexivity.
Qed.

Lemma float_calculate_bm25_bad_input (avg : option Binary64.float)
    (len_doc : option Z) :
  vocab = [] \/ document = [] \/ idf_document = ∅ \/
  avg = None \/ len_doc = None ->
  Binary64.calculate_bm25 vocab document idf_document k1 b avg len_doc
  = Returned None.
Proof.
  unfold Binary64.calculate_bm25. intros [->|[->|[->|[->| ->]]]].
  - done.
  - by destruct vocab.
  - rewrite map_size_empty. cbn [Nat.eqb]. by rewrite !orb_true_r.
  - cbn [bool_decide]. rewrite bool_decide_eq_false_2 by (by intros []).
    cbn [negb]. by rewrite !orb_true_r.
  - rewrite (bool_decide_eq_false_2 (is_Some None)) by (by intros []).
    cbn [negb]. by rewrite !orb_true_r.
Qed.

Lemma float_calculate_bm25_returns :
  vocab <> [] -> document <> [] -> idf_document <> ∅ ->
  (forall token, token ∈ vocab \/ token ∈ document ->
     is_Some (idf_document !! token) ->
     Binary64.bm25_defined document k1 b avg_doc_len doc_len token = true) ->
  float_call = Returned (Some float_scores).
Proof.
  intros Hv Hd Hi Hdef. rewrite float_calculate_bm25_loop by done.
  rewrite (for_each_returns _ _
    (store (fun token =>
       Some (Binary64.bm25_value document idf_document k1 b avg_doc_len
               doc_len token)))); [reflexivity|].
  intros bm25_dict token Hin. apply float_bm25_step_returns.
  apply Hdef. by apply tokens_spec.
Qed.

Lemma float_calculate_bm25_raises (token : string) :
  vocab <> [] -> document <> [] -> idf_document <> ∅ ->
  token ∈ vocab \/ token ∈ document ->
  is_Some (idf_document !! token) ->
  Binary64.bm25_defined document k1 b avg_doc_len doc_len token = false ->
  exists e, arithmetic_error e /\ float_call = Raised e.
Proof.
  intros Hv Hd Hi Hin Hidf Hundef. rewrite float_calculate_bm25_loop by done.
  destruct (for_each_raises arithmetic_error (elements float_tokens)
    (Binary64.bm25_step document idf_document k1 b
       (Some avg_doc_len) (Some doc_len)) ∅ token) as (e & He & Hloop).
  - by apply tokens_spec.
  - intros bm25_dict. by apply float_bm25_step_raises.
  - intros bm25_dict token'. apply float_bm25_step_cases.
  - exists e. split; [done|]. by rewrite Hloop.
Qed.

Lemma float_scores_lookup (token : string) :
  float_scores !! token =
  if decide (token ∈ vocab \/ token ∈ document)
  then Some (Binary64.bm25_value document idf_document k1 b avg_doc_len
               doc_len token)
  else None.
Proof.
  rewrite fold_store_lookup, lookup_empty.
  destruct (decide (token ∈ elements float_tokens)) as [Hin|Hnin].
  - rewrite decide_True; [done|]. by apply tokens_spec.
  - rewrite decide_False; [done|]. by rewrite <- tokens_spec.
Qed.

(** The call raises, or every token with an IDF has a value and the call
    returns the map of the values. *)
Lemma float_calculate_bm25_cases :
  vocab <> [] -> document <> [] -> idf_document <> ∅ ->
  (exists token e,
     (token ∈ vocab \/ token ∈ document) /\
     is_Some (idf_document !! token) /\
     Binary64.bm25_defined document k1 b avg_doc_len doc_len token = false /\
     arithmetic_error e /\ float_call = Raised e) \/
  ((forall token, token ∈ vocab \/ token ∈ document ->
      is_Some (idf_document !! token) ->
      Binary64.bm25_defined document k1 b avg_doc_len doc_len token = true) /\
   float_call = Returned (Some float_scores)).
Proof.
  intros Hv Hd Hi.
  set (fine := fun token : string =>
    is_Some (idf_document !! token) ->
    Binary64.bm25_defined document k1 b avg_doc_len doc_len token = true).
  destruct (Forall_Exists_dec fine (fun token => ~ fine token)
    (fun token => decide (fine token)) (elements float_tokens))
    as [Hall|Hex].
  - right. rewrite Forall_forall in Hall.
    assert (forall token, token ∈ vocab \/ token ∈ document ->
      is_Some (idf_document !! token) ->
      Binary64.bm25_defined document k1 b avg_doc_len doc_len token = true)
      as Hdef.
    { intros token Hin. apply Hall. by apply tokens_spec. }
    split; [done|]. by apply float_calculate_bm25_returns.
  - left. apply Exists_exists in Hex as (token & Hin & Hundef).
    apply tokens_spec in Hin.
    assert (is_Some (idf_document !! token)) as Hidf.
    { destruct (idf_document !! token) eqn:E; [by eexists|].
      exfalso. apply Hundef. unfold fine. rewrite E. by intros []. }
    assert (Binary64.bm25_defined document k1 b avg_doc_len doc_len token
            = false) as Hnot.
    { destruct (Binary64.bm25_defined _ _ _ _ _ token) eqn:E; [|done].
      exfalso. apply Hundef. by intros _. }
    destruct (float_calculate_bm25_raises token) as (e & He & Hcall);
      [done..|].
    by exists token, e.
Qed.

(** A call that returns a map filled it with the values of the formula. *)
Lemma float_calculate_bm25_returned (bm25_dict : gmap string Binary64.number) :
  float_call = Returned (Some bm25_dict) ->
  vocab <> [] /\ document <> [] /\ idf_document <> ∅ /\
  bm25_dict = float_scores /\
  forall token, token ∈ vocab \/ token ∈ document ->
    is_Some (idf_document !! token) ->
    Binary64.bm25_defined document k1 b avg_doc_len doc_len token = true.
Proof.
  intros Hret.
  assert (vocab <> [] /\ document <> [] /\ idf_document <> ∅)
    as (Hv & Hd & Hi).
  { unfold Binary64.calculate_bm25 in Hret.
    destruct vocab as [|v vocab']; [done|].
    destruct document as [|t document']; [done|].
    destruct (size idf_document) as [|n] eqn:Hsize; [done|].
    repeat split; try done. apply map_size_non_empty_iff. lia. }
  split; [done|]. split; [done|]. split; [done|].
  destruct (float_calculate_bm25_cases Hv Hd Hi)
    as [(token & e & _ & _ & _ & _ & Hcall)|[Hdef Hcall]];
    rewrite Hcall in Hret; [done|].
  injection Hret as <-. by split.
Qed.

End FloatCalculateBm25.

(** C3, as the code has it: on a non-empty vocabulary, document and IDF
    map, and when the formula has a value for every token with an IDF
    (its count and [doc_len] are not too large for a float, [avg_doc_len]
    is not zero and the denominator, as the floats give it, is not zero),
    [calculate_bm25] returns a map whose keys are the tokens of the
    vocabulary and of the document; a token with an IDF has the score
    [idf * ((f * (k1 + 1)) / (f + k1 * (1 - b + b * (doc_len / avg_doc_len))))],
    every operation rounded, [f] its count in the document, and a token
    without one has the [int] 0. *)
Theorem calculate_bm25_correct (vocab document : list string)
    (idf_document : gmap string Binary64.float)
    (k1 b avg_doc_len : Binary64.float) (doc_len : Z) :
  vocab <> [] -> document <> [] -> idf_document <> ∅ ->
  (forall token, token ∈ vocab \/ token ∈ document ->
     is_Some (idf_document !! token) ->
     Binary64.fits (count token document) = true /\
     Binary64.fits doc_len = true /\
     Binary64.is_zero avg_doc_len = false /\
     Binary64.is_zero
       (Binary64.bm25_denominator k1 b avg_doc_len doc_len
          (count token document)) = false) ->
  exists bm25_dict : gmap string Binary64.number,
    Binary64.calculate_bm25 vocab document idf_document k1 b
      (Some avg_doc_len) (Some doc_len) = Returned (Some bm25_dict) /\
    dom bm25_dict = list_to_set vocab ∪ list_to_set document /\
    (forall token idf, token ∈ vocab \/ token ∈ document ->
       idf_document !! token = Some idf ->
       let f := Binary64.of_int (count token document) in
       let l := Binary64.of_int doc_len in
       bm25_dict !! token =
       Some (Binary64.Float
               (idf * ((f * (k1 + Binary64.one))
                       / (f + k1 * (Binary64.one - b
                                    + b * (l / avg_doc_len)))))%f64)) /\
    (forall token, token ∈ vocab \/ token ∈ document ->
       idf_document !! token = None ->
       bm25_dict !! token = Some (Binary64.Int 0)).
Proof.
  intros Hv Hd Hi Hdef. eexists. split.
  { apply float_calculate_bm25_returns; [done..|]. intros token Hin Hidf.
    destruct (Hdef token Hin Hidf) as (Hf & Hl & Havg & Hden).
    unfold Binary64.bm25_defined. by rewrite Hf, Hl, Havg, Hden. }
  split; [|split].
  - apply set_eq. intros token.
    rewrite elem_of_dom, float_scores_lookup, elem_of_union.
    rewrite !elem_of_list_to_set.
    case_decide; [|by split; [intros []|]]. split; [done|]. by eexists.
  - intros token idf Hin Hidf f l.
    rewrite float_scores_lookup, decide_True by done.
    unfold Binary64.bm25_value. by rewrite Hidf.
  - intros token Hin Hidf. rewrite float_scores_lookup, decide_True by done.
    unfold Binary64.bm25_value. by rewrite Hidf.
Qed.

Lemma calculate_bm25_correct_witness :
  exists bm25_dict : gmap string Binary64.number,
    Binary64.calculate_bm25 ["cat"; "owl"] ["cat"; "dog"]
      (<["cat" := Binary64.dyadic 1 (-1)]> {["dog" := Binary64.of_int (-1)]})
      Binary64.default_k1 Binary64.default_b
      (Some (Binary64.of_int 2)) (Some 2%Z) = Returned (Some bm25_dict) /\
    dom bm25_dict = list_to_set ["cat"; "owl"] ∪ list_to_set ["cat"; "dog"] /\
    bm25_dict !! "cat" = Some (Binary64.Float (Binary64.dyadic 1 (-1))) /\
    bm25_dict !! "owl" = Some (Binary64.Int 0).
Proof.
  destruct (calculate_bm25_correct ["cat"; "owl"] ["cat"; "dog"]
              (<["cat" := Binary64.dyadic 1 (-1)]>
                 {["dog" := Binary64.of_int (-1)]})
              Binary64.default_k1 Binary64.default_b (Binary64.of_int 2) 2%Z)
    as (bm25_dict & Hret & Hdom & Hscore & Hzero).
  - discriminate.
  - discriminate.
  - apply insert_non_empty.
  - intros token Hin _.
    assert (token = "cat" \/ token = "owl" \/ token = "dog")
      as [->|[->| ->]]; [|by vm_compute..].
    destruct Hin as [Hin|Hin];
      repeat (apply elem_of_cons in Hin as [->|Hin]; [tauto|]);
      by apply elem_of_nil in Hin.
  - exists bm25_dict. split; [exact Hret|]. split; [exact Hdom|]. split.
    + rewrite (Hscore "cat" (Binary64.dyadic 1 (-1))); [|left; by left|done].
      by vm_compute.
    + apply Hzero; [left; by right; left|]. done.
Defined.

(** C3, as the claim has it, fails on inputs that pass the validation.
    With [k1 = 0.0] the vocabulary term "dog", absent from the document
    and with an IDF, has the quotient [0.0 / 0.0], and the call raises;
    so it does with [k1 = 2**-1074], which is not zero but makes a
    denominator that rounds to zero; with [avg_doc_len = 0.0]; and with
    [doc_len = 10**400], which is too large for a float. *)
Lemma calculate_bm25_undefined_formula :
  let idf_document : gmap string Binary64.float :=
    <["cat" := Binary64.dyadic 1 (-1)]> {["dog" := Binary64.of_int 1]} in
  Binary64.calculate_bm25 ["cat"; "dog"] ["cat"] idf_document
    (Binary64.of_int 0) Binary64.default_b
    (Some (Binary64.of_int 1)) (Some 1%Z) = Raised ZeroDivisionError /\
  Binary64.calculate_bm25 ["cat"; "dog"] ["cat"] idf_document
    (Binary64.dyadic 1 (-1074)) Binary64.default_b
    (Some (Binary64.of_int 1)) (Some 0%Z) = Raised ZeroDivisionError /\
  Binary64.calculate_bm25 ["cat"; "dog"] ["cat"] idf_document
    Binary64.default_k1 Binary64.default_b
    (Some (Binary64.of_int 0)) (Some 1%Z) = Raised ZeroDivisionError /\
  Binary64.calculate_bm25 ["cat"; "dog"] ["cat"] idf_document
    Binary64.default_k1 Binary64.default_b
    (Some (Binary64.of_int 1)) (Some (10 ^ 400)%Z) = Raised OverflowError.
Proof. by vm_compute. Qed.

(** ** BM25 with cutoff in machine floats *)

Section FloatCutoff.

Variables (vocab document : list string).
Variables (idf_document : gmap string Binary64.float).
Variables (alpha k1 b avg_doc_len : Binary64.float) (doc_len : Z).

#[local] Abbreviation float_cutoff_step :=
  (Binary64.cutoff_step document idf_document alpha k1 b avg_doc_len doc_len).
#[local] Abbreviation float_cutoff_defined :=
  (Binary64.cutoff_defined document k1 b avg_doc_len doc_len).
#[local] Abbreviation float_cutoff_value :=
  (Binary64.cutoff_value document idf_document alpha k1 b avg_doc_len
     doc_len).
#[local] Abbreviation float_kept := (Binary64.kept idf_document alpha).
#[local] Abbreviation float_cutoff_call :=
  (Binary64.calculate_bm25_with_cutoff vocab document idf_document alpha k1 b
     (Some avg_doc_len) (Some doc_len)).
#[local] Abbreviation float_cutoff_scores :=
  (fold_left (store float_cutoff_value) vocab ∅).

Lemma float_cutoff_step_skips (d : gmap string Binary64.float)
    (word : string) :
  float_kept word = false -> float_cutoff_step d word = Returned d.
Proof.
  unfold Binary64.kept, Binary64.cutoff_step.
  destruct (idf_document !! word) as [idf|]; [|done]. by intros ->.
Qed.

Lemma float_cutoff_step_returns (d : gmap string Binary64.float)
    (word : string) :
  (float_kept word = true -> float_cutoff_defined word = true) ->
  float_cutoff_step d word = Returned (store float_cutoff_value d word).
Proof.
  intros Hdef.
  unfold Binary64.cutoff_step, store, Binary64.cutoff_value.
  unfold Binary64.kept in Hdef.
  destruct (idf_document !! word) as [idf|]; [|done].
  destruct (Binary64.geb idf alpha); [|done].
  specialize (Hdef eq_refl). unfold Binary64.cutoff_defined in Hdef.
  apply andb_prop in Hdef as [Hdef Hden].
  apply andb_prop in Hdef as [Hdef Havg].
  apply andb_prop in Hdef as [Hf Hl].
  apply negb_true_iff in Havg, Hden.
  unfold Binary64.rmul, Binary64.mul_int, Binary64.radd.
  rewrite (to_float_fits _ Hf), (to_float_fits _ Hl).
  cbn [mbind outcome_bind mret outcome_ret].
  rewrite (div_nonzero _ _ Havg). cbn [mbind outcome_bind].
  unfold Binary64.cutoff_denominator in Hden.
  rewrite (div_nonzero _ _ Hden). reflexivity.
Qed.

Lemma float_cutoff_step_raises (d : gmap string Binary64.float)
    (word : string) :
  float_kept word = true -> float_cutoff_defined word = false ->
  exists e, arithmetic_error e /\ float_cutoff_step d word = Raised e.
Proof.
  unfold Binary64.kept, Binary64.cutoff_step.
  destruct (idf_document !! word) as [idf|]; [|done].
  intros -> Hundef.
  unfold Binary64.cutoff_defined, Binary64.cutoff_denominator in Hundef.
  unfold Binary64.rmul, Binary64.mul_int, Binary64.radd.
  destruct (Binary64.fits (count word document)) eqn:Hf.
  2: { rewrite (to_float_overflow _ Hf). exists OverflowError.
       split; [by right|done]. }
  rewrite (to_float_fits _ Hf). cbn [mbind outcome_bind mret outcome_ret].
  destruct (Binary64.fits doc_len) eqn:Hl.
  2: { rewrite (to_float_overflow _ Hl). exists OverflowError.
       split; [by right|done]. }
  rewrite (to_float_fits _ Hl). cbn [mbind outcome_bind mret outcome_ret].
  destruct (Binary64.is_zero avg_doc_len) eqn:Havg.
  { rewrite (div_zero _ _ Havg). exists ZeroDivisionError.
    split; [by left|done]. }
  rewrite (div_nonzero _ _ Havg). cbn [mbind outcome_bind].
  cbn [andb negb] in Hundef. apply negb_false_iff in Hundef.
  rewrite (div_zero _ _ Hundef). exists ZeroDivisionError.
  split; [by left|done].
Qed.

Lemma float_cutoff_step_cases (d : gmap string Binary64.float)
    (word : string) :
  (exists d', float_cutoff_step d word = Returned d') \/
  (exists e, arithmetic_error e /\ float_cutoff_step d word = Raised e).
Proof.
  destruct (float_kept word) eqn:Hkept.
  - destruct (float_cutoff_defined word) eqn:Hdef.
    + left. eexists. by apply float_cutoff_step_returns.
    + right. by apply float_cutoff_step_raises.
  - left. eexists. by apply float_cutoff_step_skips.
Qed.

Lemma float_cutoff_bad_input (avg : option Binary64.float)
    (len_doc : option Z) :
  vocab = [] \/ document = [] \/ idf_document = ∅ \/
  avg = None \/ len_doc = None \/
  (exists n, len_doc = Some n /\ (n < 0)%Z) ->
  Binary64.calculate_bm25_with_cutoff vocab document idf_document alpha k1 b
    avg len_doc = Returned None.
Proof.
  intros Hbad. unfold Binary64.calculate_bm25_with_cutoff.
  destruct vocab as [|v vocab']; [done|].
  destruct document as [|t document']; [done|].
  cbn [length Nat.eqb orb].
  destruct (size idf_document) as [|n] eqn:Hsize; [done|]. cbn [Nat.eqb].
  destruct avg as [avg|]; [|done].
  destruct len_doc as [len_doc|]; [|done].
  destruct (Z.ltb_spec len_doc 0); [done|]. exfalso.
  destruct Hbad as [?|[?|[Hi|[?|[?|(d & [= <-] & ?)]]]]]; try done; [|lia].
  by rewrite Hi, map_size_empty in Hsize.
Qed.

Lemma float_cutoff_loop :
  vocab <> [] -> document <> [] -> idf_document <> ∅ -> (0 <= doc_len)%Z ->
  float_cutoff_call =
  (bm25_with_cutoff ← for_each vocab float_cutoff_step ∅;
   mret (Some bm25_with_cutoff)).
Proof.
  intros Hv Hd Hi Hlen. unfold Binary64.calculate_bm25_with_cutoff.
  destruct vocab as [|v vocab']; [done|].
  destruct document as [|t document']; [done|].
  apply map_size_non_empty_iff in Hi.
  destruct (size idf_document) as [|n] eqn:Hsize; [done|].
  cbn [length Nat.eqb orb].
  destruct (Z.ltb_spec doc_len 0); [lia|]. reflexivity.
Qed.

Lemma float_cutoff_returns :
  vocab <> [] -> document <> [] -> idf_document <> ∅ -> (0 <= doc_len)%Z ->
  (forall word, word ∈ vocab -> float_kept word = true ->
     float_cutoff_defined word = true) ->
  float_cutoff_call = Returned (Some float_cutoff_scores).
Proof.
  intros Hv Hd Hi Hlen Hdef. rewrite float_cutoff_loop by done.
  rewrite (for_each_returns _ _ (store float_cutoff_value)); [reflexivity|].
  intros d word Hin. apply float_cutoff_step_returns. by apply Hdef.
Qed.

Lemma float_cutoff_raises (word : string) :
  vocab <> [] -> document <> [] -> idf_document <> ∅ -> (0 <= doc_len)%Z ->
  word ∈ vocab -> float_kept word = true ->
  float_cutoff_defined word = false ->
  exists e, arithmetic_error e /\ float_cutoff_call = Raised e.
Proof.
  intros Hv Hd Hi Hlen Hin Hkept Hundef. rewrite float_cutoff_loop by done.
  destruct (for_each_raises arithmetic_error vocab float_cutoff_step ∅ word)
    as (e & He & Hloop).
  - done.
  - intros d. by apply float_cutoff_step_raises.
  - intros d word'. apply float_cutoff_step_cases.
  - exists e. split; [done|]. by rewrite Hloop.
Qed.

Lemma float_cutoff_scores_lookup (word : string) :
  float_cutoff_scores !! word =
  if decide (word ∈ vocab) then float_cutoff_value word else None.
Proof.
  rewrite fold_store_lookup, lookup_empty.
  case_decide; [|done]. by destruct (float_cutoff_value word).
Qed.

Lemma float_cutoff_cases :
  vocab <> [] -> document <> [] -> idf_document <> ∅ -> (0 <= doc_len)%Z ->
  (exists word e,
     word ∈ vocab /\ float_kept word = true /\
     float_cutoff_defined word = false /\
     arithmetic_error e /\ float_cutoff_call = Raised e) \/
  ((forall word, word ∈ vocab -> float_kept word = true ->
      float_cutoff_defined word = true) /\
   float_cutoff_call = Returned (Some float_cutoff_scores)).
Proof.
  intros Hv Hd Hi Hlen.
  set (fine := fun word : string =>
    float_kept word = true -> float_cutoff_defined word = true).
  destruct (Forall_Exists_dec fine (fun word => ~ fine word)
    (fun word => decide (fine word)) vocab) as [Hall|Hex].
  - right. rewrite Forall_forall in Hall. split; [done|].
    by apply float_cutoff_returns.
  - left. apply Exists_exists in Hex as (word & Hin & Hundef).
    assert (float_kept word = true) as Hkept.
    { destruct (float_kept word) eqn:E; [done|].
      exfalso. apply Hundef. unfold fine. by rewrite E. }
    assert (float_cutoff_defined word = false) as Hnot.
    { destruct (float_cutoff_defined word) eqn:E; [|done].
      exfalso. apply Hundef. by intros _. }
    destruct (float_cutoff_raises word) as (e & He & Hcall); [done..|].
    by exists word, e.
Qed.

End FloatCutoff.

(** C4, as the code has it: on a non-empty vocabulary, document and IDF
    map and a [doc_len] that is not negative, and when the formula has a
    value for every term that passes the cutoff (its count and [doc_len]
    are not too large for a float, [avg_doc_len] is not zero and the
    denominator, as the floats give it, is not zero),
    [calculate_bm25_with_cutoff] returns a map whose keys are the terms of
    the vocabulary with an IDF [>= alpha], each with the score
    [idf * ((f * (k1 + 1)) / (f + k1 * (1 - b + (b * doc_len) / avg_doc_len)))],
    every operation rounded.  That is the formula of [calculate_bm25] but
    for [(b * doc_len) / avg_doc_len], which [calculate_bm25] computes as
    [b * (doc_len / avg_doc_len)]: where the two round to one float, the
    score is the score in the map of [calculate_bm25], when that call
    returns one.  A term with an IDF below [alpha] is not a key at all,
    and the map is empty when [alpha] is above every IDF. *)
Theorem calculate_bm25_with_cutoff_correct (vocab document : list string)
    (idf_document : gmap string Binary64.float)
    (alpha k1 b avg_doc_len : Binary64.float) (doc_len : Z) :
  vocab <> [] -> document <> [] -> idf_document <> ∅ -> (0 <= doc_len)%Z ->
  (forall word idf, word ∈ vocab -> idf_document !! word = Some idf ->
     Binary64.geb idf alpha = true ->
     Binary64.fits (count word document) = true /\
     Binary64.fits doc_len = true /\
     Binary64.is_zero avg_doc_len = false /\
     Binary64.is_zero
       (Binary64.cutoff_denominator k1 b avg_doc_len doc_len
          (count word document)) = false) ->
  let l := Binary64.of_int doc_len in
  exists bm25_with_cutoff : gmap string Binary64.float,
    Binary64.calculate_bm25_with_cutoff vocab document idf_document alpha k1 b
      (Some avg_doc_len) (Some doc_len) = Returned (Some bm25_with_cutoff) /\
    (forall word,
       word ∈ dom bm25_with_cutoff <->
       word ∈ vocab /\
       exists idf,
         idf_document !! word = Some idf /\ Binary64.geb idf alpha = true) /\
    (forall word idf, word ∈ vocab -> idf_document !! word = Some idf ->
       Binary64.geb idf alpha = true ->
       let f := Binary64.of_int (count word document) in
       bm25_with_cutoff !! word =
       Some (idf * ((f * (k1 + Binary64.one))
                    / (f + k1 * (Binary64.one - b
                                 + (b * l) / avg_doc_len))))%f64) /\
    (forall bm25_dict word,
       Binary64.calculate_bm25 vocab document idf_document k1 b
         (Some avg_doc_len) (Some doc_len) = Returned (Some bm25_dict) ->
       word ∈ dom bm25_with_cutoff ->
       (b * (l / avg_doc_len) = (b * l) / avg_doc_len)%f64 ->
       bm25_dict !! word = Binary64.Float <$> bm25_with_cutoff !! word) /\
    (forall word idf, idf_document !! word = Some idf ->
       Binary64.ltb idf alpha = true -> bm25_with_cutoff !! word = None) /\
    ((forall word idf, idf_document !! word = Some idf ->
        Binary64.ltb idf alpha = true) ->
     bm25_with_cutoff = ∅).
Proof.
  intros Hv Hd Hi Hlen Hdef l. eexists. split.
  { apply float_cutoff_returns; [done..|]. intros word Hin Hkept.
    unfold Binary64.kept in Hkept.
    destruct (idf_document !! word) as [idf|] eqn:Hidf; [|done].
    destruct (Hdef word idf Hin Hidf Hkept) as (Hf & Hl & Havg & Hden).
    unfold Binary64.cutoff_defined. by rewrite Hf, Hl, Havg, Hden. }
  set (d := fold_left _ vocab ∅).
  assert (forall word,
    d !! word =
    if decide (word ∈ vocab)
    then Binary64.cutoff_value document idf_document alpha k1 b avg_doc_len
           doc_len word
    else None) as Hlookup by apply float_cutoff_scores_lookup.
  assert (forall word idf, idf_document !! word = Some idf ->
    Binary64.ltb idf alpha = true -> d !! word = None) as Hbelow.
  { intros word idf Hidf Hlt. rewrite Hlookup. case_decide; [|done].
    unfold Binary64.cutoff_value. by rewrite Hidf, (ltb_not_geb _ _ Hlt). }
  assert (forall word,
    word ∈ dom d <->
    word ∈ vocab /\
    exists idf,
      idf_document !! word = Some idf /\ Binary64.geb idf alpha = true)
    as Hdom.
  { intros word. rewrite elem_of_dom, Hlookup. unfold Binary64.cutoff_value.
    case_decide as Hin; [|split; [by intros []|by intros []]].
    destruct (idf_document !! word) as [idf|] eqn:Hidf.
    + destruct (Binary64.geb idf alpha) eqn:Hge.
      * split; [|by eexists]. intros _. split; [done|]. by exists idf.
      * split; [by intros []|]. intros (_ & idf' & [= <-] & Hge').
        congruence.
    + split; [by intros []|]. by intros (_ & idf' & [=] & _). }
  assert (forall word idf, word ∈ vocab -> idf_document !! word = Some idf ->
    Binary64.geb idf alpha = true ->
    d !! word = Some (Binary64.cutoff_score idf k1 b avg_doc_len doc_len
                        (count word document))) as Hscore.
  { intros word idf Hin Hidf Hge. rewrite Hlookup, decide_True by done.
    unfold Binary64.cutoff_value. by rewrite Hidf, Hge. }
  split; [exact Hdom|]. split; [exact Hscore|].
  split; [|split; [exact Hbelow|]].
  - intros bm25_dict word Hret (Hin & idf & Hidf & Hge)%Hdom Hround.
    rewrite (Hscore word idf) by done.
    apply float_calculate_bm25_returned in Hret as (_ & _ & _ & -> & _).
    rewrite float_scores_lookup, decide_True by (by left).
    unfold Binary64.bm25_value. rewrite Hidf. cbn [fmap option_fmap option_map].
    unfold Binary64.bm25_score, Binary64.cutoff_score.
    unfold Binary64.bm25_denominator, Binary64.cutoff_denominator.
    fold l. by rewrite Hround.
  - intros Habove. apply map_eq. intros word. rewrite lookup_empty, Hlookup.
    case_decide; [|done]. unfold Binary64.cutoff_value.
    destruct (idf_document !! word) as [idf|] eqn:Hidf; [|done].
    by rewrite (ltb_not_geb _ _ (Habove word idf Hidf)).
Qed.

Lemma calculate_bm25_with_cutoff_correct_witness :
  exists bm25_with_cutoff : gmap string Binary64.float,
    Binary64.calculate_bm25_with_cutoff ["cat"; "owl"; "dog"] ["cat"; "dog"]
      (<["cat" := Binary64.dyadic 1 (-1)]> {["dog" := Binary64.of_int (-1)]})
      (Binary64.dyadic 1 (-2)) Binary64.default_k1 Binary64.default_b
      (Some (Binary64.of_int 2)) (Some 2%Z)
    = Returned (Some bm25_with_cutoff) /\
    bm25_with_cutoff !! "cat" = Some (Binary64.dyadic 1 (-1)) /\
    bm25_with_cutoff !! "dog" = None.
Proof.
  destruct (calculate_bm25_with_cutoff_correct
              ["cat"; "owl"; "dog"] ["cat"; "dog"]
              (<["cat" := Binary64.dyadic 1 (-1)]>
                 {["dog" := Binary64.of_int (-1)]})
              (Binary64.dyadic 1 (-2)) Binary64.default_k1
              Binary64.default_b (Binary64.of_int 2) 2%Z)
    as (d & Hret & _ & Hscore & _ & Hbelow & _).
  - discriminate.
  - discriminate.
  - apply insert_non_empty.
  - lia.
  - intros word idf Hin _ _.
    repeat (apply elem_of_cons in Hin as [->|Hin]; [by vm_compute|]).
    by apply elem_of_nil in Hin.
  - exists d. split; [exact Hret|]. split.
    + rewrite (Hscore "cat" (Binary64.dyadic 1 (-1)));
        [by vm_compute|by left|done|by vm_compute].
    + by apply (Hbelow "dog" (Binary64.of_int (-1))); vm_compute.
Defined.

(** C4, as the claim has it, fails.  On inputs that pass the validation
    the call raises: with [k1 = 0.0] the vocabulary term "dog", absent
    from the document and above the cutoff, has the quotient [0.0 / 0.0];
    [doc_len = 10**400] is too large for a float.  And where both calls
    return, the score is not always the one of [calculate_bm25]: with
    [doc_len = 4] and [avg_doc_len = 5.0], [b * (doc_len / avg_doc_len)]
    and [(b * doc_len) / avg_doc_len] round to different floats, and the
    two scores of "cat" differ. *)
Lemma calculate_bm25_with_cutoff_undefined_formula :
  let idf_document : gmap string Binary64.float :=
    <["cat" := Binary64.dyadic 1 (-1)]> {["dog" := Binary64.of_int 1]} in
  Binary64.calculate_bm25_with_cutoff ["cat"; "dog"] ["cat"] idf_document
    (Binary64.of_int 0) (Binary64.of_int 0) Binary64.default_b
    (Some (Binary64.of_int 1)) (Some 1%Z) = Raised ZeroDivisionError /\
  Binary64.calculate_bm25_with_cutoff ["cat"; "dog"] ["cat"] idf_document
    (Binary64.of_int 0) Binary64.default_k1 Binary64.default_b
    (Some (Binary64.of_int 1)) (Some (10 ^ 400)%Z) = Raised OverflowError /\
  exists score score' : Binary64.float,
    Binary64.calculate_bm25 ["cat"] ["cat"] idf_document
      Binary64.default_k1 Binary64.default_b
      (Some (Binary64.of_int 5)) (Some 4%Z)
    = Returned (Some {["cat" := Binary64.Float score]}) /\
    Binary64.calculate_bm25_with_cutoff ["cat"] ["cat"] idf_document
      (Binary64.of_int 0) Binary64.default_k1 Binary64.default_b
      (Some (Binary64.of_int 5)) (Some 4%Z)
    = Returned (Some {["cat" := score']}) /\
    score <> score'.
Proof.
  split; [by vm_compute|]. split; [by vm_compute|].
  eexists _, _. split; [by vm_compute|]. split; [by vm_compute|].
  discriminate.
Qed.

(** ** Spearman's rank correlation *)

Section Spearman.

Lemma first_index_elem_of `{EqDecision A} (x : A) (l : list A) :
  x ∈ l -> is_Some (first_index x l).
Proof.
  induction l as [|y l IH]; intros Hin; [by apply elem_of_nil in Hin|].
  cbn [first_index]. case_decide as Hy; [by eexists|].
  apply elem_of_cons in Hin as [->|Hin]; [done|].
  destruct (IH Hin) as [i ->]. by eexists.
Qed.

Lemma index_of_elem_of `{EqDecision A} (x : A) (l : list A) :
  x ∈ l -> exists i, index_of x l = Returned i.
Proof.
  intros Hin. unfold index_of.
  destruct (first_index_elem_of x l Hin) as [i ->]. by eexists.
Qed.

Lemma for_each_total {A S : Type} (items : list A)
    (body : S -> A -> outcome S) (s : S) :
  (forall s' item, item ∈ items -> exists s'', body s' item = Returned s'') ->
  exists s', for_each items body s = Returned s'.
Proof.
  revert s. induction items as [|item items IH]; intros s Hbody.
  - by eexists.
  - cbn [for_each]. destruct (Hbody s item) as [s' ->]; [by left|].
    cbn [mbind outcome_bind]. apply IH.
    intros s'' item' Hin. apply Hbody. by right.
Qed.

Lemma spearman_loop_total (rank golden_rank : list Z) (s : Z) :
  exists rank_differences,
    for_each rank (spearman_step rank golden_rank) s =
    Returned rank_differences.
Proof.
  apply for_each_total. intros s' item Hin. unfold spearman_step.
  case_decide as Hg; [|by eexists].
  destruct (index_of_elem_of item golden_rank Hg) as [g ->].
  destruct (index_of_elem_of item rank Hin) as [r ->].
  by eexists.
Qed.

(** On rankings of one item the denominator [n * (n**2 - 1)] is 0. *)
Lemma calculate_spearman_singleton (item golden_item : Z) :
  calculate_spearman [item] [golden_item] = Raised ZeroDivisionError.
Proof.
  unfold calculate_spearman. cbn [bool_decide decide_rel].
  rewrite !bool_decide_eq_false_2 by discriminate.
  cbn [length Nat.eqb negb orb].
  destruct (spearman_loop_total [item] [golden_item] 0) as [d ->].
  reflexivity.
Qed.

(** On rankings of two items or more the call returns a number. *)
Lemma calculate_spearman_returns (rank golden_rank : list Z) :
  length rank = length golden_rank -> (2 <= length rank)%nat ->
  exists rho, calculate_spearman rank golden_rank = Returned (Some rho).
Proof.
  intros Hlen Hn. unfold calculate_spearman.
  rewrite !bool_decide_eq_false_2
    by (intros ->; simpl in *; lia).
  rewrite Hlen, Nat.eqb_refl. cbn [negb orb].
  destruct (spearman_loop_total rank golden_rank 0) as [d ->].
  cbn [mbind outcome_bind]. unfold int_div.
  rewrite decide_False; [by eexists|].
  unfold len. rewrite Z.pow_2_r. nia.
Qed.

End Spearman.

(** Evaluates the closed integers under [IZR]. *)
Ltac eval_ints :=
  repeat match goal with
  | |- context [IZR ?z] =>
      lazymatch z with
      | Z0 => fail
      | Zpos _ => fail
      | Zneg _ => fail
      | _ => let z' := eval vm_compute in z in change (IZR z) with (IZR z')
      end
  end.

(** The two rankings of the specification's examples. *)
Example calculate_spearman_same :
  calculate_spearman [1; 2; 3]%Z [1; 2; 3]%Z = Returned (Some 1%R).
Proof.
  unfold calculate_spearman.
  rewrite !bool_decide_eq_false_2 by discriminate.
  cbn [length Nat.eqb negb orb].
  change (for_each [1; 2; 3]%Z (spearman_step [1; 2; 3]%Z [1; 2; 3]%Z) 0%Z)
    with (Returned (A := Z) 0%Z).
  cbn [mbind outcome_bind]. unfold int_div.
  rewrite decide_False by (unfold len; simpl; lia).
  cbn [mbind outcome_bind mret outcome_ret]. do 2 f_equal.
  eval_ints. lra.
Qed.

Example calculate_spearman_reversed :
  calculate_spearman [3; 2; 1]%Z [1; 2; 3]%Z = Returned (Some (-1)%R).
Proof.
  unfold calculate_spearman.
  rewrite !bool_decide_eq_false_2 by discriminate.
  cbn [length Nat.eqb negb orb].
  change (for_each [3; 2; 1]%Z (spearman_step [3; 2; 1]%Z [1; 2; 3]%Z) 0%Z)
    with (Returned (A := Z) 8%Z).
  cbn [mbind outcome_bind]. unfold int_div.
  rewrite decide_False by (unfold len; simpl; lia).
  cbn [mbind outcome_bind mret outcome_ret]. do 2 f_equal.
  eval_ints. lra.
Qed.

(** C1: with rankings of one item [calculate_spearman] raises, and so does
    [calculate_bm25] with [avg_doc_len = 0.0]: neither returns a number, a
    map or [None]. *)
Theorem zero_division_escapes :
  (forall item golden_item,
     calculate_spearman [item] [golden_item] = Raised ZeroDivisionError) /\
  calculate_bm25 ["cat"] ["cat"] {["cat" := 1%R]} default_k1 default_b
    (Some 0%R) (Some 1%Z) = Raised ZeroDivisionError.
Proof.
  split; [apply calculate_spearman_singleton|].
  apply (calculate_bm25_zero_average _ _ _ _ _ _ _ "cat").
  - discriminate.
  - discriminate.
  - apply insert_non_empty.
  - left. by left.
  - rewrite lookup_singleton_eq. by eexists.
  - reflexivity.
Qed.

(** ** Saving and loading an index *)

Section Persistence.

Lemma load_members_lookup (members : list (string * Binary64.float))
    (d : gmap string Binary64.float) (key : string) :
  NoDup members.*1 ->
  fold_left (fun d member => <[member.1 := member.2]> d) members d !! key =
  match (list_to_map members : gmap string Binary64.float) !! key with
  | Some v => Some v
  | None => d !! key
  end.
Proof.
  revert d. induction members as [|[k v] members IH]; intros d Hnd.
  - change (list_to_map [] : gmap string Binary64.float)
      with (∅ : gmap string Binary64.float).
    by rewrite lookup_empty.
  - apply NoDup_cons in Hnd as [Hk Hnd]. cbn [fold_left fst snd].
    rewrite IH by done. cbn [list_to_map foldr uncurry].
    destruct (decide (k = key)) as [->|Hne].
    + rewrite (not_elem_of_list_to_map_1 _ _ Hk).
      by rewrite !lookup_insert_eq.
    + by rewrite !lookup_insert_ne.
Qed.

(** Reading back the members of a dict gives the dict. *)
Lemma load_object_items (d : gmap string Binary64.float) :
  load_object (map_to_list d) = d.
Proof.
  apply map_eq. intros key. unfold load_object.
  rewrite load_members_lookup by apply NoDup_fst_map_to_list.
  rewrite list_to_map_to_list, lookup_empty. by destruct (d !! key).
Qed.

Lemma load_dump (index : list (gmap string Binary64.float)) :
  load (dump index) = index.
Proof.
  unfold load, dump. induction index as [|d index IH]; [done|].
  cbn [map]. by rewrite load_object_items, IH.
Qed.

(** A dict is [==] to a copy of itself exactly when it has no NaN. *)
Lemma dict_eq_copy (d : gmap string Binary64.float) :
  dict_eq d d = true <->
  forall token score, d !! token = Some score -> Binary64.is_nan score = false.
Proof.
  unfold dict_eq. rewrite Nat.eqb_refl. cbn [andb].
  rewrite forallb_forall. split.
  - intros Hall token score Hscore.
    assert (In (token, score) (map_to_list d)) as Hin.
    { apply list_elem_of_In. by apply elem_of_map_to_list. }
    specialize (Hall _ Hin). cbn [fst snd] in Hall. rewrite Hscore in Hall.
    destruct (Binary64.is_nan score) eqn:Hnan; [|done].
    by rewrite (eqb_nan _ Hnan) in Hall.
  - intros Hfree [token score] Hin%list_elem_of_In%elem_of_map_to_list.
    cbn [fst snd]. rewrite Hin. apply eqb_refl. by apply (Hfree token).
Qed.

(** An index is [==] to a copy of itself exactly when it has no NaN. *)
Lemma index_eq_copy (index : list (gmap string Binary64.float)) :
  index_eq index index = true <-> nan_free index.
Proof.
  unfold nan_free. induction index as [|d index IH]; cbn [index_eq].
  - split; [|done]. by intros _ d token score ?%elem_of_nil.
  - rewrite andb_true_iff, dict_eq_copy, IH. split.
    + intros [Hd Hindex] d' token score [->|Hin]%elem_of_cons.
      * apply Hd.
      * by apply Hindex.
    + intros Hfree. split.
      * intros token score. apply Hfree. by left.
      * intros d' token score Hin. apply Hfree. by right.
Qed.

Lemma save_index_writes (index : list (gmap string Binary64.float))
    (file_path : string) (fs : filesystem) :
  index <> [] -> file_path <> "" -> refused fs file_path = None ->
  save_index index file_path fs =
  Returned {| files := <[file_path := dump index]> (files fs);
              refused := refused fs |}.
Proof.
  intros Hi Hp Hw. unfold save_index, write_file.
  destruct index as [|d index]; [done|]. cbn [length Nat.eqb].
  apply String.eqb_neq in Hp. by rewrite Hp, Hw.
Qed.

End Persistence.




(** ** Ranking *)

Section Ranking.

Lemma insert_desc_perm (x : Z * R) (l : list (Z * R)) :
  insert_desc x l ≡ₚ x :: l.
Proof.
  induction l as [|y l IH]; cbn [insert_desc]; [done|].
  case_decide; [|done]. rewrite IH. apply Permutation_swap.
Qed.

Lemma sorted_desc_perm (l : list (Z * R)) : sorted_desc l ≡ₚ l.
Proof.
  induction l as [|x l IH]; [done|].
  cbn [sorted_desc foldr]. rewrite insert_desc_perm. by f_equiv.
Qed.

Lemma insert_desc_sorted (x : Z * R) (l : list (Z * R)) :
  StronglySorted score_ge l -> StronglySorted score_ge (insert_desc x l).
Proof.
  induction 1 as [|y l Hl IH Hy]; cbn [insert_desc].
  - by repeat constructor.
  - case_decide as Hlt.
    + constructor; [done|]. rewrite insert_desc_perm.
      constructor; [|done]. unfold score_ge. lra.
    + constructor; [by constructor|].
      assert (score_ge x y) as Hxy by (unfold score_ge; lra).
      constructor; [done|].
      eapply Forall_impl; [exact Hy|]. unfold score_ge in *.
      intros z Hz. lra.
Qed.

Lemma sorted_desc_sorted (l : list (Z * R)) :
  StronglySorted score_ge (sorted_desc l).
Proof.
  induction l as [|x l IH]; [constructor|].
  cbn [sorted_desc foldr]. by apply insert_desc_sorted.
Qed.

Lemma insert_desc_stable (v : R) (x : Z * R) (l : list (Z * R)) :
  with_score v (insert_desc x l) = with_score v (x :: l).
Proof.
  unfold with_score. induction l as [|y l IH]; cbn [insert_desc]; [done|].
  case_decide as Hlt; [|done].
  rewrite (filter_cons _ y), IH, !(filter_cons _ x), !(filter_cons _ y).
  destruct (decide (y.2 = v)) as [Hy|Hy]; [|done].
  destruct (decide (x.2 = v)) as [Hx|Hx]; [lra|done].
Qed.

(** The sort keeps the pairs of one score in the order they came in. *)
Lemma sorted_desc_stable (v : R) (l : list (Z * R)) :
  with_score v (sorted_desc l) = with_score v l.
Proof.
  induction l as [|x l IH]; [done|].
  cbn [sorted_desc foldr]. rewrite insert_desc_stable.
  unfold with_score in *. rewrite !filter_cons. fold (sorted_desc l).
  by rewrite IH.
Qed.

Lemma first_index_middle `{EqDecision A} (x : A) (l1 l2 : list A) :
  x ∉ l1 -> first_index x (l1 ++ x :: l2) = Some (length l1).
Proof.
  induction l1 as [|y l1 IH]; intros Hx; cbn [app first_index length].
  - by rewrite decide_True.
  - rewrite decide_False by (intros ->; apply Hx; by left).
    rewrite IH; [done|]. intros Hin. apply Hx. by right.
Qed.

Lemma dict_set_fresh (k : Z) (v : R) (d : list (Z * R)) :
  (forall item, item ∈ d -> item.1 <> k) -> dict_set k v d = d ++ [(k, v)].
Proof.
  induction d as [|item d IH]; intros Hfresh; cbn [dict_set app]; [done|].
  rewrite decide_False by (apply Hfresh; by left).
  rewrite IH; [done|]. intros item' Hin. apply Hfresh. by right.
Qed.

Lemma document_scores_snoc (indexes : list (gmap string R))
    (d : gmap string R) (query : list string) :
  document_scores (indexes ++ [d]) query =
  document_scores indexes query
  ++ [(len indexes, query_score d query)].
Proof.
  unfold document_scores. rewrite imap_app. cbn [imap]. unfold len.
  by rewrite Nat.add_0_r.
Qed.

Lemma document_scores_keys (indexes : list (gmap string R))
    (query : list string) (item : Z * R) :
  item ∈ document_scores indexes query -> (0 <= item.1 < len indexes)%Z.
Proof.
  unfold document_scores. intros (i & d & -> & Hi)%elem_of_lookup_imap.
  apply lookup_lt_Some in Hi. cbn [fst]. unfold len. lia.
Qed.

(** One turn of the loop of [rank_documents] on a score map that did not
    come before: its pair is added after the others. *)
Lemma rank_step_fresh (seen rest : list (gmap string R)) (d : gmap string R)
    (query : list string) :
  d ∉ seen ->
  rank_step (seen ++ d :: rest) query (document_scores seen query) d
  = Returned (document_scores (seen ++ [d]) query).
Proof.
  intros Hfresh. unfold rank_step, index_of.
  rewrite first_index_middle by done.
  cbn [mbind outcome_bind mret outcome_ret].
  rewrite dict_set_fresh.
  - by rewrite document_scores_snoc.
  - intros item Hin%document_scores_keys. unfold len in *. lia.
Qed.

(** The loop of [rank_documents] on score maps that differ from one
    another: one pair for each, in the order of the corpus. *)
Lemma rank_loop_distinct (seen rest : list (gmap string R))
    (query : list string) :
  NoDup (seen ++ rest) ->
  for_each rest (rank_step (seen ++ rest) query) (document_scores seen query)
  = Returned (document_scores (seen ++ rest) query).
Proof.
  revert seen. induction rest as [|d rest IH]; intros seen Hnd.
  - by rewrite app_nil_r.
  - cbn [for_each].
    apply NoDup_app in Hnd as Hparts. destruct Hparts as (_ & Hfresh & _).
    rewrite rank_step_fresh
      by (intros Hin; apply (Hfresh d Hin); by left).
    cbn [mbind outcome_bind].
    replace (seen ++ d :: rest) with ((seen ++ [d]) ++ rest)
      by (by rewrite <- app_assoc).
    apply IH. by rewrite <- app_assoc.
Qed.

(** [rank_documents] on score maps that differ from one another. *)
Lemma rank_documents_distinct (indexes : list (gmap string R))
    (query : string) (stopwords tokenized_query processed_query : list string) :
  NoDup indexes -> indexes <> [] -> query <> "" -> stopwords <> [] ->
  tokenize query = Some tokenized_query ->
  remove_stopwords tokenized_query stopwords = Some processed_query ->
  rank_documents indexes query stopwords =
  Returned (Some (sorted_desc (document_scores indexes processed_query))).
Proof.
  intros Hnd Hi Hq Hs Htok Hrem. unfold rank_documents.
  rewrite !bool_decide_eq_false_2 by done.
  apply String.eqb_neq in Hq. rewrite Hq. cbn [orb].
  rewrite Htok, Hrem.
  change (@nil (Z * R)) with (document_scores [] processed_query).
  by rewrite (rank_loop_distinct [] indexes).
Qed.

(** On score maps that differ from one another the ranking has one pair
    [(i, sum)] for each document, by decreasing sum, and documents with
    one sum stay in the order of the corpus. *)
Lemma rank_documents_distinct_ranking (indexes : list (gmap string R))
    (query : string) (stopwords tokenized_query processed_query : list string) :
  NoDup indexes -> indexes <> [] -> query <> "" -> stopwords <> [] ->
  tokenize query = Some tokenized_query ->
  remove_stopwords tokenized_query stopwords = Some processed_query ->
  exists ranking,
    rank_documents indexes query stopwords = Returned (Some ranking) /\
    ranking ≡ₚ document_scores indexes processed_query /\
    StronglySorted score_ge ranking /\
    forall v,
      with_score v ranking =
      with_score v (document_scores indexes processed_query).
Proof.
  intros Hnd Hi Hq Hs Htok Hrem. eexists. split.
  - by apply (rank_documents_distinct _ _ _ tokenized_query processed_query).
  - split; [apply sorted_desc_perm|].
    split; [apply sorted_desc_sorted|]. intros v. apply sorted_desc_stable.
Qed.

End Ranking.

(** C2: on two equal score maps [rank_documents] returns one pair, for
    index 0, and none for index 1: [indexes.index] finds the first of the
    two both times. *)
Theorem rank_documents_equal_maps :
  rank_documents [ {["cat" := 1%R]}; {["cat" := 1%R]} ] "cat" ["the"]
  = Returned (Some [(0%Z, 1%R)]).
Proof.
  unfold rank_documents.
  rewrite !bool_decide_eq_false_2 by discriminate.
  change (tokenize "cat") with (Some ["cat"]). cbv beta iota.
  change (remove_stopwords ["cat"] ["the"]) with (Some ["cat"]).
  cbn [String.eqb Ascii.eqb orb for_each].
  unfold rank_step, index_of. cbn [first_index].
  rewrite !decide_True by done.
  cbn [mbind outcome_bind mret outcome_ret dict_set fst Z.of_nat].
  rewrite decide_True by done.
  unfold query_score. cbn [omap].
  cbn [list_omap]. rewrite lookup_singleton_eq.
  rewrite sum_cons, sum_nil, Rplus_0_r. reflexivity.
Qed.

(** The ranking of the specification's example: the second document
    first. *)
Example rank_documents_cat_dog :
  rank_documents
    [ <["cat" := 1%R]> {["dog" := 0.5%R]}; <["cat" := 0%R]> {["dog" := 2%R]} ]
    "cat dog" ["the"]
  = Returned (Some [(1%Z, 2%R); (0%Z, 1.5%R)]).
Proof.
  rewrite (rank_documents_distinct _ _ _ ["cat"; "dog"] ["cat"; "dog"]);
    [|repeat constructor|discriminate|discriminate|discriminate
     |reflexivity|reflexivity].
  - assert ((<["cat" := 1%R]> {["dog" := 0.5%R]} : gmap string R) !! "dog"
            = Some 0.5%R) as Hdog1
      by (by rewrite lookup_insert_ne, lookup_singleton_eq by discriminate).
    assert ((<["cat" := 0%R]> {["dog" := 2%R]} : gmap string R) !! "dog"
            = Some 2%R) as Hdog2
      by (by rewrite lookup_insert_ne, lookup_singleton_eq by discriminate).
    unfold document_scores, query_score. cbn [imap omap list_omap compose].
    rewrite Hdog1, Hdog2, !lookup_insert_eq.
    cbn [Z.of_nat Pos.of_succ_nat].
    rewrite !sum_cons, sum_nil.
    replace (1 + (0.5 + 0))%R with 1.5%R by lra.
    replace (0 + (2 + 0))%R with 2%R by lra.
    cbn [sorted_desc foldr insert_desc snd].
    rewrite decide_True by lra. reflexivity.
  - intros Hin. apply list_elem_of_singleton in Hin.
    apply (f_equal (fun d : gmap string R => d !! "cat")) in Hin.
    rewrite !lookup_insert_eq in Hin. injection Hin. lra.
  - apply not_elem_of_nil.
Qed.

(** * Further properties of the code *)

(** ** The tokens of [tokenize] *)

Section Tokens.

Lemma sforall_true (p : ascii -> bool) (s : string) :
  (forall c, p c = true) -> Str.sforall p s = true.
Proof. intros Hp. induction s as [|c s IH]; simpl; [done|]. by rewrite Hp. Qed.

Lemma sforall_impl (p q : ascii -> bool) (s : string) :
  (forall c, p c = true -> q c = true) ->
  Str.sforall p s = true -> Str.sforall q s = true.
Proof.
  intros Hpq. induction s as [|c s IH]; simpl; [done|].
  intros [Hc Hs]%andb_prop. by rewrite (Hpq c Hc), IH.
Qed.

Lemma sforall_snoc (p : ascii -> bool) (s : string) (c : ascii) :
  Str.sforall p (s ++ String c "")%string = Str.sforall p s && p c.
Proof.
  induction s as [|c' s IH]; simpl; [by rewrite andb_true_r|].
  by rewrite IH, andb_assoc.
Qed.

Lemma smap_fixed (f : ascii -> ascii) (s : string) :
  Str.sforall (fun c => Ascii.eqb (f c) c) s = true -> Str.smap f s = s.
Proof.
  induction s as [|c s IH]; simpl; [done|].
  intros [Hc Hs]%andb_prop. apply Ascii.eqb_eq in Hc. by rewrite Hc, IH.
Qed.

(** The words that [split] cuts keep a property of the characters that
    are not whitespace, and none is empty. *)
Lemma split_from_words (p : ascii -> bool) (word s : string) (token : string) :
  Str.sforall p word = true ->
  Str.sforall (fun c => Str.isspace c || p c) s = true ->
  token ∈ Str.split_from word s ->
  token <> "" /\ Str.sforall p token = true.
Proof.
  revert word. induction s as [|c s IH]; intros word Hword Hs; simpl.
  - destruct (String.eqb_spec word ""); [by intros ?%elem_of_nil|].
    by intros ->%list_elem_of_singleton.
  - simpl in Hs. apply andb_prop in Hs as [Hc Hs].
    destruct (Str.isspace c) eqn:Espace.
    + destruct (String.eqb_spec word "").
      * by apply IH.
      * intros [->|Hin]%elem_of_cons; [done|]. by apply (IH "").
    + apply IH; [|done]. rewrite sforall_snoc, Hword. by simpl in Hc.
Qed.

Lemma letter_or_space_kept (c : ascii) :
  Str.isalpha c || Ascii.eqb c space = true ->
  (if separator c then space else c) = c.
Proof. unfold separator. by intros ->. Qed.

Lemma tokenize_text (text : string) :
  text <> "" ->
  tokenize text =
  Some (Str.split (Str.lower
    (Str.smap (fun c => if separator c then space else c) text))).
Proof.
  intros Hne. unfold tokenize. destruct text as [|c s]; [done|].
  cbn [String.length Nat.ltb Nat.leb]. by rewrite tokenize_loop_text.
Qed.

End Tokens.

(** X1: no token that [tokenize] returns is empty, and none has a
    whitespace character. *)
Theorem tokenize_tokens_not_blank (text : string) (tokens : list string)
    (token : string) :
  tokenize text = Some tokens -> token ∈ tokens ->
  token <> "" /\ Str.sforall (fun c => negb (Str.isspace c)) token = true.
Proof.
  intros Htok Hin. destruct (String.eqb_spec text "") as [->|Hne]; [done|].
  rewrite tokenize_text in Htok by done. injection Htok as <-.
  apply (split_from_words (fun c => negb (Str.isspace c))) in Hin;
    [done|done|].
  apply sforall_true. intros c. apply orb_negb_r.
Qed.

Lemma tokenize_tokens_not_blank_witness :
  "dog" <> "" /\ Str.sforall (fun c => negb (Str.isspace c)) "dog" = true.
Proof.
  apply (tokenize_tokens_not_blank "The DOG,  2 cats " ["the"; "dog"; "cats"]);
    [reflexivity|]. by right; left.
Defined.

(** X2: on a text of letters and spaces the loop of [tokenize] rewrites
    nothing: the tokens are the words that [split] finds in the text, put
    in lower case. *)
Theorem tokenize_letters_and_spaces (text : string) :
  text <> "" ->
  Str.sforall (fun c => Str.isalpha c || Ascii.eqb c space) text = true ->
  tokenize text = Some (Str.split (Str.lower text)).
Proof.
  intros Hne Hall. rewrite tokenize_text by done.
  assert (Str.smap (fun c => if separator c then space else c) text = text)
    as ->; [|done].
  apply smap_fixed. eapply sforall_impl; [|exact Hall].
  intros c Hc. rewrite letter_or_space_kept by done. apply Ascii.eqb_refl.
Qed.

Lemma tokenize_letters_and_spaces_witness :
  tokenize "Cat  and Dog" = Some ["cat"; "and"; "dog"].
Proof.
  apply (tokenize_letters_and_spaces "Cat  and Dog");
    [discriminate | reflexivity].
Defined.

(** ** What the stopword filter keeps *)

Section Stopwords.

Lemma remove_stopwords_some (tokens stopwords result : list string) :
  remove_stopwords tokens stopwords = Some result ->
  tokens <> [] /\ stopwords <> [] /\
  result = filter (fun x => x ∉ stopwords) tokens.
Proof.
  unfold remove_stopwords.
  destruct tokens as [|t tokens]; [done|].
  destruct stopwords as [|w stopwords]; [done|].
  cbn [length Nat.eqb orb]. by intros [= <-].
Qed.

Lemma count_filter `{EqDecision A} (P : A -> Prop) `{!forall x, Decision (P x)}
    (x : A) (l : list A) :
  P x -> count x (filter P l) = count x l.
Proof.
  intros Hx. induction l as [|y l IH]; [done|].
  rewrite filter_cons. destruct (decide (P y)) as [Hy|Hy].
  - by rewrite !count_cons, IH.
  - rewrite count_cons, IH, decide_False; [done|]. by intros ->.
Qed.

End Stopwords.

(** X4: what [remove_stopwords] returns has no stopword, has every other
    token as often as the tokens had it, and keeps the order of the
    tokens. *)
Theorem remove_stopwords_keeps (tokens stopwords result : list string) :
  remove_stopwords tokens stopwords = Some result ->
  (forall token, token ∈ stopwords -> token ∉ result) /\
  (forall token, token ∉ stopwords ->
     count token result = count token tokens) /\
  result `sublist_of` tokens.
Proof.
  intros (_ & _ & ->)%remove_stopwords_some. split; [|split].
  - intros token Hstop [Hnot _]%list_elem_of_filter. done.
  - intros token Hnot. by apply (count_filter (fun x => x ∉ stopwords)).
  - apply sublist_filter.
Qed.

Lemma remove_stopwords_keeps_witness :
  count "cat" ["cat"; "dog"; "cat"] = count "cat" ["the"; "cat"; "dog"; "cat"].
Proof.
  destruct (remove_stopwords_keeps ["the"; "cat"; "dog"; "cat"] ["the"; "a"]
              ["cat"; "dog"; "cat"]) as (_ & Hcount & _); [by vm_compute|].
  apply Hcount. intros Hin.
  repeat (apply elem_of_cons in Hin as [?|Hin]; [discriminate|]).
  by apply elem_of_nil in Hin.
Defined.

(** X5: filtering a second time changes nothing, unless the first time
    left no token: then the second call has an empty list and returns
    [None]. *)
Theorem remove_stopwords_twice (tokens stopwords result : list string) :
  remove_stopwords tokens stopwords = Some result ->
  remove_stopwords result stopwords =
  if decide (result = []) then None else Some result.
Proof.
  intros (_ & Hs & ->)%remove_stopwords_some.
  set (result := filter _ tokens). unfold remove_stopwords.
  destruct (decide (result = [])) as [->|Hne]; [done|].
  destruct result as [|r result'] eqn:E; [done|].
  destruct stopwords as [|w stopwords']; [done|].
  cbn [length Nat.eqb orb]. f_equal. rewrite <- E. unfold result.
  rewrite list_filter_filter. apply list_filter_iff. tauto.
Qed.

Lemma remove_stopwords_twice_witness :
  remove_stopwords [] ["the"] = None /\
  remove_stopwords ["cat"] ["the"] = Some ["cat"].
Proof.
  split.
  - apply (remove_stopwords_twice ["the"] ["the"] []). by vm_compute.
  - apply (remove_stopwords_twice ["the"; "cat"] ["the"] ["cat"]).
    by vm_compute.
Defined.

(** ** The vocabulary *)

Section Vocabulary.

Lemma short_document_spec (documents : list (list string)) :
  forallb (fun document => (1 <? length document)%nat) documents = true <->
  forall document, document ∈ documents -> (1 < length document)%nat.
Proof.
  rewrite forallb_forall. split.
  - intros H d Hd%list_elem_of_In. by apply Nat.ltb_lt, H.
  - intros H d Hd%list_elem_of_In. by apply Nat.ltb_lt, H.
Qed.

Lemma short_document_exists (documents : list (list string)) :
  forallb (fun document => (1 <? length document)%nat) documents = false ->
  exists document, document ∈ documents /\ (length document <= 1)%nat.
Proof.
  induction documents as [|d documents IH]; [done|]. cbn [forallb].
  destruct (Nat.ltb_spec 1 (length d)) as [Hlong|Hshort]; cbn [andb].
  - intros (d' & Hd' & Hshort)%IH. exists d'. split; [by right|done].
  - intros _. exists d. split; [by left|done].
Qed.

Lemma vocabulary_words (documents : list (list string)) (word : string) :
  word ∈ (list_to_set (filter (fun word => word ≠ "") (concat documents))
          : gset string) <->
  word <> "" /\ exists document, document ∈ documents /\ word ∈ document.
Proof.
  rewrite elem_of_list_to_set, list_elem_of_filter, list_elem_of_In, in_concat.
  split.
  - intros (Hne & d & Hd & Hw). split; [done|]. exists d.
    by rewrite !list_elem_of_In.
  - intros (Hne & d & Hd & Hw). split; [done|]. exists d.
    by rewrite <- !list_elem_of_In.
Qed.

Lemma build_vocabulary_some (documents : list (list string))
    (vocab : list string) :
  build_vocabulary documents = Some vocab ->
  documents <> [] /\ vocab <> [] /\
  vocab = elements (list_to_set
            (filter (fun word => word ≠ "") (concat documents))
          : gset string).
Proof.
  unfold build_vocabulary. intros Hvocab.
  destruct (decide (documents = [])) as [Hnil|Hd].
  { by rewrite (bool_decide_eq_true_2 _ Hnil) in Hvocab. }
  destruct (_ || _); [done|]. case_decide as Hempty; [done|].
  injection Hvocab as <-. split; [done|]. split; [|done].
  intros Hnil. apply Hempty. apply elements_empty_inv in Hnil.
  by apply leibniz_equiv.
Qed.

End Vocabulary.

(** X6: the vocabulary that [build_vocabulary] returns is not empty, has
    no word twice, and has exactly the words of the documents that are
    not the empty string. *)
Theorem build_vocabulary_words (documents : list (list string))
    (vocab : list string) :
  build_vocabulary documents = Some vocab ->
  vocab <> [] /\ NoDup vocab /\
  forall word,
    word ∈ vocab <->
    word <> "" /\ exists document, document ∈ documents /\ word ∈ document.
Proof.
  intros (_ & Hne & Hvocab)%build_vocabulary_some.
  split; [done|]. rewrite Hvocab. split.
  - apply NoDup_elements.
  - intros word. rewrite elem_of_elements. apply vocabulary_words.
Qed.

Lemma build_vocabulary_words_witness :
  "b" ∈ ["c"; "a"; "b"] <->
  "b" <> "" /\
  exists document, document ∈ [["a"; "b"]; ["b"; "c"]] /\ "b" ∈ document.
Proof.
  destruct (build_vocabulary_words [["a"; "b"]; ["b"; "c"]] ["c"; "a"; "b"])
    as (_ & _ & Hwords); [by vm_compute|]. apply Hwords.
Defined.

(** X7: [build_vocabulary] returns [None] in three cases and no other:
    there is no document, a document has fewer than two tokens, or no
    document has a word that is not the empty string. *)
Theorem build_vocabulary_none (documents : list (list string)) :
  build_vocabulary documents = None <->
  documents = [] \/
  (exists document, document ∈ documents /\ (length document <= 1)%nat) \/
  (forall document word, document ∈ documents -> word ∈ document ->
     word = "").
Proof.
  unfold build_vocabulary.
  destruct (decide (documents = [])) as [->|Hne]; [by split; [left|]|].
  rewrite bool_decide_eq_false_2 by done. cbn [orb].
  destruct (forallb _ documents) eqn:Hlen; cbn [negb].
  - pose proof (proj1 (short_document_spec _) Hlen) as Hlong.
    clear Hlen. rename Hlong into Hlen. case_decide as Hempty.
    + split; [|done]. intros _. right; right. intros d w Hd Hw.
      destruct (decide (w = "")) as [|Hw']; [done|]. exfalso.
      assert (w ∈ (∅ : gset string)) as Hin;
        [|by apply not_elem_of_empty in Hin].
      rewrite <- Hempty. apply vocabulary_words. eauto.
    + split; [done|]. intros [?|[(d & Hd & Hshort)|Hall]]; [done| |].
      * specialize (Hlen d Hd). lia.
      * exfalso. apply Hempty. apply set_eq. intros w.
        rewrite vocabulary_words. split; [|by intros ?%not_elem_of_empty].
        intros (Hw & d & Hd & Hin). exfalso. by apply Hw, (Hall d).
  - split; [|done]. intros _. right; left.
    by apply short_document_exists.
Qed.

(** ** Term frequencies *)

Section TfValues.

Lemma count_bounds `{EqDecision A} (x : A) (l : list A) :
  (0 <= count x l <= len l)%Z.
Proof.
  unfold count, len. pose proof (length_filter (fun y => y = x) l). lia.
Qed.

Lemma count_positive `{EqDecision A} (x : A) (l : list A) :
  (0 < count x l)%Z <-> x ∈ l.
Proof.
  split.
  - intros Hpos. destruct (decide (x ∈ l)) as [|Hnot]; [done|].
    rewrite count_absent in Hpos by done. lia.
  - induction l as [|y l IH]; [by intros ?%elem_of_nil|].
    rewrite count_cons. pose proof (count_bounds x l).
    intros [->|Hin]%elem_of_cons.
    + rewrite decide_True by done. lia.
    + specialize (IH Hin). case_decide; lia.
Qed.

Lemma calculate_tf_some (vocab document_tokens : list string)
    (tf_dict : gmap string R) :
  calculate_tf vocab document_tokens = Returned (Some tf_dict) ->
  vocab <> [] /\ document_tokens <> [] /\
  forall token,
    tf_dict !! token =
    if decide (token ∈ vocab \/ token ∈ document_tokens)
    then Some (frequency document_tokens token) else None.
Proof.
  intros Hret.
  assert (vocab <> [] /\ document_tokens <> []) as [Hv Hd].
  { unfold calculate_tf in Hret. destruct vocab; [done|].
    by destruct document_tokens. }
  split; [done|]. split; [done|]. intros token.
  rewrite calculate_tf_returns in Hret by done. injection Hret as <-.
  rewrite fold_store_lookup, lookup_empty.
  rewrite (decide_ext _ (token ∈ vocab \/ token ∈ document_tokens)).
  - by case_decide.
  - rewrite elem_of_elements, elem_of_union. by rewrite !elem_of_list_to_set.
Qed.

Lemma frequency_bounds (document_tokens : list string) (token : string) :
  document_tokens <> [] ->
  (0 <= frequency document_tokens token <= 1)%R /\
  ((0 < frequency document_tokens token)%R <-> token ∈ document_tokens).
Proof.
  intros Hd. unfold frequency.
  pose proof (len_positive _ Hd) as Hlen. apply IZR_lt in Hlen.
  pose proof (count_bounds token document_tokens) as [H0 H1].
  apply IZR_le in H0, H1.
  assert (0 < / IZR (len document_tokens))%R as Hinv
    by (by apply Rinv_0_lt_compat).
  split; [split|].
  - apply Rmult_le_pos; lra.
  - replace 1%R with (IZR (len document_tokens) / IZR (len document_tokens))%R
      by (field; lra).
    apply Rmult_le_compat_r; lra.
  - rewrite <- count_positive. split.
    + intros Hpos. apply lt_IZR.
      destruct (Rle_lt_dec (IZR (count token document_tokens)) 0) as [Hle|];
        [|done].
      assert (IZR (count token document_tokens) = 0)%R as Hz by lra.
      rewrite Hz in Hpos. unfold Rdiv in Hpos. lra.
    + intros Hpos%IZR_lt. by apply Rmult_lt_0_compat.
Qed.

End TfValues.

(** X8: [calculate_tf] never raises: the division by the length of the
    document is behind the test for an empty document.  It returns [None]
    when the vocabulary or the document is empty, and a map otherwise. *)
Theorem calculate_tf_never_raises (vocab document_tokens : list string) :
  exists result,
    calculate_tf vocab document_tokens = Returned result /\
    (result = None <-> vocab = [] \/ document_tokens = []).
Proof.
  destruct (decide (vocab = [])) as [->|Hv].
  { exists None. split; [done|]. by split; [left|]. }
  destruct (decide (document_tokens = [])) as [->|Hd].
  { exists None. split; [by destruct vocab|]. by split; [right|]. }
  eexists. split; [by apply calculate_tf_returns|].
  split; [done|]. by intros [|].
Qed.

(** X9: every value of the map of [calculate_tf] is a fraction between 0
    and 1, above 0 exactly for the tokens of the document. *)
Theorem calculate_tf_fractions (vocab document_tokens : list string)
    (tf_dict : gmap string R) (token : string) (tf : R) :
  calculate_tf vocab document_tokens = Returned (Some tf_dict) ->
  tf_dict !! token = Some tf ->
  (0 <= tf <= 1)%R /\ ((0 < tf)%R <-> token ∈ document_tokens).
Proof.
  intros (_ & Hd & Hlookup)%calculate_tf_some. rewrite Hlookup.
  case_decide; [|done]. intros [= <-]. by apply frequency_bounds.
Qed.

Lemma calculate_tf_fractions_witness :
  exists tf_dict : gmap string R,
    calculate_tf ["cat"; "owl"] ["cat"; "dog"] = Returned (Some tf_dict) /\
    forall tf, tf_dict !! "owl" = Some tf -> (0 <= tf <= 1)%R.
Proof.
  pose proof (calculate_tf_returns ["cat"; "owl"] ["cat"; "dog"]
                ltac:(discriminate) ltac:(discriminate)) as Hret.
  eexists. split; [exact Hret|]. intros tf Htf.
  by apply (calculate_tf_fractions _ _ _ _ _ Hret Htf).
Defined.

(** ** Inverse document frequencies *)

Section IdfValues.

Lemma calculate_idf_some (vocab : list string) (documents : list (list string))
    (idf_dict : gmap string R) :
  calculate_idf vocab documents = Returned (Some idf_dict) ->
  vocab <> [] /\ documents <> [] /\
  forall token,
    idf_dict !! token =
    if decide (token ∈ vocab)
    then Some (idf_score (len documents) (containing token documents))
    else None.
Proof.
  intros Hret.
  assert (vocab <> [] /\ documents <> [] /\
          forallb Str.str_isalpha vocab = true /\
          forallb (forallb Str.str_isalpha) documents = true)
    as (Hv & Hd & Hav & Had).
  { unfold calculate_idf in Hret. destruct vocab; [done|].
    destruct documents; [done|]. cbn [length Nat.eqb orb] in Hret.
    destruct (forallb Str.str_isalpha (_ :: _)); [|done].
    by destruct (forallb (forallb Str.str_isalpha) (_ :: _)). }
  split; [done|]. split; [done|]. intros token.
  rewrite calculate_idf_returns in Hret by done. injection Hret as <-.
  rewrite fold_store_lookup, lookup_empty. by case_decide.
Qed.

Lemma calculate_idf_invalid (vocab : list string)
    (documents : list (list string)) :
  vocab = [] \/ documents = [] \/
  forallb Str.str_isalpha vocab = false \/
  forallb (forallb Str.str_isalpha) documents = false ->
  calculate_idf vocab documents = Returned None.
Proof.
  unfold calculate_idf. destruct vocab as [|v vocab]; [done|].
  destruct documents as [|d documents]; [done|]. cbn [length Nat.eqb orb].
  intros [?|[?|[-> | ->]]]; [done|done|done|].
  by destruct (forallb Str.str_isalpha (v :: vocab)).
Qed.

(** A score goes down when the term is in more documents. *)
Lemma idf_score_antitone (N n1 n2 : Z) :
  (0 <= n1 <= n2)%Z -> (n2 <= N)%Z -> (idf_score N n2 <= idf_score N n1)%R.
Proof.
  intros [H0 H12] H2N. unfold idf_score. apply ln_monotone.
  - apply idf_quotient_positive. lia.
  - rewrite !minus_IZR. apply IZR_le in H0, H12, H2N.
    apply div_le_div; [lra|lra|nra].
Qed.

Lemma ln_negative (x : R) : (0 < x)%R -> (ln x < 0)%R <-> (x < 1)%R.
Proof.
  intros Hx. rewrite <- ln_1. split.
  - apply ln_lt_inv; lra.
  - by apply ln_increasing.
Qed.

Lemma idf_quotient_below_1 (N n : Z) :
  (0 <= n <= N)%Z ->
  ((IZR (N - n) + 0.5) / (IZR n + 0.5) < 1)%R <-> (N < 2 * n)%Z.
Proof.
  intros [H0 HN]. apply IZR_le in H0 as H0'.
  assert (0 < / (IZR n + 0.5))%R as Hinv by (apply Rinv_0_lt_compat; lra).
  rewrite minus_IZR. split.
  - intros Hlt. apply lt_IZR. rewrite mult_IZR.
    apply (Rmult_lt_compat_r (IZR n + 0.5)) in Hlt; [|lra].
    unfold Rdiv in Hlt. rewrite Rmult_assoc, Rinv_l in Hlt; lra.
  - intros Hlt%IZR_lt. rewrite mult_IZR in Hlt.
    apply div_lt_1; lra.
Qed.

End IdfValues.

(** X10: [calculate_idf] never raises: the divisor [n + 0.5] is not 0 and
    the quotient under the logarithm is positive.  It returns [None] when
    the vocabulary or the corpus is empty or has a token that is not
    alphabetic, and a map otherwise. *)
Theorem calculate_idf_never_raises (vocab : list string)
    (documents : list (list string)) :
  exists result,
    calculate_idf vocab documents = Returned result /\
    (result = None <->
     vocab = [] \/ documents = [] \/
     forallb Str.str_isalpha vocab = false \/
     forallb (forallb Str.str_isalpha) documents = false).
Proof.
  destruct (decide (vocab = [])) as [Hv|Hv].
  { exists None. split; [apply calculate_idf_invalid; tauto|tauto]. }
  destruct (decide (documents = [])) as [Hd|Hd].
  { exists None. split; [apply calculate_idf_invalid; tauto|tauto]. }
  destruct (forallb Str.str_isalpha vocab) eqn:Hav.
  2: { exists None. split; [apply calculate_idf_invalid; tauto|tauto]. }
  destruct (forallb (forallb Str.str_isalpha) documents) eqn:Had.
  2: { exists None. split; [apply calculate_idf_invalid; tauto|tauto]. }
  eexists. split; [by apply calculate_idf_returns|].
  split; [done|]. intros [?|[?|[?|?]]]; done.
Qed.

(** X11: of two terms of the IDF map, the one found in more documents has
    the score that is not greater. *)
Theorem calculate_idf_antitone (vocab : list string)
    (documents : list (list string)) (idf_dict : gmap string R)
    (token1 token2 : string) (idf1 idf2 : R) :
  calculate_idf vocab documents = Returned (Some idf_dict) ->
  idf_dict !! token1 = Some idf1 -> idf_dict !! token2 = Some idf2 ->
  (containing token1 documents <= containing token2 documents)%Z ->
  (idf2 <= idf1)%R.
Proof.
  intros (_ & _ & Hlookup)%calculate_idf_some. rewrite !Hlookup.
  case_decide; [|done]. case_decide; [|done]. intros [= <-] [= <-] Hle.
  pose proof (containing_bounds token1 documents).
  pose proof (containing_bounds token2 documents).
  apply idf_score_antitone; lia.
Qed.

Lemma calculate_idf_antitone_witness :
  (idf_score 2 2 <= idf_score 2 1)%R.
Proof.
  pose proof (calculate_idf_returns ["cat"; "dog"] [["cat"; "dog"]; ["cat"]]
                ltac:(discriminate) ltac:(discriminate)
                ltac:(reflexivity) ltac:(reflexivity)) as Hret.
  apply (calculate_idf_antitone _ _ _ "dog" "cat" _ _ Hret);
    [by vm_compute | by vm_compute | by vm_compute].
Defined.

(** X12: the sign of an IDF: negative when the term is in more than half
    of the documents, zero when in exactly half, positive otherwise. *)
Theorem calculate_idf_sign (vocab : list string)
    (documents : list (list string)) (idf_dict : gmap string R)
    (token : string) (idf : R) :
  calculate_idf vocab documents = Returned (Some idf_dict) ->
  idf_dict !! token = Some idf ->
  ((idf < 0)%R <-> (len documents < 2 * containing token documents)%Z) /\
  (idf = 0%R <-> (len documents = 2 * containing token documents)%Z) /\
  ((0 < idf)%R <-> (2 * containing token documents < len documents)%Z).
Proof.
  intros (_ & _ & Hlookup)%calculate_idf_some. rewrite Hlookup.
  case_decide; [|done]. intros [= <-].
  pose proof (containing_bounds token documents) as Hb.
  set (N := len documents) in *. set (n := containing token documents) in *.
  assert ((idf_score N n < 0)%R <-> (N < 2 * n)%Z) as Hneg.
  { unfold idf_score. rewrite ln_negative by (by apply idf_quotient_positive).
    by apply idf_quotient_below_1. }
  assert ((0 < idf_score N n)%R <-> (2 * n < N)%Z) as Hpos.
  { assert (idf_score N n = (- idf_score N (N - n))%R) as ->.
    { unfold idf_score. replace (N - (N - n))%Z with n by lia.
      destruct Hb as [H0 HN]. apply IZR_le in H0.
      assert (0 <= IZR (N - n))%R by (apply IZR_le; lia).
      rewrite <- ln_Rinv by (apply Rdiv_lt_0_compat; lra).
      f_equal. field. lra. }
    assert ((idf_score N (N - n) < 0)%R <-> (N < 2 * (N - n))%Z) as Hneg'.
    { unfold idf_score.
      rewrite ln_negative by (apply idf_quotient_positive; lia).
      apply idf_quotient_below_1. lia. }
    split.
    - intros Hlt. assert (idf_score N (N - n) < 0)%R as H' by lra.
      apply Hneg' in H'. lia.
    - intros Hlt. assert (N < 2 * (N - n))%Z as H' by lia.
      apply Hneg' in H'. lra. }
  split; [exact Hneg|]. split; [|exact Hpos].
  split.
  - intros Hz. destruct (Z.lt_trichotomy N (2 * n)) as [Hlt|[?|Hgt]];
      [|done|].
    + apply Hneg in Hlt. lra.
    + apply Hpos in Hgt. lra.
  - intros Heq.
    destruct (Rtotal_order (idf_score N n) 0) as [Hlt|[?|Hgt]]; [|done|].
    + apply Hneg in Hlt. lia.
    + apply Hpos in Hgt. lia.
Qed.

Lemma calculate_idf_sign_witness :
  idf_score 2 1 = 0%R.
Proof.
  pose proof (calculate_idf_returns ["cat"; "dog"] [["cat"; "dog"]; ["cat"]]
                ltac:(discriminate) ltac:(discriminate)
                ltac:(reflexivity) ltac:(reflexivity)) as Hret.
  destruct (calculate_idf_sign _ _ _ "dog" (idf_score 2 1) Hret)
    as (_ & Hzero & _); [by vm_compute|].
  apply Hzero. by vm_compute.
Defined.

(** ** From frequencies to TF-IDF *)

(** X13: the TF-IDF scores of a document, from the maps of [calculate_tf]
    and of [calculate_idf] on one vocabulary: [calculate_tf_idf] returns a
    map, its keys are the terms of the vocabulary (a token of the document
    outside the vocabulary is dropped), and a term has the product of its
    frequency in the document and its IDF. *)
Theorem tf_idf_of_document (vocab document_tokens : list string)
    (documents : list (list string)) (tf idf : gmap string R) :
  calculate_tf vocab document_tokens = Returned (Some tf) ->
  calculate_idf vocab documents = Returned (Some idf) ->
  exists scores : gmap string R,
    calculate_tf_idf tf idf = Some scores /\
    dom scores = list_to_set vocab /\
    forall token, token ∈ vocab ->
      scores !! token =
      Some (IZR (count token document_tokens) / IZR (len document_tokens)
            * idf_score (len documents) (containing token documents))%R.
Proof.
  intros (Hv & _ & Htf)%calculate_tf_some (_ & _ & Hidf)%calculate_idf_some.
  assert (forall token,
    tf_idf_items tf idf !! token =
    if decide (token ∈ vocab)
    then Some (frequency document_tokens token
               * idf_score (len documents) (containing token documents))%R
    else None) as Hlookup.
  { intros token. rewrite tf_idf_items_lookup, Htf, Hidf.
    destruct (decide (token ∈ vocab)) as [Hin|Hnot].
    - by rewrite decide_True by (by left).
    - by case_decide. }
  exists (tf_idf_items tf idf). split; [|split].
  - unfold calculate_tf_idf. rewrite decide_False; [done|].
    destruct vocab as [|v vocab']; [done|]. intros Hempty.
    specialize (Hlookup v). rewrite Hempty, lookup_empty in Hlookup.
    by rewrite decide_True in Hlookup by (by left).
  - apply set_eq. intros token.
    rewrite elem_of_dom, Hlookup, elem_of_list_to_set.
    case_decide; [|by split; [intros []|]]. split; [done|]. by eexists.
  - intros token Hin. by rewrite Hlookup, decide_True.
Qed.

Lemma tf_idf_of_document_witness :
  exists scores : gmap string R,
    scores !! "dog" = Some (IZR 1 / IZR 2 * idf_score 2 1)%R /\
    scores !! "owl" = None.
Proof.
  pose proof (calculate_tf_returns ["cat"; "dog"] ["owl"; "dog"]
                ltac:(discriminate) ltac:(discriminate)) as Htf.
  pose proof (calculate_idf_returns ["cat"; "dog"] [["cat"; "dog"]; ["cat"]]
                ltac:(discriminate) ltac:(discriminate)
                ltac:(reflexivity) ltac:(reflexivity)) as Hidf.
  destruct (tf_idf_of_document _ _ _ _ _ Htf Hidf)
    as (scores & _ & Hdom & Hscore).
  exists scores. split.
  - apply (Hscore "dog"). by right; left.
  - apply not_elem_of_dom. rewrite Hdom. rewrite elem_of_list_to_set.
    intros Hin.
    repeat (apply elem_of_cons in Hin as [?|Hin]; [discriminate|]).
    by apply elem_of_nil in Hin.
Defined.

(** ** The outcomes of [calculate_bm25] *)

(** X14: the outcomes of [calculate_bm25], in machine floats.  It returns
    [None] exactly when the vocabulary, the document or the IDF map is
    empty or a length is missing (as it is with the default arguments);
    it raises exactly when the input is not of that kind and the formula
    has no value for some token with an IDF: the count of the token or
    [doc_len] is too large for a float, [avg_doc_len] is zero, or the
    denominator is zero as the floats give it; the exception is then
    [ZeroDivisionError] or [OverflowError]; it returns a map otherwise. *)
Theorem calculate_bm25_outcome (vocab document : list string)
    (idf_document : gmap string Binary64.float) (k1 b : Binary64.float)
    (avg_doc_len : option Binary64.float) (doc_len : option Z) :
  let call :=
    Binary64.calculate_bm25 vocab document idf_document k1 b
      avg_doc_len doc_len in
  let bad_input :=
    vocab = [] \/ document = [] \/ idf_document = ∅ \/
    avg_doc_len = None \/ doc_len = None in
  let undefined :=
    exists avg len_doc token,
      avg_doc_len = Some avg /\ doc_len = Some len_doc /\
      (token ∈ vocab \/ token ∈ document) /\
      is_Some (idf_document !! token) /\
      (Binary64.fits (count token document) = false \/
       Binary64.fits len_doc = false \/
       Binary64.is_zero avg = true \/
       Binary64.is_zero
         (Binary64.bm25_denominator k1 b avg len_doc (count token document))
       = true) in
  (call = Returned None <-> bad_input) /\
  ((exists e, call = Raised e) <-> ~ bad_input /\ undefined) /\
  (forall e, call = Raised e -> e = ZeroDivisionError \/ e = OverflowError) /\
  ((exists bm25_dict, call = Returned (Some bm25_dict)) <->
   ~ bad_input /\ ~ undefined).
Proof.
  intros call bad_input undefined.
  destruct (decide (vocab = [] \/ document = [] \/ idf_document = ∅ \/
                    avg_doc_len = None \/ doc_len = None)) as [Hbad|Hgood].
  { pose proof (float_calculate_bm25_bad_input vocab document idf_document
                  k1 b avg_doc_len doc_len Hbad) as Hcall.
    fold call in Hcall. clearbody call. rewrite Hcall.
    split; [by split|]. split; [|split; [done|]].
    - split; [by intros [e ?]|]. intros [Hgood _]. by destruct Hgood.
    - split; [by intros [? ?]|]. intros [Hgood _]. by destruct Hgood. }
  assert (vocab <> [] /\ document <> [] /\ idf_document <> ∅ /\
          is_Some avg_doc_len /\ is_Some doc_len)
    as (Hv & Hd & Hi & [avg ->] & [len_doc ->]).
  { repeat split.
    - intros ?. apply Hgood. tauto.
    - intros ?. apply Hgood. tauto.
    - intros ?. apply Hgood. tauto.
    - destruct avg_doc_len; [by eexists|]. exfalso. apply Hgood. tauto.
    - destruct doc_len; [by eexists|]. exfalso. apply Hgood. tauto. }
  assert (undefined <->
          exists token,
            (token ∈ vocab \/ token ∈ document) /\
            is_Some (idf_document !! token) /\
            Binary64.bm25_defined document k1 b avg len_doc token = false)
    as Hundef.
  { unfold undefined, Binary64.bm25_defined. split.
    - intros (a & l & token & [= <-] & [= <-] & Hin & Hidf & Hcase).
      exists token. split; [done|]. split; [done|].
      destruct Hcase as [->|[->|[->| ->]]]; cbn [andb negb];
        by rewrite ?andb_false_r.
    - intros (token & Hin & Hidf & Hnot).
      exists avg, len_doc, token. do 4 (split; [done|]).
      destruct (Binary64.fits (count token document)); [|by left].
      destruct (Binary64.fits len_doc); [|by right; left].
      destruct (Binary64.is_zero avg); [by right; right; left|].
      right; right; right. cbn [andb negb] in Hnot.
      by apply negb_false_iff in Hnot. }
  destruct (float_calculate_bm25_cases vocab document idf_document k1 b
              avg len_doc Hv Hd Hi)
    as [(token & e & Hin & Hidf & Hnot & He & Hcall)|[Hdef Hcall]];
    fold call in Hcall; clearbody call; rewrite Hcall.
  - split; [by split|]. split; [|split].
    + split; [|by eexists]. intros _. split; [done|].
      apply Hundef. by exists token.
    + by intros e' [= <-].
    + split; [by intros [? ?]|]. intros [_ Hnot']. exfalso.
      apply Hnot', Hundef. by exists token.
  - split; [by split|]. split; [|split; [done|]].
    + split; [by intros [? ?]|].
      intros [_ (token & Hin & Hidf & Hnot)%Hundef].
      by rewrite Hdef in Hnot.
    + split; [|intros _; by eexists]. intros _. split; [done|].
      intros (token & Hin & Hidf & Hnot)%Hundef. by rewrite Hdef in Hnot.
Qed.

(** X15: when [calculate_bm25] returns a map, a term of the vocabulary
    that the document does not have never has a score that counts: its
    value is the [int] 0 when it has no IDF, and otherwise the float
    [0.0] or [-0.0], or NaN; it is NaN exactly when the IDF or [k1 + 1]
    is infinite or NaN or the denominator is NaN. *)
Theorem calculate_bm25_absent_token (vocab document : list string)
    (idf_document : gmap string Binary64.float)
    (k1 b avg_doc_len : Binary64.float) (doc_len : Z)
    (bm25_dict : gmap string Binary64.number) (token : string) :
  Binary64.calculate_bm25 vocab document idf_document k1 b
    (Some avg_doc_len) (Some doc_len) = Returned (Some bm25_dict) ->
  token ∈ vocab -> token ∉ document ->
  match idf_document !! token with
  | None => bm25_dict !! token = Some (Binary64.Int 0)
  | Some idf =>
      exists score,
        bm25_dict !! token = Some (Binary64.Float score) /\
        (Binary64.is_zero score = true \/ Binary64.is_nan score = true) /\
        (Binary64.is_nan score = true <->
         Binary64.is_finite idf = false \/
         Binary64.is_finite (k1 + Binary64.one)%f64 = false \/
         Binary64.is_nan
           (Binary64.bm25_denominator k1 b avg_doc_len doc_len 0) = true)
  end.
Proof.
  intros Hret Hin Hnot.
  apply float_calculate_bm25_returned in Hret as (_ & _ & _ & -> & Hdef).
  rewrite float_scores_lookup, decide_True by (by left).
  unfold Binary64.bm25_value.
  destruct (idf_document !! token) as [idf|] eqn:Hidf; [|done].
  specialize (Hdef token ltac:(by left) ltac:(by rewrite Hidf)).
  unfold Binary64.bm25_defined in Hdef. rewrite count_absent in * by done.
  apply andb_prop in Hdef as [_ Hden]. apply negb_true_iff in Hden.
  eexists. split; [done|]. unfold Binary64.bm25_score.
  set (den := Binary64.bm25_denominator k1 b avg_doc_len doc_len 0) in *.
  set (y := (k1 + Binary64.one)%f64).
  change (Binary64.of_int 0) with (S754_zero false).
  clearbody den y.
  destruct y as [sy|sy| |sy my ey], den as [sd|sd| |sd md ed];
    try discriminate Hden;
    destruct idf as [si|si| |si mi ei]; cbn;
    (split; [by auto|]); split; try done; try (by auto);
    intros [?|[?|?]]; done.
Qed.

Lemma calculate_bm25_absent_token_witness :
  exists bm25_dict : gmap string Binary64.number,
    Binary64.calculate_bm25 ["cat"; "owl"] ["cat"; "dog"]
      (<["cat" := Binary64.dyadic 1 (-1)]> {["owl" := Binary64.infinity]})
      Binary64.default_k1 Binary64.default_b
      (Some (Binary64.of_int 2)) (Some 2%Z) = Returned (Some bm25_dict) /\
    bm25_dict !! "owl" = Some (Binary64.Float Binary64.nan).
Proof.
  assert (Binary64.calculate_bm25 ["cat"; "owl"] ["cat"; "dog"]
      (<["cat" := Binary64.dyadic 1 (-1)]> {["owl" := Binary64.infinity]})
      Binary64.default_k1 Binary64.default_b
      (Some (Binary64.of_int 2)) (Some 2%Z)
    = Returned (Some (<["cat" := Binary64.Float (Binary64.dyadic 1 (-1))]>
                      (<["dog" := Binary64.Int 0]>
                         {["owl" := Binary64.Float Binary64.nan]}))))
    as Hret by (by vm_compute).
  eexists. split; [exact Hret|].
  pose proof (calculate_bm25_absent_token _ _ _ _ _ _ _ _ "owl" Hret)
    as Habsent.
  destruct Habsent as (score & Hscore & _ & Hnan).
  - by right; left.
  - intros Hin.
    repeat (apply elem_of_cons in Hin as [?|Hin]; [discriminate|]).
    by apply elem_of_nil in Hin.
  - rewrite Hscore. do 2 f_equal.
    assert (Binary64.is_nan score = true) as Hs by (apply Hnan; by left).
    by destruct score.
Defined.

(** ** The outcomes of [calculate_bm25_with_cutoff] *)

Section CutoffOutcomes.

Variables (vocab document : list string) (idf_document : gmap string R).
Variables (alpha k1 b : R).

#[local] Abbreviation cutoff_undefined_word :=
  (cutoff_undefined_word vocab document idf_document alpha k1 b).

Lemma kept_dec (word : string) :
  {kept idf_document alpha word} + {~ kept idf_document alpha word}.
Proof.
  unfold kept. destruct (idf_document !! word) as [idf|].
  - destruct (decide (idf >= alpha)%R) as [Hge|Hlt].
    + left. by exists idf.
    + right. by intros (idf' & [= <-] & Hge).
  - right. by intros (idf' & [=] & _).
Defined.

Lemma calculate_bm25_with_cutoff_bad_input (avg_doc_len : option R)
    (doc_len : option Z) :
  vocab = [] \/ document = [] \/ idf_document = ∅ \/
  avg_doc_len = None \/ doc_len = None \/
  (exists len_doc, doc_len = Some len_doc /\ (len_doc < 0)%Z) ->
  calculate_bm25_with_cutoff vocab document idf_document alpha k1 b
    avg_doc_len doc_len = Returned None.
Proof.
  intros Hbad. unfold calculate_bm25_with_cutoff.
  destruct vocab as [|v vocab']; [done|].
  destruct document as [|t document']; [done|].
  cbn [length Nat.eqb orb].
  destruct (size idf_document) as [|n] eqn:Hsize; [done|]. cbn [Nat.eqb].
  destruct avg_doc_len as [avg|]; [|done].
  destruct doc_len as [len_doc|]; [|done].
  destruct (Z.ltb_spec len_doc 0); [done|]. exfalso.
  destruct Hbad as [?|[?|[Hi|[?|[?|(d & [= <-] & ?)]]]]]; try done; [|lia].
  by rewrite Hi, map_size_empty in Hsize.
Qed.

Lemma calculate_bm25_with_cutoff_cases (avg_doc_len : R) (doc_len : Z) :
  vocab <> [] -> document <> [] -> idf_document <> ∅ -> (0 <= doc_len)%Z ->
  (cutoff_undefined_word avg_doc_len doc_len /\
   calculate_bm25_with_cutoff vocab document idf_document alpha k1 b
     (Some avg_doc_len) (Some doc_len) = Raised ZeroDivisionError) \/
  (~ cutoff_undefined_word avg_doc_len doc_len /\
   calculate_bm25_with_cutoff vocab document idf_document alpha k1 b
     (Some avg_doc_len) (Some doc_len) =
   Returned (Some (fold_left
     (store (cutoff_value document idf_document alpha k1 b avg_doc_len
               doc_len)) vocab ∅))).
Proof.
  intros Hv Hd Hi Hlen.
  set (fine := fun word : string =>
    kept idf_document alpha word ->
    bm25_defined document k1 b avg_doc_len doc_len word).
  assert (forall word, {fine word} + {~ fine word}) as fine_dec.
  { intros word. unfold fine. destruct (kept_dec word) as [Hk|Hk].
    - destruct (decide (bm25_defined document k1 b avg_doc_len doc_len word)).
      + by left.
      + right. intros H. by apply n, H.
    - left. by intros ?. }
  destruct (Forall_Exists_dec fine (fun word => ~ fine word) fine_dec vocab)
    as [Hall|Hex].
  - right. rewrite Forall_forall in Hall. split.
    + intros (word & Hin & Hk & Hundef). by apply Hundef, Hall.
    + apply calculate_bm25_with_cutoff_returns; [done..|].
      intros word Hin. by apply Hall.
  - left. apply Exists_exists in Hex as (word & Hin & Hundef).
    assert (kept idf_document alpha word) as Hk.
    { destruct (kept_dec word) as [|Hk]; [done|].
      exfalso. apply Hundef. by intros ?. }
    assert (~ bm25_defined document k1 b avg_doc_len doc_len word) as Hnot.
    { intros Hdef. apply Hundef. by intros _. }
    split; [by exists word|].
    by apply (calculate_bm25_with_cutoff_raises _ _ _ _ _ _ _ _ word).
Qed.

(** A call that returns a map filled it with the values of the formula,
    for the words that pass the cutoff. *)
Lemma calculate_bm25_with_cutoff_returned (avg_doc_len : R) (doc_len : Z)
    (bm25_with_cutoff : gmap string R) (word : string) :
  calculate_bm25_with_cutoff vocab document idf_document alpha k1 b
    (Some avg_doc_len) (Some doc_len) = Returned (Some bm25_with_cutoff) ->
  bm25_with_cutoff !! word =
  if decide (word ∈ vocab)
  then cutoff_value document idf_document alpha k1 b avg_doc_len doc_len word
  else None.
Proof.
  intros Hret.
  destruct (decide (vocab = [] \/ document = [] \/ idf_document = ∅ \/
                    (doc_len < 0)%Z)) as [Hbad|Hgood].
  { rewrite calculate_bm25_with_cutoff_bad_input in Hret; [done|].
    destruct Hbad as [?|[?|[?|?]]]; eauto 10. }
  destruct (calculate_bm25_with_cutoff_cases avg_doc_len doc_len)
    as [[_ Hcall]|[_ Hcall]]; [tauto|tauto|tauto|lia| |];
    rewrite Hcall in Hret; [done|].
  injection Hret as <-. rewrite fold_store_lookup, lookup_empty.
  case_decide; [|done]. by destruct (cutoff_value _ _ _ _ _ _ _ _).
Qed.

End CutoffOutcomes.

(** X17: the outcomes of [calculate_bm25_with_cutoff], in machine floats.
    It returns [None] exactly when the vocabulary, the document or the
    IDF map is empty, a length is missing, or [doc_len] is negative; it
    raises exactly when the input is not of that kind and the formula has
    no value for some word of the vocabulary with an IDF [>= alpha]: the
    count of the word or [doc_len] is too large for a float,
    [avg_doc_len] is zero, or the denominator is zero as the floats give
    it; the exception is then [ZeroDivisionError] or [OverflowError]. *)
Theorem calculate_bm25_with_cutoff_outcome (vocab document : list string)
    (idf_document : gmap string Binary64.float)
    (alpha k1 b : Binary64.float)
    (avg_doc_len : option Binary64.float) (doc_len : option Z) :
  let call :=
    Binary64.calculate_bm25_with_cutoff vocab document idf_document alpha k1 b
      avg_doc_len doc_len in
  let bad_input :=
    vocab = [] \/ document = [] \/ idf_document = ∅ \/
    avg_doc_len = None \/ doc_len = None \/
    (exists len_doc, doc_len = Some len_doc /\ (len_doc < 0)%Z) in
  let undefined :=
    exists avg len_doc word idf,
      avg_doc_len = Some avg /\ doc_len = Some len_doc /\
      word ∈ vocab /\ idf_document !! word = Some idf /\
      Binary64.geb idf alpha = true /\
      (Binary64.fits (count word document) = false \/
       Binary64.fits len_doc = false \/
       Binary64.is_zero avg = true \/
       Binary64.is_zero
         (Binary64.cutoff_denominator k1 b avg len_doc (count word document))
       = true) in
  (call = Returned None <-> bad_input) /\
  ((exists e, call = Raised e) <-> ~ bad_input /\ undefined) /\
  (forall e, call = Raised e -> e = ZeroDivisionError \/ e = OverflowError) /\
  ((exists bm25_with_cutoff, call = Returned (Some bm25_with_cutoff)) <->
   ~ bad_input /\ ~ undefined).
Proof.
  intros call bad_input undefined.
  assert ({bad_input} + {~ bad_input}) as [Hbad|Hgood].
  { unfold bad_input.
    destruct (decide (vocab = [])); [left; tauto|].
    destruct (decide (document = [])); [left; tauto|].
    destruct (decide (idf_document = ∅)); [left; tauto|].
    destruct avg_doc_len as [avg|]; [|left; tauto].
    destruct doc_len as [len_doc|]; [|left; tauto].
    destruct (decide (len_doc < 0)%Z); [left; eauto 10|].
    right. intros [?|[?|[?|[?|[?|(d & [= <-] & ?)]]]]]; done. }
  { pose proof (float_cutoff_bad_input vocab document idf_document alpha
                  k1 b avg_doc_len doc_len Hbad) as Hcall.
    fold call in Hcall. clearbody call. rewrite Hcall.
    split; [by split|]. split; [|split; [done|]].
    - split; [by intros [e ?]|]. intros [Hgood _]. by destruct Hgood.
    - split; [by intros [? ?]|]. intros [Hgood _]. by destruct Hgood. }
  assert (vocab <> [] /\ document <> [] /\ idf_document <> ∅ /\
          exists avg len_doc,
            avg_doc_len = Some avg /\ doc_len = Some len_doc /\
            (0 <= len_doc)%Z)
    as (Hv & Hd & Hi & avg & len_doc & -> & -> & Hlen).
  { unfold bad_input in Hgood. repeat split.
    - intros ?. apply Hgood. tauto.
    - intros ?. apply Hgood. tauto.
    - intros ?. apply Hgood. tauto.
    - destruct avg_doc_len as [avg|]; [|exfalso; apply Hgood; tauto].
      destruct doc_len as [len_doc|]; [|exfalso; apply Hgood; tauto].
      exists avg, len_doc. repeat split.
      destruct (decide (len_doc < 0)%Z); [|lia].
      exfalso. apply Hgood. eauto 10. }
  assert (undefined <->
          exists word,
            word ∈ vocab /\ Binary64.kept idf_document alpha word = true /\
            Binary64.cutoff_defined document k1 b avg len_doc word = false)
    as Hundef.
  { unfold undefined, Binary64.kept, Binary64.cutoff_defined. split.
    - intros (a & l & word & idf & [= <-] & [= <-] & Hin & Hidf & Hge & Hcase).
      exists word. split; [done|]. rewrite Hidf. split; [done|].
      destruct Hcase as [->|[->|[->| ->]]]; cbn [andb negb];
        by rewrite ?andb_false_r.
    - intros (word & Hin & Hkept & Hnot).
      destruct (idf_document !! word) as [idf|] eqn:Hidf; [|done].
      exists avg, len_doc, word, idf. do 5 (split; [done|]).
      destruct (Binary64.fits (count word document)); [|by left].
      destruct (Binary64.fits len_doc); [|by right; left].
      destruct (Binary64.is_zero avg); [by right; right; left|].
      right; right; right. cbn [andb negb] in Hnot.
      by apply negb_false_iff in Hnot. }
  destruct (float_cutoff_cases vocab document idf_document alpha k1 b
              avg len_doc Hv Hd Hi Hlen)
    as [(word & e & Hin & Hkept & Hnot & He & Hcall)|[Hdef Hcall]];
    fold call in Hcall; clearbody call; rewrite Hcall.
  - split; [by split|]. split; [|split].
    + split; [|by eexists]. intros _. split; [done|].
      apply Hundef. by exists word.
    + by intros e' [= <-].
    + split; [by intros [? ?]|]. intros [_ Hnot']. exfalso.
      apply Hnot', Hundef. by exists word.
  - split; [by split|]. split; [|split; [done|]].
    + split; [by intros [? ?]|].
      intros [_ (word & Hin & Hkept & Hnot)%Hundef].
      by rewrite Hdef in Hnot.
    + split; [|intros _; by eexists]. intros _. split; [done|].
      intros (word & Hin & Hkept & Hnot)%Hundef. by rewrite Hdef in Hnot.
Qed.



(** ** The ranking, on any corpus *)

Section RankingLoop.

Variable query : list string.

#[local] Abbreviation ranked := (ranked query).

Lemma first_index_app_l `{EqDecision A} (x : A) (l1 l2 : list A) :
  x ∈ l1 -> first_index x (l1 ++ l2) = first_index x l1.
Proof.
  induction l1 as [|y l1 IH]; intros Hin; [by apply elem_of_nil in Hin|].
  cbn [app first_index]. case_decide as Hy; [done|].
  apply elem_of_cons in Hin as [->|Hin]; [done|]. by rewrite IH.
Qed.

Lemma first_index_bound `{EqDecision A} (x : A) (l : list A) (i : nat) :
  first_index x l = Some i -> (i < length l)%nat.
Proof.
  revert i. induction l as [|y l IH]; intros i; [done|].
  cbn [first_index length]. case_decide.
  - intros [= <-]. lia.
  - destruct (first_index x l) as [j|]; [|done].
    intros [= <-]. specialize (IH j eq_refl). lia.
Qed.

Lemma first_index_snoc `{EqDecision A} (x y : A) (l : list A) :
  first_index x (l ++ [y]) =
  match first_index x l with
  | Some i => Some i
  | None => if decide (y = x) then Some (length l) else None
  end.
Proof.
  induction l as [|z l IH]; cbn [app first_index length].
  - by case_decide.
  - destruct (decide (z = x)); [done|]. rewrite IH.
    destruct (first_index x l); [done|]. by case_decide.
Qed.

Lemma first_index_none `{EqDecision A} (x : A) (l : list A) :
  first_index x l = None -> x ∉ l.
Proof.
  intros Hnone Hin. destruct (first_index_elem_of x l Hin) as [i Hi].
  congruence.
Qed.

(** Storing under a key the value it has changes nothing. *)
Lemma dict_set_same (k : Z) (v : R) (d : list (Z * R)) :
  NoDup d.*1 -> (k, v) ∈ d -> dict_set k v d = d.
Proof.
  induction d as [|[k' v'] d IH]; intros Hnd Hin;
    [by apply elem_of_nil in Hin|].
  rewrite fmap_cons in Hnd. apply NoDup_cons in Hnd as [Hk' Hnd].
  cbn [dict_set fst snd] in *.
  apply elem_of_cons in Hin as [[= <- <-]|Hin].
  - by rewrite decide_True.
  - rewrite decide_False.
    + by rewrite IH.
    + intros ->. apply Hk'.
      by apply (list_elem_of_fmap_2 fst) in Hin.
Qed.

Lemma ranked_seen (seen rest : list (gmap string R)) (d : gmap string R)
    (acc : list (Z * R)) :
  ranked seen acc -> d ∈ seen ->
  rank_step (seen ++ d :: rest) query acc d = Returned acc /\
  ranked (seen ++ [d]) acc.
Proof.
  intros (Hnd & Hkeys & Hfirst) Hin.
  destruct (first_index_elem_of d seen Hin) as [i Hi]. split.
  - unfold rank_step, index_of. rewrite first_index_app_l, Hi by done.
    cbn [mbind outcome_bind mret outcome_ret].
    rewrite dict_set_same; [done|done|]. by apply Hfirst.
  - split; [done|]. split.
    + intros item Hitem. specialize (Hkeys item Hitem).
      unfold len in *. rewrite length_app. simpl length. lia.
    + intros d' j. rewrite first_index_snoc.
      destruct (first_index d' seen) as [j'|] eqn:Ej.
      * intros [= <-]. by apply Hfirst.
      * case_decide as Hd; [|done]. subst d'. congruence.
Qed.

Lemma ranked_fresh (seen rest : list (gmap string R)) (d : gmap string R)
    (acc : list (Z * R)) :
  ranked seen acc -> d ∉ seen ->
  rank_step (seen ++ d :: rest) query acc d =
  Returned (acc ++ [(len seen, query_score d query)]) /\
  ranked (seen ++ [d]) (acc ++ [(len seen, query_score d query)]).
Proof.
  intros (Hnd & Hkeys & Hfirst) Hnot. split.
  - unfold rank_step, index_of. rewrite first_index_middle by done.
    cbn [mbind outcome_bind mret outcome_ret].
    rewrite dict_set_fresh; [done|].
    intros item Hitem%Hkeys. unfold len in *. lia.
  - split; [|split].
    + rewrite fmap_app. apply NoDup_app. split; [done|]. split.
      * intros k (item & -> & Hitem%Hkeys)%list_elem_of_fmap.
        intros Heq%list_elem_of_singleton. cbn [fst] in Heq.
        unfold len in *. lia.
      * apply NoDup_singleton.
    + intros item [Hitem%Hkeys|Heq%list_elem_of_singleton]%elem_of_app;
        [|subst item; cbn [fst]];
        unfold len in *; rewrite length_app; simpl length; lia.
    + intros d' j. rewrite first_index_snoc.
      destruct (first_index d' seen) as [j'|] eqn:Ej.
      * intros [= <-]. apply elem_of_app. left. by apply Hfirst.
      * case_decide as Hd; [|done]. intros [= <-]. subst d'.
        apply elem_of_app. right. by apply list_elem_of_singleton.
Qed.

Lemma rank_loop (seen rest : list (gmap string R)) (acc : list (Z * R)) :
  ranked seen acc ->
  for_each rest (rank_step (seen ++ rest) query) acc =
  Returned (acc ++ first_scores seen rest query) /\
  ranked (seen ++ rest) (acc ++ first_scores seen rest query).
Proof.
  revert seen acc. induction rest as [|d rest IH]; intros seen acc Hacc.
  - cbn [for_each first_scores]. by rewrite !app_nil_r.
  - cbn [for_each first_scores].
    destruct (decide (d ∈ seen)) as [Hin|Hnot].
    + destruct (ranked_seen seen rest d acc Hacc Hin) as [Hstep Hacc'].
      rewrite Hstep. cbn [mbind outcome_bind app].
      replace (seen ++ d :: rest) with ((seen ++ [d]) ++ rest)
        by (by rewrite <- app_assoc).
      by apply IH.
    + destruct (ranked_fresh seen rest d acc Hacc Hnot) as [Hstep Hacc'].
      rewrite Hstep. cbn [mbind outcome_bind].
      replace (seen ++ d :: rest) with ((seen ++ [d]) ++ rest)
        by (by rewrite <- app_assoc).
      rewrite (app_assoc acc). by apply IH.
Qed.

Lemma ranked_nil : ranked [] [].
Proof.
  split; [constructor|]. split; [by intros ? ?%elem_of_nil|done].
Qed.

(** The pairs of the loop: one for each score map, at the position where
    it is found first. *)
Lemma first_scores_spec (seen rest : list (gmap string R)) (item : Z * R) :
  item ∈ first_scores seen rest query <->
  exists pre d post,
    rest = pre ++ d :: post /\ (d ∉ seen ++ pre) /\
    item = (len (seen ++ pre), query_score d query).
Proof.
  revert seen. induction rest as [|d rest IH]; intros seen.
  - cbn [first_scores]. split; [by intros ?%elem_of_nil|].
    intros (pre & d & post & Hrest & _). by destruct pre.
  - cbn [first_scores]. rewrite elem_of_app, IH. split.
    + intros [Hhead|(pre & d' & post & -> & Hnot & ->)].
      * case_decide as Hd; [by apply elem_of_nil in Hhead|].
        apply list_elem_of_singleton in Hhead as ->.
        exists [], d, rest. by rewrite app_nil_r.
      * exists (d :: pre), d', post. by rewrite <- !app_assoc in *.
    + intros (pre & d' & post & Hrest & Hnot & ->).
      destruct pre as [|d0 pre]; cbn [app] in Hrest.
      * injection Hrest as <- <-. left. rewrite app_nil_r in *.
        rewrite decide_False by done. by apply list_elem_of_singleton.
      * injection Hrest as <- ->. right.
        exists pre, d', post. by rewrite <- !app_assoc.
Qed.

End RankingLoop.

Section RankDocuments.

Lemma tokenize_some (query : string) :
  query <> "" -> exists tokenized_query, tokenize query = Some tokenized_query.
Proof. intros Hq. rewrite tokenize_text by done. by eexists. Qed.

Lemma remove_stopwords_none (tokens stopwords : list string) :
  remove_stopwords tokens stopwords = None <-> tokens = [] \/ stopwords = [].
Proof.
  unfold remove_stopwords. destruct tokens as [|t tokens].
  - by split; [left|].
  - destruct stopwords as [|w stopwords].
    + by split; [right|].
    + cbn [length Nat.eqb orb]. split; [done|]. by intros [|].
Qed.

Lemma rank_documents_guard (indexes : list (gmap string R)) (query : string)
    (stopwords : list string) :
  indexes <> [] -> query <> "" -> stopwords <> [] ->
  rank_documents indexes query stopwords =
  match tokenize query with
  | None => Returned None
  | Some tokenized_query =>
      match remove_stopwords tokenized_query stopwords with
      | None => Returned None
      | Some processed_query =>
          Returned
            (Some (sorted_desc (first_scores [] indexes processed_query)))
      end
  end.
Proof.
  intros Hi Hq Hs. unfold rank_documents.
  rewrite !bool_decide_eq_false_2 by done.
  apply String.eqb_neq in Hq. rewrite Hq. cbn [orb].
  destruct (tokenize query) as [tokenized_query|]; [|done].
  destruct (remove_stopwords tokenized_query stopwords)
    as [processed_query|]; [|done].
  destruct (rank_loop processed_query [] indexes [] (ranked_nil _))
    as [Hloop _].
  cbn [app] in Hloop. by rewrite Hloop.
Qed.

Lemma rank_documents_bad_input (indexes : list (gmap string R))
    (query : string) (stopwords : list string) :
  indexes = [] \/ query = "" \/ stopwords = [] ->
  rank_documents indexes query stopwords = Returned None.
Proof.
  unfold rank_documents. intros [Hi|[Hq|Hs]].
  - by rewrite (bool_decide_eq_true_2 _ Hi).
  - apply String.eqb_eq in Hq. by rewrite Hq, orb_true_r.
  - by rewrite (bool_decide_eq_true_2 _ Hs), !orb_true_r.
Qed.

Lemma sorted_desc_equal_scores (l : list (Z * R)) (v : R) :
  (forall item, item ∈ l -> item.2 = v) -> sorted_desc l = l.
Proof.
  induction l as [|x l IH]; intros Hall; [done|].
  cbn [sorted_desc foldr]. fold (sorted_desc l).
  rewrite IH by (intros item Hin; apply Hall; by right).
  destruct l as [|y l]; [done|]. cbn [insert_desc].
  rewrite decide_False; [done|].
  rewrite (Hall x) by (by left). rewrite (Hall y) by (by right; left). lra.
Qed.

Lemma first_scores_distinct (seen rest : list (gmap string R))
    (query : list string) :
  NoDup (seen ++ rest) ->
  first_scores seen rest query =
  imap (fun i d => (Z.of_nat (length seen + i), query_score d query)) rest.
Proof.
  revert seen. induction rest as [|d rest IH]; intros seen Hnd; [done|].
  cbn [first_scores]. rewrite imap_cons.
  apply NoDup_app in Hnd as Hparts. destruct Hparts as (_ & Hfresh & _).
  rewrite decide_False by (intros Hin; apply (Hfresh d Hin); by left).
  cbn [app]. f_equal.
  - unfold len. by rewrite Nat.add_0_r.
  - rewrite IH by (by rewrite <- app_assoc). apply imap_ext.
    intros i d' _. cbn [compose]. rewrite length_app. simpl length.
    do 2 f_equal. lia.
Qed.

End RankDocuments.

(** X19: [rank_documents] never raises: [indexes.index] always finds the
    score map it is given, which comes from [indexes]. *)
Theorem rank_documents_never_raises (indexes : list (gmap string R))
    (query : string) (stopwords : list string) :
  exists result, rank_documents indexes query stopwords = Returned result.
Proof.
  destruct (decide (indexes = [] \/ query = "" \/ stopwords = []))
    as [Hbad|Hgood].
  { exists None. by apply rank_documents_bad_input. }
  rewrite rank_documents_guard by tauto.
  destruct (tokenize query) as [tokenized_query|]; [|by eexists].
  destruct (remove_stopwords tokenized_query stopwords); by eexists.
Qed.

(** X20: what a ranking of [rank_documents] holds, on any corpus of score
    maps without NaN: a pair [(i, sum)] for each score map at the position
    [i] where the corpus has it first, with the sum of its values over the
    query tokens, and no pair for a position whose score map came before;
    no position twice. *)
Theorem rank_documents_ranking (indexes : list (gmap string R))
    (query : string) (stopwords : list string) (ranking : list (Z * R)) :
  rank_documents indexes query stopwords = Returned (Some ranking) ->
  exists tokenized_query processed_query,
    tokenize query = Some tokenized_query /\
    remove_stopwords tokenized_query stopwords = Some processed_query /\
    (forall i score,
       (i, score) ∈ ranking <->
       exists pre d post,
         indexes = pre ++ d :: post /\ (d ∉ pre) /\
         i = len pre /\ score = query_score d processed_query) /\
    NoDup ranking.*1.
Proof.
  intros Hret.
  destruct (decide (indexes = [] \/ query = "" \/ stopwords = []))
    as [Hbad|Hgood].
  { by rewrite rank_documents_bad_input in Hret. }
  rewrite rank_documents_guard in Hret by tauto.
  destruct (tokenize query) as [tokenized_query|] eqn:Htok; [|done].
  destruct (remove_stopwords tokenized_query stopwords)
    as [processed_query|] eqn:Hrem; [|done].
  injection Hret as <-. exists tokenized_query, processed_query.
  split; [done|]. split; [done|]. split.
  - intros i score. rewrite sorted_desc_perm, first_scores_spec.
    split.
    + intros (pre & d & post & -> & Hnot & [= -> ->]).
      by exists pre, d, post.
    + intros (pre & d & post & -> & Hnot & -> & ->).
      by exists pre, d, post.
  - rewrite sorted_desc_perm.
    destruct (rank_loop processed_query [] indexes [] (ranked_nil _))
      as [_ (Hnd & _)]. exact Hnd.
Qed.

Lemma rank_documents_ranking_witness :
  exists processed_query,
    forall i score,
      (i, score) ∈ [(0%Z, 1%R)] <->
      exists pre d post,
        [ ({["cat" := 1%R]} : gmap string R); {["cat" := 1%R]} ]
        = pre ++ d :: post /\ (d ∉ pre) /\
        i = len pre /\ score = query_score d processed_query.
Proof.
  assert (rank_documents [ {["cat" := 1%R]}; {["cat" := 1%R]} ] "cat" ["the"]
          = Returned (Some [(0%Z, 1%R)])) as Hret.
  { rewrite rank_documents_guard by discriminate.
    change (tokenize "cat") with (Some ["cat"]). cbv beta iota.
    change (remove_stopwords ["cat"] ["the"]) with (Some ["cat"]).
    cbv beta iota. cbn [first_scores app].
    rewrite decide_False by apply not_elem_of_nil.
    rewrite decide_True by (by left).
    unfold query_score. cbn [omap list_omap app].
    rewrite lookup_singleton_eq, sum_cons, sum_nil, Rplus_0_r.
    reflexivity. }
  destruct (rank_documents_ranking _ _ _ _ Hret)
    as (tokenized_query & processed_query & _ & _ & Hpairs & _).
  by exists processed_query.
Defined.

(** X21: [rank_documents] returns [None] in four cases and no other: no
    score map, an empty query, no stopword, or a query without a single
    token, such as a query of digits. *)
Theorem rank_documents_none (indexes : list (gmap string R))
    (query : string) (stopwords : list string) :
  rank_documents indexes query stopwords = Returned None <->
  indexes = [] \/ query = "" \/ stopwords = [] \/ tokenize query = Some [].
Proof.
  destruct (decide (indexes = [] \/ query = "" \/ stopwords = []))
    as [Hbad|Hgood].
  { rewrite rank_documents_bad_input by done. split; [tauto|done]. }
  rewrite rank_documents_guard by tauto.
  destruct (tokenize_some query) as [tokenized_query Htok]; [tauto|].
  rewrite Htok.
  destruct (remove_stopwords tokenized_query stopwords)
    as [processed_query|] eqn:Hrem.
  - split; [done|]. intros [?|[?|[?|[= ->]]]]; [tauto..|].
    by destruct stopwords.
  - apply remove_stopwords_none in Hrem as [->|?]; [|tauto].
    split; [tauto|done].
Qed.

(** X22: a query whose tokens are all stopwords ranks every document with
    the sum 0, and the documents stay in the order of the corpus (here on
    score maps that differ from one another). *)
Theorem rank_documents_stopwords_only (indexes : list (gmap string R))
    (query : string) (stopwords tokenized_query : list string) :
  NoDup indexes -> indexes <> [] -> stopwords <> [] ->
  tokenize query = Some tokenized_query -> tokenized_query <> [] ->
  (forall token, token ∈ tokenized_query -> token ∈ stopwords) ->
  rank_documents indexes query stopwords =
  Returned (Some (imap (fun i _ => (Z.of_nat i, 0%R)) indexes)).
Proof.
  intros Hnd Hi Hs Htok Hne Hall.
  assert (query <> "") as Hq by (by intros ->).
  rewrite rank_documents_guard, Htok by done.
  assert (remove_stopwords tokenized_query stopwords = Some []) as ->.
  { unfold remove_stopwords. destruct tokenized_query as [|t tq]; [done|].
    destruct stopwords as [|w sw]; [done|]. cbn [length Nat.eqb orb].
    f_equal. generalize (t :: tq) Hall. clear.
    induction l as [|x l IH]; intros Hall; [done|].
    rewrite filter_cons_False.
    - apply IH. intros token Hin. apply Hall. by right.
    - intros Hx. apply Hx, Hall. by left. }
  rewrite first_scores_distinct by done.
  do 2 f_equal. apply (sorted_desc_equal_scores _ 0%R).
  by intros item (i & d & -> & _)%elem_of_lookup_imap.
Qed.

Lemma rank_documents_stopwords_only_witness :
  rank_documents [ {["cat" := 1%R]}; {["dog" := 2%R]} ] "The the" ["the"]
  = Returned (Some [(0%Z, 0%R); (1%Z, 0%R)]).
Proof.
  refine (rank_documents_stopwords_only
            [ {["cat" := 1%R]}; {["dog" := 2%R]} ] "The the" ["the"]
            ["the"; "the"] _ _ _ _ _ _).
  - repeat constructor.
    + intros Hin%list_elem_of_singleton.
      apply (f_equal (fun d : gmap string R => d !! "cat")) in Hin.
      by rewrite lookup_singleton_eq, lookup_singleton_ne in Hin.
    + apply not_elem_of_nil.
  - discriminate.
  - discriminate.
  - reflexivity.
  - discriminate.
  - intros token Hin.
    repeat (apply elem_of_cons in Hin as [->|Hin]; [by left|]).
    by apply elem_of_nil in Hin.
Defined.

(** ** Spearman's coefficient *)

Section SpearmanValues.

Variables rank golden_rank : list Z.

Lemma first_index_some `{EqDecision A} (x : A) (l : list A) (i : nat) :
  first_index x l = Some i -> x ∈ l.
Proof.
  revert i. induction l as [|y l IH]; intros i; [done|].
  cbn [first_index]. case_decide as Hy; [intros _; rewrite Hy; by left|].
  destruct (first_index x l) as [j|]; [|done].
  intros _. right. by apply (IH j).
Qed.

Lemma spearman_step_square (total item : Z) :
  item ∈ rank ->
  spearman_step rank golden_rank total item =
  Returned (total + squared_difference rank golden_rank item)%Z.
Proof.
  intros Hin. unfold spearman_step, squared_difference, index_of.
  destruct (first_index_elem_of item rank Hin) as [r ->].
  case_decide as Hg.
  - destruct (first_index_elem_of item golden_rank Hg) as [g ->]. done.
  - destruct (first_index item golden_rank) as [g|] eqn:Eg.
    + exfalso. by apply Hg, (first_index_some _ _ g).
    + cbn [mret outcome_ret]. f_equal. lia.
Qed.

Lemma spearman_loop (items : list Z) (total : Z) :
  (forall item, item ∈ items -> item ∈ rank) ->
  for_each items (spearman_step rank golden_rank) total =
  Returned (total + sum_of_squares rank golden_rank items)%Z.
Proof.
  revert total. induction items as [|item items IH]; intros total Hsub.
  - cbn [for_each sum_of_squares foldr]. f_equal. lia.
  - cbn [for_each]. rewrite spearman_step_square by (apply Hsub; by left).
    cbn [mbind outcome_bind]. rewrite IH by (intros ? ?; apply Hsub; by right).
    cbn [sum_of_squares foldr]. f_equal. unfold sum_of_squares. lia.
Qed.

Lemma squared_difference_nonneg (item : Z) :
  (0 <= squared_difference rank golden_rank item)%Z.
Proof.
  unfold squared_difference.
  destruct (first_index item golden_rank); [|done].
  destruct (first_index item rank); [|done]. apply Z.pow_even_nonneg.
  by exists 1%Z.
Qed.

Lemma sum_of_squares_nonneg (items : list Z) :
  (0 <= sum_of_squares rank golden_rank items)%Z.
Proof.
  induction items as [|item items IH]; [done|].
  cbn [sum_of_squares foldr]. pose proof (squared_difference_nonneg item).
  unfold sum_of_squares in IH. lia.
Qed.

Lemma calculate_spearman_value :
  length rank = length golden_rank -> (2 <= length rank)%nat ->
  calculate_spearman rank golden_rank =
  Returned (Some (1 - IZR (6 * sum_of_squares rank golden_rank rank)
                      / IZR (len rank * (len rank ^ 2 - 1)))%R).
Proof.
  intros Hlen Hn. unfold calculate_spearman.
  rewrite !bool_decide_eq_false_2
    by (intros Hnil; rewrite Hnil in *; simpl in *; lia).
  rewrite Hlen, Nat.eqb_refl. cbn [negb orb].
  rewrite spearman_loop by done. cbn [mbind outcome_bind].
  unfold int_div. rewrite decide_False; [done|].
  unfold len. rewrite Z.pow_2_r. nia.
Qed.

Lemma calculate_spearman_bad_input :
  rank = [] \/ golden_rank = [] \/ length rank <> length golden_rank ->
  calculate_spearman rank golden_rank = Returned None.
Proof.
  unfold calculate_spearman. intros Hbad.
  case_bool_decide; [done|]. case_bool_decide; [done|]. cbn [orb].
  destruct (Nat.eqb_spec (length rank) (length golden_rank)); [|done].
  tauto.
Qed.

End SpearmanValues.

Section SpearmanReversed.

Lemma squared_difference_reverse (pre post : list Z) (x : Z) :
  NoDup (pre ++ x :: post) ->
  squared_difference (pre ++ x :: post) (reverse (pre ++ x :: post)) x =
  ((len post - len pre) ^ 2)%Z.
Proof.
  intros Hnd. unfold squared_difference.
  apply NoDup_app in Hnd as (_ & Hpre & Hpost).
  apply NoDup_cons in Hpost as [Hpost _].
  assert (x ∉ pre) as Hx by (intros Hin; apply (Hpre x Hin); by left).
  rewrite (first_index_middle x pre post) by done.
  rewrite reverse_app, reverse_cons, <- app_assoc. cbn [app].
  rewrite first_index_middle by (by rewrite elem_of_reverse).
  by rewrite length_reverse.
Qed.

Lemma sum_of_squares_reverse (pre items : list Z) :
  NoDup (pre ++ items) ->
  let m := len items in
  let a := (len items - 1 - len pre)%Z in
  (3 * sum_of_squares (pre ++ items) (reverse (pre ++ items)) items =
   3 * m * a ^ 2 - 6 * a * m * (m - 1) + 2 * m * (m - 1) * (2 * m - 1))%Z.
Proof.
  revert pre. induction items as [|x items IH]; intros pre Hnd.
  { cbn zeta. change (len (@nil Z)) with 0%Z.
    cbn [sum_of_squares foldr]. ring. }
  cbn zeta. cbn [sum_of_squares foldr]. fold (sum_of_squares
    (pre ++ x :: items) (reverse (pre ++ x :: items)) items).
  rewrite squared_difference_reverse by done.
  replace (pre ++ x :: items) with ((pre ++ [x]) ++ items) in *
    by (by rewrite <- app_assoc).
  specialize (IH (pre ++ [x]) Hnd). cbn zeta in IH.
  rewrite Z.mul_add_distr_l, IH. unfold len.
  rewrite length_app. simpl length.
  rewrite !Nat2Z.inj_add, !Nat2Z.inj_succ. simpl Z.of_nat. ring.
Qed.

End SpearmanReversed.

(** X25: the outcomes of [calculate_spearman].  It returns [None] exactly
    when a ranking is empty or the lengths differ; it raises exactly when
    both rankings have one item, and then the exception is
    [ZeroDivisionError]; on longer rankings of one length it returns a
    number. *)
Theorem calculate_spearman_outcome (rank golden_rank : list Z) :
  let call := calculate_spearman rank golden_rank in
  (call = Returned None <->
   rank = [] \/ golden_rank = [] \/ length rank <> length golden_rank) /\
  (call = Raised ZeroDivisionError <->
   length rank = 1%nat /\ length golden_rank = 1%nat) /\
  (forall e, call = Raised e -> e = ZeroDivisionError) /\
  ((exists rho, call = Returned (Some rho)) <->
   length rank = length golden_rank /\ (2 <= length rank)%nat).
Proof.
  intros call.
  destruct (decide (rank = [] \/ golden_rank = [] \/
                    length rank <> length golden_rank)) as [Hbad|Hgood].
  { pose proof (calculate_spearman_bad_input _ _ Hbad) as Hcall.
    fold call in Hcall. clearbody call. rewrite Hcall.
    split; [by split|]. split; [|split; [done|]].
    - split; [done|]. intros [H1 H2].
      destruct Hbad as [->|[->|Hne]]; [done|done|]. congruence.
    - split; [by intros [? ?]|]. intros [Heq Hn].
      destruct Hbad as [->|[->|Hne]]; [simpl in Hn; lia| |done].
      rewrite Heq in Hn. simpl in Hn. lia. }
  assert (rank <> [] /\ golden_rank <> [] /\
          length rank = length golden_rank) as (Hr & Hg & Hlen).
  { repeat split.
    - intros ?. apply Hgood. tauto.
    - intros ?. apply Hgood. tauto.
    - destruct (decide (length rank = length golden_rank)); [done|].
      exfalso. apply Hgood. tauto. }
  destruct (decide (length rank = 1%nat)) as [H1|H1].
  - assert (call = Raised ZeroDivisionError) as Hcall.
    { destruct rank as [|x [|? ?]]; [done| |done].
      destruct golden_rank as [|y [|? ?]]; [done| |done].
      apply calculate_spearman_singleton. }
    clearbody call. rewrite Hcall.
    split; [split; [done|tauto]|]. split; [|split].
    + split; [|done]. intros _. split; [done|]. by rewrite <- Hlen.
    + by intros e [= <-].
    + split; [by intros [? ?]|]. intros [_ Hn]. lia.
  - assert (2 <= length rank)%nat as Hn.
    { destruct rank as [|x [|? ?]]; [done|done|]. simpl. lia. }
    pose proof (calculate_spearman_value rank golden_rank Hlen Hn) as Hcall.
    fold call in Hcall. clearbody call. rewrite Hcall.
    split; [split; [done|tauto]|]. split; [|split; [done|]].
    + split; [done|]. tauto.
    + split; [done|]. intros _. by eexists.
Qed.

(** X26: the number that [calculate_spearman] returns: 1 minus [6 * S]
    over [n * (n**2 - 1)], where [S] adds, for each item of [rank] that
    [golden_rank] has, the square of the difference of the first
    positions of the item in the two rankings.  It is never above 1. *)
Theorem calculate_spearman_number (rank golden_rank : list Z) (rho : R) :
  calculate_spearman rank golden_rank = Returned (Some rho) ->
  rho = (1 - IZR (6 * sum_of_squares rank golden_rank rank)
             / IZR (len rank * (len rank ^ 2 - 1)))%R /\
  (rho <= 1)%R.
Proof.
  intros Hret.
  assert (length rank = length golden_rank /\ (2 <= length rank)%nat)
    as [Hlen Hn].
  { destruct (decide (rank = [] \/ golden_rank = [] \/
                      length rank <> length golden_rank)) as [Hbad|Hgood].
    { by rewrite (calculate_spearman_bad_input _ _ Hbad) in Hret. }
    assert (length rank = length golden_rank) as Hlen.
    { destruct (decide (length rank = length golden_rank)); [done|].
      exfalso. apply Hgood. tauto. }
    split; [done|].
    destruct rank as [|x [|? ?]]; [exfalso; apply Hgood; tauto| |simpl; lia].
    destruct golden_rank as [|y [|? ?]]; [done| |done].
    by rewrite calculate_spearman_singleton in Hret. }
  rewrite calculate_spearman_value in Hret by done.
  injection Hret as <-. split; [done|].
  pose proof (sum_of_squares_nonneg rank golden_rank rank) as Hsum.
  assert (0 < len rank * (len rank ^ 2 - 1))%Z as Hden.
  { unfold len. rewrite Z.pow_2_r. nia. }
  apply IZR_lt in Hden.
  assert (0 <= IZR (6 * sum_of_squares rank golden_rank rank))%R
    by (apply IZR_le; lia).
  assert (0 <= IZR (6 * sum_of_squares rank golden_rank rank)
               / IZR (len rank * (len rank ^ 2 - 1)))%R.
  { apply Rmult_le_pos; [done|]. left. by apply Rinv_0_lt_compat. }
  lra.
Qed.

Lemma calculate_spearman_number_witness :
  calculate_spearman [3; 2; 1]%Z [1; 2; 3]%Z = Returned (Some (-1)%R) /\
  (-1 <= 1)%R.
Proof.
  split; [exact calculate_spearman_reversed|].
  apply (calculate_spearman_number [3; 2; 1]%Z [1; 2; 3]%Z (-1)%R
           calculate_spearman_reversed).
Defined.

(** X27: the coefficient is 1 when every item that both rankings have
    stands first at one position in both: so for a ranking and itself, and
    also for two rankings without a common item. *)
Theorem calculate_spearman_agreement (rank golden_rank : list Z) :
  length rank = length golden_rank -> (2 <= length rank)%nat ->
  (forall item, item ∈ rank -> item ∈ golden_rank ->
     first_index item golden_rank = first_index item rank) ->
  calculate_spearman rank golden_rank = Returned (Some 1%R).
Proof.
  intros Hlen Hn Hsame. rewrite calculate_spearman_value by done.
  assert (forall items, (forall item, item ∈ items -> item ∈ rank) ->
    sum_of_squares rank golden_rank items = 0%Z) as Hzero.
  { induction items as [|item items IH]; intros Hsub; [done|].
    cbn [sum_of_squares foldr]. fold (sum_of_squares rank golden_rank items).
    rewrite IH by (intros ? ?; apply Hsub; by right).
    unfold squared_difference.
    destruct (first_index item golden_rank) as [g|] eqn:Eg; [|done].
    rewrite <- Hsame, Eg.
    - rewrite Z.sub_diag. done.
    - apply Hsub. by left.
    - by apply (first_index_some _ _ g). }
  rewrite Hzero by done. do 2 f_equal. rewrite Z.mul_0_r.
  unfold Rdiv. lra.
Qed.

Lemma calculate_spearman_agreement_witness :
  calculate_spearman [1; 2]%Z [3; 4]%Z = Returned (Some 1%R) /\
  calculate_spearman [5; 5; 7]%Z [5; 5; 7]%Z = Returned (Some 1%R).
Proof.
  split.
  - apply calculate_spearman_agreement; [reflexivity | simpl; lia |].
    intros item Hrank Hgolden. exfalso.
    repeat (apply elem_of_cons in Hrank as [->|Hrank];
      [repeat (apply elem_of_cons in Hgolden as [?|Hgolden]; [lia|]);
       by apply elem_of_nil in Hgolden|]).
    by apply elem_of_nil in Hrank.
  - apply calculate_spearman_agreement; [reflexivity | simpl; lia | done].
Defined.

(** X28: a ranking of two items or more, none twice, and the same
    ranking read backwards have the coefficient -1. *)
Theorem calculate_spearman_backwards (rank : list Z) :
  NoDup rank -> (2 <= length rank)%nat ->
  calculate_spearman rank (reverse rank) = Returned (Some (-1)%R).
Proof.
  intros Hnd Hn.
  rewrite calculate_spearman_value by (by rewrite ?length_reverse).
  pose proof (sum_of_squares_reverse [] rank Hnd) as Hsum.
  cbn zeta in Hsum. cbn [app] in Hsum.
  change (len (@nil Z)) with 0%Z in Hsum.
  set (S := sum_of_squares rank (reverse rank) rank) in *.
  set (n := len rank) in *.
  assert (2 <= n)%Z as Hn' by (unfold n, len; lia).
  assert (6 * S = 2 * (n * (n ^ 2 - 1)))%Z as ->.
  { rewrite Z.pow_2_r in *. lia. }
  assert (0 < n * (n ^ 2 - 1))%Z as Hden by (rewrite Z.pow_2_r; nia).
  apply IZR_lt in Hden. do 2 f_equal. rewrite mult_IZR. field. lra.
Qed.

Lemma calculate_spearman_backwards_witness :
  calculate_spearman [4; 8; 15; 16]%Z [16; 15; 8; 4]%Z
  = Returned (Some (-1)%R).
Proof.
  refine (calculate_spearman_backwards [4; 8; 15; 16]%Z _ _).
  - apply NoDup_ListNoDup. repeat constructor; simpl; intuition lia.
  - simpl. lia.
Defined.
